(** * K-mer models of GATB-core: a shallow embedding of
      gatb/kmer/impl/Model.hpp and the properties of its specification.

    The file has three parts.  Part I embeds the C++ classes of [struct Kmer<span>]
    (KmerDirect, KmerCanonical, KmerMinimizer, ModelAbstract and its Iterator,
    ModelDirect, ModelCanonical, ModelMinimizer, SuperKmer) as Rocq functions
    over [Z]; Part II states and proves the properties of the specification;
    Part III proves further properties of the code. *)

From Stdlib Require Import ZArith List Bool Lia String Ascii.
From stdpp Require Import base list.
Import ListNotations.
Local Open Scope Z_scope.
Local Unset Default Proof Using.

(* ===================================================================== *)
(** * Part I.  The embedding                                              *)
(* ===================================================================== *)

(** ** Machine integers

    C integers are [Z] values with the wrap-around of their width written out. *)

Definition u8  (x : Z) : Z := x mod 2 ^ 8.
Definition u32 (x : Z) : Z := x mod 2 ^ 32.
Definition u64 (x : Z) : Z := x mod 2 ^ 64.

(** Conversion of an unsigned value to [int32_t] (two's complement). *)
Definition int32 (x : Z) : Z := (x + 2 ^ 31) mod 2 ^ 32 - 2 ^ 31.

(** Bitwise negation of a [u_int64_t]. *)
Definition u64_not (x : Z) : Z := u64 (Z.lnot x).

(** ** Nucleotide tables and reverse complement *)

(** Modelled from the spec: the table [comp_NT] is declared [extern] in
    Model.hpp and defined elsewhere.  The alphabet is A=0, C=1, T=2, G=3 and
    the complement of a code is [code ^ 2], which gives the table below. *)
Definition comp_NT : list Z := [2; 3; 0; 1].

(** [comp_NT[i]]; the table has four entries and the source never indexes
    it with anything but a 2-bit code. *)
Definition comp_NT_at (i : Z) : Z := nth (Z.to_nat i) comp_NT 0.

(** Modelled from the spec: [revcomp (x, sizeKmer)] lives in LargeInt.hpp,
    which is not among the sources.  It reverses the order of the [sizeKmer]
    2-bit digits of [x] and complements each: digit 0 of [x] becomes, once
    complemented, digit [sizeKmer-1] of the result, and so on. *)
Fixpoint revcomp_digits (n : nat) (x : Z) : Z :=
  match n with
  | O => 0
  | S n' => Z.lxor (Z.land x 3) 2 * 4 ^ Z.of_nat n' + revcomp_digits n' (Z.shiftr x 2)
  end.

Definition revcomp (x : Z) (sizeKmer : Z) : Z := revcomp_digits (Z.to_nat sizeKmer) x.

(** ** Exceptions raised by the constructors *)

Inductive Exception : Type :=
| TooLowPrecision (sizeKmer : Z)
| BadKmerMinimizerValues (kmerSize minimizerSize : Z).

Definition bind {A B : Type} (e : Exception + A) (k : A -> Exception + B) : Exception + B :=
  match e with
  | inl x => inl x
  | inr a => k a
  end.

Notation "'try!' x ':=' e 'in' k" := (bind e (fun x => k))
  (at level 10, x name, e at level 100, k at level 200).

(** ** Kmer value types *)

(** class KmerDirect *)
Record KmerDirect : Type := mkKmerDirect {
  KmerDirect_value   : Z;
  KmerDirect_isValid : bool
}.

(** class KmerCanonical: [table[2]] is kept as two fields. *)
Record KmerCanonical : Type := mkKmerCanonical {
  table0 : Z;
  table1 : Z;
  choice : Z;
  KmerCanonical_isValid : bool
}.

(** [value()] is [table[choice]]. *)
Definition KmerCanonical_value (k : KmerCanonical) : Z :=
  if choice k =? 0 then table0 k else table1 k.

Definition KmerCanonical_forward (k : KmerCanonical) : Z := table0 k.
Definition KmerCanonical_revcomp (k : KmerCanonical) : Z := table1 k.

(** [which()] *)
Definition KmerCanonical_which (k : KmerCanonical) : bool := choice k =? 0.

(** [updateChoice]: [choice = (table[0] < table[1]) ? 0 : 1] *)
Definition updateChoice (k : KmerCanonical) : KmerCanonical :=
  mkKmerCanonical (table0 k) (table1 k)
                  (if table0 k <? table1 k then 0 else 1)
                  (KmerCanonical_isValid k).

(** [set (forward, revcomp)] *)
Definition KmerCanonical_set2 (k : KmerCanonical) (forward revcomp_ : Z) : KmerCanonical :=
  updateChoice (mkKmerCanonical forward revcomp_ (choice k) (KmerCanonical_isValid k)).

(** [set (val)]: "Not really a forward/revcomp couple, but may be useful for
    the minimizer default value." *)
Definition KmerCanonical_set (k : KmerCanonical) (val : Z) : KmerCanonical :=
  KmerCanonical_set2 k val val.

(** A default-constructed kmer: the classes have no constructor, so the
    fields are indeterminate in C++; the embedding fixes them to zero and
    false.  Every field read by the code below is written beforehand, the
    validity flag of an extracted m-mer apart, which nothing reads. *)
Definition KmerDirect_uninit : KmerDirect := mkKmerDirect 0 false.
Definition KmerCanonical_uninit : KmerCanonical := mkKmerCanonical 0 0 0 false.

(** ** Decoders of nucleotides *)

(** [ConvertChar]: first is the nucleotide, second is 0 if valid, 1 if not. *)
Definition ConvertChar : Type := (Z * Z)%type.

(** [buffer[idx]]; the callers only read inside the buffer (reading past
    its end is undefined in C++; the embedding then reads 0). *)
Definition buffer_at (buffer : list Z) (idx : Z) : Z := nth (Z.to_nat idx) buffer 0.

Record Convert : Type := mkConvert { get : list Z -> Z -> ConvertChar }.

Definition ConvertASCII : Convert :=
  mkConvert (fun buffer idx =>
    (Z.land (Z.shiftr (buffer_at buffer idx) 1) 3,
     Z.land (Z.shiftr (buffer_at buffer idx) 3) 1)).

Definition ConvertInteger : Convert :=
  mkConvert (fun buffer idx => (buffer_at buffer idx, 0)).

Definition ConvertBinary : Convert :=
  mkConvert (fun buffer idx =>
    (Z.land (Z.shiftr (buffer_at buffer (Z.shiftr idx 2))
                      ((3 - Z.land idx 3) * 2)) 3, 0)).

(** [tools::misc::Data::Encoding_e] *)
Inductive Encoding_e : Type := ASCII | INTEGER | BINARY.

(** Modelled from the spec: class [Data] (tools/misc/api/Data.hpp) is not
    among the sources; a data object exposes its bytes, its number of
    nucleotides and its encoding. *)
Record Data : Type := mkData {
  getBuffer   : list Z;
  size        : Z;
  getEncoding : Encoding_e
}.

(** The bytes of a string literal. *)
Definition bytes_of_string (s : string) : list Z :=
  map (fun c => Z.of_nat (nat_of_ascii c)) (list_ascii_of_string s).

Definition Data_ascii (s : string) : Data :=
  mkData (bytes_of_string s) (Z.of_nat (String.length s)) ASCII.

(* --------------------------------------------------------------------- *)
(** ** [template <size_t span> struct Kmer]                               *)
(* --------------------------------------------------------------------- *)

Section Kmer.

Variable span : Z.

(** [typedef tools::math::LargeInt<(span+31)/32> Type] *)
Definition precision : Z := (span + 31) / 32.

(** Modelled from the spec: LargeInt.hpp is not among the sources.  A
    [Type] is an unsigned integer of [precision] limbs of 64 bits; bits
    falling off the top of a left shift, a sum or a product are dropped. *)
Definition Type_getSize : Z := 64 * precision.
Definition Type_wrap (x : Z) : Z := x mod 2 ^ Type_getSize.
Definition Type_shl (x n : Z) : Z := Type_wrap (Z.shiftl x n).
Definition Type_shr (x n : Z) : Z := Z.shiftr x n.
Definition Type_add (a b : Z) : Z := Type_wrap (a + b).
Definition Type_sub (a b : Z) : Z := Type_wrap (a - b).
Definition Type_mul (a b : Z) : Z := Type_wrap (a * b).
Definition Type_getVal (x : Z) : Z := u64 x.

(** *** class ModelAbstract *)

Record ModelAbstract : Type := mkModelAbstract {
  _kmerSize     : Z;
  _kmerMask     : Z;
  _revcompTable : list Z
}.

(** The constructor. *)
Definition ModelAbstract_new (sizeKmer : Z) : Exception + ModelAbstract :=
  if span <=? sizeKmer then inl (TooLowPrecision sizeKmer)
  else
    let un := 1 in
    let kmerMask := Type_sub (Type_shl un (sizeKmer * 2)) un in
    let shift := u64 (2 * (sizeKmer - 1)) in
    inr (mkModelAbstract sizeKmer kmerMask
           (map (fun i => Type_shl (comp_NT_at i) shift) [0; 1; 2; 3])).

Definition getSpan (model : ModelAbstract) : Z := span.
Definition getKmerSize (model : ModelAbstract) : Z := _kmerSize model.
Definition getKmerMax (model : ModelAbstract) : Z := _kmerMask model.

(** [reverse] *)
Definition reverse (model : ModelAbstract) (kmer : Z) : Z :=
  revcomp kmer (_kmerSize model).

(** [_revcompTable[c]] *)
Definition revcompTable_at (model : ModelAbstract) (c : Z) : Z :=
  nth (Z.to_nat c) (_revcompTable model) 0.

(** [polynom]: the loop [for (int i=0; i<_kmerSize; ++i)], with [n] the
    number of iterations left; returns the index of the last bad character
    (or -1) and the kmer. *)
Fixpoint polynom_loop (cv : Convert) (seq : list Z) (n : nat) (i : Z)
         (kmer : Z) (badIndex : Z) : Z * Z :=
  match n with
  | O => (badIndex, kmer)
  | S n' =>
      let c := get cv seq i in
      let kmer := Type_add (Type_shl kmer 2) (fst c) in
      let badIndex := if snd c =? 0 then badIndex else i in
      polynom_loop cv seq n' (i + 1) kmer badIndex
  end.

Definition polynom (model : ModelAbstract) (cv : Convert) (seq : list Z) : Z * Z :=
  polynom_loop cv seq (Z.to_nat (_kmerSize model)) 0 0 (-1).

(** *** Static polymorphism

    [ModelAbstract<ModelImpl, T>] calls [first] and [next] of its
    implementation through [static_cast<const ModelImpl*>]; the
    implementations are the instances of this class. *)
Class ModelImpl (M Kmer : Type) : Type := {
  impl_base   : M -> ModelAbstract;
  impl_uninit : Kmer;
  impl_first  : M -> Convert -> list Z -> Kmer -> Z * Kmer;
  impl_next   : M -> Z -> Kmer -> bool -> Kmer
}.

(** *** class ModelDirect *)

Record ModelDirect : Type := mkModelDirect { ModelDirect_base : ModelAbstract }.

Definition ModelDirect_new (kmerSize : Z) : Exception + ModelDirect :=
  try! base := ModelAbstract_new kmerSize in inr (mkModelDirect base).

Definition ModelDirect_first (model : ModelDirect) (cv : Convert) (buffer : list Z)
           (value : KmerDirect) : Z * KmerDirect :=
  let '(result, v) := polynom (ModelDirect_base model) cv buffer in
  (result, mkKmerDirect v (result <? 0)).

Definition ModelDirect_next (model : ModelDirect) (c : Z) (value : KmerDirect)
           (isValid : bool) : KmerDirect :=
  mkKmerDirect
    (Z.land (Type_add (Type_shl (KmerDirect_value value) 2) c)
            (_kmerMask (ModelDirect_base model)))
    isValid.

#[export] Instance ModelDirect_impl : ModelImpl ModelDirect KmerDirect := {
  impl_base   := ModelDirect_base;
  impl_uninit := KmerDirect_uninit;
  impl_first  := ModelDirect_first;
  impl_next   := ModelDirect_next
}.

(** *** class ModelCanonical *)

Record ModelCanonical : Type := mkModelCanonical { ModelCanonical_base : ModelAbstract }.

Definition ModelCanonical_new (kmerSize : Z) : Exception + ModelCanonical :=
  try! base := ModelAbstract_new kmerSize in inr (mkModelCanonical base).

Definition ModelCanonical_first (model : ModelCanonical) (cv : Convert) (seq : list Z)
           (value : KmerCanonical) : Z * KmerCanonical :=
  let '(result, fwd) := polynom (ModelCanonical_base model) cv seq in
  (result,
   updateChoice
     (mkKmerCanonical fwd (reverse (ModelCanonical_base model) fwd)
                      (choice value) (result <? 0))).

Definition ModelCanonical_next (model : ModelCanonical) (c : Z) (value : KmerCanonical)
           (isValid : bool) : KmerCanonical :=
  let base := ModelCanonical_base model in
  updateChoice
    (mkKmerCanonical
       (Z.land (Type_add (Type_shl (table0 value) 2) c) (_kmerMask base))
       (Z.land (Type_add (Type_shr (table1 value) 2) (revcompTable_at base c))
               (_kmerMask base))
       (choice value)
       isValid).

#[export] Instance ModelCanonical_impl : ModelImpl ModelCanonical KmerCanonical := {
  impl_base   := ModelCanonical_base;
  impl_uninit := KmerCanonical_uninit;
  impl_first  := ModelCanonical_first;
  impl_next   := ModelCanonical_next
}.

(** *** Methods of ModelAbstract that call the implementation *)

(** [execute]: switches to the decoder of the encoding.  ([Encoding_e] has
    the three values below; the [default:] branch of the source throws for
    an integer that is none of them.) *)
Definition execute {R : Type} (encoding : Encoding_e) (action : Convert -> R) : R :=
  match encoding with
  | ASCII   => action ConvertASCII
  | INTEGER => action ConvertInteger
  | BINARY  => action ConvertBinary
  end.

Section ModelAbstract_methods.

Context {M Kmer : Type} `{!ModelImpl M Kmer}.

(** A callback is a functor with a state of its own: it is embedded as a
    function that takes the kmer, its index and the state of the functor,
    and returns the new state. *)
Definition notification {St : Type} (value : Kmer) (idx : Z)
           (callback : Kmer -> Z -> St -> St) (st : St) : St :=
  callback value idx st.

(** The loop [for (size_t idx=_kmerSize; idx<length; idx++)] of [iterate];
    [n] is the number of iterations left.  [indexBadChar] is a C [int],
    whose overflow is undefined: it is kept as an integer without
    wrap-around.  It starts at [_kmerSize-1] at most and decreases by one
    per step, so the embedding is the code as long as the loop runs fewer
    than [2^31] steps; the properties of the kmers [iterate] delivers are
    stated for [length - _kmerSize + 1 < 2^31]. *)
Fixpoint iterate_loop {St : Type} (model : M) (cv : Convert) (seq : list Z)
         (callback : Kmer -> Z -> St -> St)
         (n : nat) (idx : Z) (indexBadChar : Z) (result : Kmer) (idxComputed : Z)
         (st : St) : St :=
  match n with
  | O => st
  | S n' =>
      let c := get cv seq idx in
      let indexBadChar :=
        if snd c =? 0 then indexBadChar - 1 else _kmerSize (impl_base model) - 1 in
      let result := impl_next model (fst c) result (indexBadChar <? 0) in
      let idxComputed := idxComputed + 1 in
      let st := notification result idxComputed callback st in
      iterate_loop model cv seq callback n' (idx + 1) indexBadChar result idxComputed st
  end.

(** [template<typename Callback, typename Convert> bool iterate (seq, length, callback)] *)
Definition ModelAbstract_iterate {St : Type} (model : M) (cv : Convert) (seq : list Z)
           (length : Z) (callback : Kmer -> Z -> St -> St) (st : St) : bool * St :=
  let nbKmers := int32 (u64 (length - _kmerSize (impl_base model) + 1)) in
  if nbKmers <=? 0 then (false, st)
  else
    let '(indexBadChar, result) := impl_first model cv seq impl_uninit in
    let idxComputed := 0 in
    let st := notification result idxComputed callback st in
    (true,
     iterate_loop model cv seq callback
                  (Z.to_nat (length - _kmerSize (impl_base model)))
                  (_kmerSize (impl_base model)) indexBadChar result idxComputed st).

(** [bool iterate (Data& data, Callback callback)] *)
Definition iterate {St : Type} (model : M) (data : Data)
           (callback : Kmer -> Z -> St -> St) (st : St) : bool * St :=
  execute (getEncoding data)
          (fun cv => ModelAbstract_iterate model cv (getBuffer data) (size data) callback st).

(** [codeSeed] *)
Definition codeSeed (model : M) (seq : list Z) (encoding : Encoding_e) : Kmer :=
  execute encoding (fun cv => snd (impl_first model cv seq impl_uninit)).

(** [codeSeedRight]: [Convert::get (&nucl, 0)], then [next] on a copy. *)
Definition codeSeedRight (model : M) (kmer : Kmer) (nucl : Z) (encoding : Encoding_e) : Kmer :=
  execute encoding
          (fun cv => let c := get cv [nucl] 0 in
                     impl_next model (fst c) kmer (snd c =? 0)).

(** [getKmer] *)
Definition getKmer (model : M) (data : Data) (idx : Z) : Kmer :=
  codeSeed model (drop (Z.to_nat idx) (getBuffer data)) (getEncoding data).

(** [BuildFunctor]: [kmersBuffer[idx] = kmer] *)
Definition BuildFunctor (kmer : Kmer) (idx : Z) (kmersBuffer : list Kmer) : list Kmer :=
  <[Z.to_nat idx := kmer]> kmersBuffer.

(** [build] *)
Definition build (model : M) (data : Data) (kmersBuffer : list Kmer) : bool * list Kmer :=
  let nbKmers := int32 (u64 (size data - getKmerSize (impl_base model) + 1)) in
  if nbKmers <=? 0 then (false, kmersBuffer)
  else
    let kmersBuffer := resize (Z.to_nat nbKmers) impl_uninit kmersBuffer in
    (true, snd (iterate model data BuildFunctor kmersBuffer)).

(** The callback that records what it is given, in order. *)
Definition record_callback (kmer : Kmer) (idx : Z) (log : list (Kmer * Z)) : list (Kmer * Z) :=
  log ++ [(kmer, idx)].

End ModelAbstract_methods.

(** *** class ModelAbstract::Iterator

    The iterator inherits the vector [_items] and its size [_nb] from
    [VectorIterator<Kmer>] and keeps a reference [_ref] to the model;
    [setData] fills the vector with [build]. *)

Section Iterator.

Context {M Kmer : Type} `{!ModelImpl M Kmer}.

Record Iterator : Type := mkIterator {
  _ref   : M;
  _items : list Kmer;
  _nb    : Z
}.

(** [setData]: [_ref.build (d, this->_items); this->_nb = this->_items.size();] *)
Definition setData (it : Iterator) (d : Data) : Iterator :=
  let items := snd (build (_ref it) d (_items it)) in
  mkIterator (_ref it) items (Z.of_nat (length items)).

End Iterator.

(** *** Neighbors *)

Section Neighbors.

Context {St : Type}.

(** [iterateOutgoingNeighbors] *)
Definition iterateOutgoingNeighbors (model : ModelAbstract) (source : Z)
           (fct : Z -> St -> St) (mask : Z) (st : St) : St :=
  fold_left
    (fun st nt =>
       if Z.land mask (Z.shiftl 1 nt) =? 0 then st
       else
         let next1 := Z.land (Type_add (Type_mul source 4) nt) (getKmerMax model) in
         let next2 := revcomp next1 (getKmerSize model) in
         fct (Z.min next1 next2) st)
    [0; 1; 2; 3] st.

(** [iterateIncomingNeighbors] *)
Definition iterateIncomingNeighbors (model : ModelAbstract) (source : Z)
           (fct : Z -> St -> St) (mask : Z) (st : St) : St :=
  let rev := revcomp source (getKmerSize model) in
  fold_left
    (fun st nt =>
       if Z.land mask (Z.shiftl 1 nt) =? 0 then st
       else
         let next1 := Z.land (Type_add (Type_mul rev 4) (Z.lxor nt 2)) (getKmerMax model) in
         let next2 := revcomp next1 (getKmerSize model) in
         fct (Z.min next1 next2) st)
    [0; 1; 2; 3] st.

(** [iterateNeighbors] *)
Definition iterateNeighbors (model : ModelAbstract) (source : Z)
           (fct : Z -> St -> St) (mask : Z) (st : St) : St :=
  let st := iterateOutgoingNeighbors model source fct (Z.land (Z.shiftr mask 0) 15) st in
  iterateIncomingNeighbors model source fct (Z.land (Z.shiftr mask 4) 15) st.

End Neighbors.

(** *** class KmerMinimizer<ModelCanonical, Comparator>

    The minimizer model is embedded over [ModelCanonical], the model
    [SuperKmer] uses; [KmerMinimizer] inherits from [KmerCanonical]. *)

Record KmerMinimizer : Type := mkKmerMinimizer {
  KmerMinimizer_base : KmerCanonical;
  _minimizer : KmerCanonical;
  _position  : Z;
  _changed   : bool
}.

Definition minimizer (k : KmerMinimizer) : KmerCanonical := _minimizer k.
Definition position (k : KmerMinimizer) : Z := _position k.
Definition hasChanged (k : KmerMinimizer) : bool := _changed k.

Definition KmerMinimizer_uninit : KmerMinimizer :=
  mkKmerMinimizer KmerCanonical_uninit KmerCanonical_uninit 0 false.

(** [KmerCanonical::extract] *)
Definition KmerCanonical_extract (k : KmerCanonical) (mask : Z) (size : Z)
           (mmer_lut : list Z) : KmerCanonical :=
  KmerCanonical_set KmerCanonical_uninit
    (nth (Z.to_nat (Type_getVal (Z.land (table0 k) mask))) mmer_lut 0).

(** [KmerCanonical::extractShift]: returns the extracted m-mer and the
    object it was called on, shifted. *)
Definition KmerCanonical_extractShift (k : KmerCanonical) (mask : Z) (size : Z)
           (mmer_lut : list Z) : KmerCanonical * KmerCanonical :=
  let output := KmerCanonical_extract k mask size mmer_lut in
  (output,
   updateChoice
     (mkKmerCanonical (Type_shr (table0 k) 2) (Type_shl (table1 k) 2)
                      (choice k) (KmerCanonical_isValid k))).

(** *** Comparators *)

Record Comparator : Type := mkComparator {
  cmp_init : ModelCanonical -> Z;
  cmp_call : Z -> Z -> bool
}.

(** [struct ComparatorMinimizer] *)
Definition ComparatorMinimizer : Comparator :=
  mkComparator (fun model => getKmerMax (ModelCanonical_base model))
               (fun current best => current <? best).

(** *** class ModelMinimizer<ModelCanonical, Comparator> *)

Record ModelMinimizer : Type := mkModelMinimizer {
  ModelMinimizer_base : ModelAbstract;
  _kmerModel        : ModelCanonical;
  _miniModel        : ModelCanonical;
  _cmp              : Comparator;
  _nbMinimizers     : Z;
  _mask             : Z;
  _mmer_lut         : list Z;
  _shift            : Z;
  _minimizerDefault : KmerCanonical
}.


(** [is_allowed (uint32_t mmer, uint32_t len)].  The shift [1 << ((len-2)*2)]
    is done on a C [int]: it is defined for a shift below 31, that is for
    [2 <= len <= 17]. *)
Definition is_allowed (mmer len : Z) : bool :=
  let _mmask_m1  := u64 (Z.shiftl 1 (u32 (u32 (len - 2) * 2)) - 1) in
  let _mask_0101 := 0x5555555555555555 in
  let _mask_ma1  := Z.land _mask_0101 _mmask_m1 in
  let a1 := mmer in
  let a1 := u64_not (Z.lor a1 (Z.shiftr a1 2)) in
  let a1 := Z.land (Z.land (Z.shiftr a1 1) a1) _mask_ma1 in
  if negb (a1 =? 0) then false else true.

(** The body of the loop that fills [_mmer_lut]. *)
Definition mmer_lut_entry (minimizerSize mask ii : Z) : Z :=
  let mmer := ii in
  let rev_mmer := revcomp mmer minimizerSize in
  let mmer := if rev_mmer <? mmer then rev_mmer else mmer in
  let mmer :=
    if negb (is_allowed (u32 (Type_getVal mmer)) (u32 minimizerSize)) then mask else mmer in
  mmer.

(** The constructor. *)
Definition ModelMinimizer_new (kmerSize minimizerSize : Z) (cmp : Comparator)
  : Exception + ModelMinimizer :=
  try! base := ModelAbstract_new kmerSize in
  try! kmerModel := ModelCanonical_new kmerSize in
  try! miniModel := ModelCanonical_new minimizerSize in
  if kmerSize <=? minimizerSize
  then inl (BadKmerMinimizerValues kmerSize minimizerSize)
  else
    let nbMinimizers :=
      u64 (getKmerSize (ModelCanonical_base kmerModel)
           - getKmerSize (ModelCanonical_base miniModel) + 1) in
    let mask := u64 (u64 (Z.shiftl 1 (2 * getKmerSize (ModelCanonical_base miniModel))) - 1) in
    let shift := u64 (2 * (nbMinimizers - 1)) in
    let tmp := cmp_init cmp miniModel in
    let minimizerDefault := KmerCanonical_set KmerCanonical_uninit tmp in
    let nbminims_total := u64 (Z.shiftl 1 (2 * getKmerSize (ModelCanonical_base miniModel))) in
    let mmer_lut :=
      map (fun ii => mmer_lut_entry minimizerSize mask (Z.of_nat ii))
          (seq 0 (Z.to_nat nbminims_total)) in
    inr (mkModelMinimizer base kmerModel miniModel cmp nbMinimizers mask mmer_lut
                          shift minimizerDefault).

(** The loop [for (int16_t idx=_nbMinimizers-1; idx>=0; idx--)] of
    [computeNewMinimizer]; [n] is the number of iterations left, [loop] the
    local copy the m-mers are peeled off, [kmer] the kmer given by the
    caller.  Both are returned. *)
Fixpoint computeNewMinimizer_loop (model : ModelMinimizer) (n : nat) (idx : Z)
         (loop kmer : KmerMinimizer) : KmerMinimizer * KmerMinimizer :=
  match n with
  | O => (loop, kmer)
  | S n' =>
      let '(mmer, shifted) :=
        KmerCanonical_extractShift (KmerMinimizer_base loop)
                                   (_mask model) (_shift model) (_mmer_lut model) in
      let loop := mkKmerMinimizer shifted (_minimizer loop) (_position loop) (_changed loop) in
      let kmer :=
        if cmp_call (_cmp model) (KmerCanonical_value mmer)
                    (KmerCanonical_value (_minimizer kmer))
        then mkKmerMinimizer (KmerMinimizer_base kmer) mmer idx (_changed kmer)
        else kmer in
      computeNewMinimizer_loop model n' (idx - 1) loop kmer
  end.

(** [computeNewMinimizer] *)
Definition computeNewMinimizer (model : ModelMinimizer) (kmer : KmerMinimizer)
  : KmerMinimizer :=
  let kmer := mkKmerMinimizer (KmerMinimizer_base kmer) (_minimizerDefault model) (-1) true in
  let loop := kmer in
  snd (computeNewMinimizer_loop model (Z.to_nat (_nbMinimizers model))
                                (_nbMinimizers model - 1) loop kmer).

(** [first] *)
Definition ModelMinimizer_first (model : ModelMinimizer) (cv : Convert) (seq : list Z)
           (kmer : KmerMinimizer) : Z * KmerMinimizer :=
  let '(result, b) := ModelCanonical_first (_kmerModel model) cv seq (KmerMinimizer_base kmer) in
  let kmer := mkKmerMinimizer b (_minimizer kmer) (_position kmer) (_changed kmer) in
  (result, computeNewMinimizer model kmer).

(** [next] *)
Definition ModelMinimizer_next (model : ModelMinimizer) (c : Z) (kmer : KmerMinimizer)
           (isValid : bool) : KmerMinimizer :=
  let b := ModelCanonical_next (_kmerModel model) c (KmerMinimizer_base kmer) isValid in
  let b := mkKmerCanonical (table0 b) (table1 b) (choice b) isValid in
  let mmer := KmerCanonical_extract b (_mask model) (_shift model) (_mmer_lut model) in
  let kmer := mkKmerMinimizer b (_minimizer kmer) (_position kmer - 1) false in
  if cmp_call (_cmp model) (KmerCanonical_value mmer) (KmerCanonical_value (_minimizer kmer))
  then mkKmerMinimizer b mmer (_nbMinimizers model - 1) true
  else if _position kmer <? 0 then computeNewMinimizer model kmer
  else kmer.

(** [getMinimizerValue] *)
Definition getMinimizerValue (model : ModelMinimizer) (k : Z) : Z :=
  let km := mkKmerMinimizer (KmerCanonical_set KmerCanonical_uninit k)
                            KmerCanonical_uninit 0 false in
  Type_getVal (KmerCanonical_value (minimizer (computeNewMinimizer model km))).

#[export] Instance ModelMinimizer_impl : ModelImpl ModelMinimizer KmerMinimizer := {
  impl_base   := ModelMinimizer_base;
  impl_uninit := KmerMinimizer_uninit;
  impl_first  := ModelMinimizer_first;
  impl_next   := ModelMinimizer_next
}.

(** *** class SuperKmer *)

Definition DEFAULT_MINIMIZER : Z := 1000000000.

(** [kmers] is a reference to a vector of the caller: [save] reads it and
    [load] writes into it, so [load] returns the object with the vector as
    it is after the call. *)
Record SuperKmer : Type := mkSuperKmer {
  SuperKmer_minimizer : Z;
  range    : Z * Z;
  kmerSize : Z;
  miniSize : Z;
  kmers    : list KmerMinimizer
}.

(** The constructor. *)
Definition SuperKmer_new (kmerSize miniSize : Z) (kmers : list KmerMinimizer) : SuperKmer :=
  match kmers with
  | [] =>
      let kmers := resize (Z.to_nat kmerSize) KmerMinimizer_uninit kmers in
      mkSuperKmer DEFAULT_MINIMIZER (0, u64 (Z.of_nat (length kmers) - 1))
                  kmerSize miniSize kmers
  | _ => mkSuperKmer DEFAULT_MINIMIZER (0, 0) kmerSize miniSize kmers
  end.

(** [operator[]]: [kmers[idx+range.first]] (an index outside the vector is
    undefined in C++; the embedding then reads a default kmer). *)
Definition SuperKmer_at (sk : SuperKmer) (idx : Z) : KmerMinimizer :=
  nth (Z.to_nat (u64 (idx + fst (range sk)))) (kmers sk) KmerMinimizer_uninit.

Definition SuperKmer_size (sk : SuperKmer) : Z :=
  u64 (snd (range sk) - fst (range sk) + 1).

Definition SuperKmer_isValid (sk : SuperKmer) : bool :=
  negb (SuperKmer_minimizer sk =? DEFAULT_MINIMIZER).

(** The loop [for (size_t ii=1 ; ii < superKmerLen; ii++)] of [save]. *)
Fixpoint save_loop (sk : SuperKmer) (n : nat) (ii : Z) (compactedK : Z) : Z :=
  match n with
  | O => compactedK
  | S n' =>
      let masknt := 3 in
      let compactedK := Type_shl compactedK 2 in
      let compactedK :=
        Z.lor compactedK
              (Z.land (KmerCanonical_forward (KmerMinimizer_base (SuperKmer_at sk ii))) masknt) in
      save_loop sk n' (ii + 1) compactedK
  end.

(** [save]: the bag is a sequence; [insert] appends to it. *)
Definition SuperKmer_save (sk : SuperKmer) (bag : list Z) : list Z :=
  let superKmerLen := SuperKmer_size sk in
  let zero := 0 in
  let nbK := Type_wrap (SuperKmer_size sk) in
  let compactedK := zero in
  let compactedK := save_loop sk (Z.to_nat (superKmerLen - 1)) 1 compactedK in
  let maxs := Type_getSize - 8 in
  let compactedK := Z.lor compactedK (Type_shl nbK maxs) in
  let bag := bag ++ [compactedK] in
  bag ++ [KmerCanonical_forward (KmerMinimizer_base (SuperKmer_at sk 0))].

(** The loop [for (int ii=0; ii<nbK; ii++,rem--)] of [load]; [n] is the
    number of iterations left.  [kmers[ii].set (rev_temp, temp)] writes the
    [KmerCanonical] part of the element. *)
Fixpoint load_loop (kmerMask shift superk : Z) (n : nat) (ii rem : Z)
         (temp rev_temp : Z) (kmers : list KmerMinimizer) : list KmerMinimizer :=
  match n with
  | O => kmers
  | S n' =>
      let mink := Z.min rev_temp temp in
      let kmers :=
        alter (fun k => mkKmerMinimizer
                          (KmerCanonical_set2 (KmerMinimizer_base k) rev_temp temp)
                          (_minimizer k) (_position k) (_changed k))
              (Z.to_nat ii) kmers in
      if rem <? 2 then kmers
      else
        let newnt := Z.land (Type_shr superk (2 * (rem - 2))) 3 in
        let temp := Z.land (Z.lor (Type_shl temp 2) newnt) kmerMask in
        let newnt := comp_NT_at (Type_getVal newnt) in
        let rev_temp := Z.land (Z.lor (Type_shr rev_temp 2) (Type_shl newnt shift)) kmerMask in
        load_loop kmerMask shift superk n' (ii + 1) (u8 (rem - 1)) temp rev_temp kmers
  end.

(** [load]: the iterator is the sequence of the items still to be read;
    [None] when it holds fewer than two. *)
Definition SuperKmer_load (sk : SuperKmer) (iter : list Z) : option SuperKmer :=
  match iter with
  | superk :: seedk :: _ =>
      let ks := kmerSize sk in
      let un := 1 in
      let _shift_val := Type_getSize - 8 in
      let kmerMask := Type_sub (Type_shl un (ks * 2)) un in
      let shift := u64 (2 * (ks - 1)) in
      let compactedK := superk in
      let nbK := u8 (Z.land (Type_getVal (Type_shr compactedK _shift_val)) 255) in
      let rem := nbK in
      let temp := seedk in
      let rev_temp := revcomp temp ks in
      Some (mkSuperKmer (SuperKmer_minimizer sk) (range sk) (kmerSize sk) (miniSize sk)
              (load_loop kmerMask shift superk (Z.to_nat nbK) 0 rem temp rev_temp (kmers sk)))
  | _ => None
  end.

(* --------------------------------------------------------------------- *)
(** ** Notions the statements are written with                            *)
(* --------------------------------------------------------------------- *)

(** The polynomial value of the [n] symbols from index [i] on: the word
    read as a number in base 4, most significant digit first. *)
Fixpoint polynomial_from (cv : Convert) (buffer : list Z) (n : nat) (i : Z) (acc : Z) : Z :=
  match n with
  | O => acc
  | S n' => polynomial_from cv buffer n' (i + 1) (4 * acc + fst (get cv buffer i))
  end.

Definition polynomial (cv : Convert) (buffer : list Z) (start K : Z) : Z :=
  polynomial_from cv buffer (Z.to_nat K) start 0.

(** No invalid symbol among the [K] symbols from index [start] on. *)
Definition window_valid (cv : Convert) (buffer : list Z) (start K : Z) : bool :=
  forallb (fun i => snd (get cv buffer i) =? 0) (seqZ start K).

(** The decoder gives a 2-bit code at every index below [len]. *)
Definition codes_in_range (cv : Convert) (buffer : list Z) (len : Z) : Prop :=
  forall i, 0 <= i < len -> 0 <= fst (get cv buffer i) < 4.

(** The decoder of an encoding, as [execute] selects it. *)
Definition convert_of (encoding : Encoding_e) : Convert :=
  execute encoding (fun cv => cv).

(** Canonical kmers produced by [first] or by a sequence of [next] steps
    fed with nucleotide codes. *)
Inductive ModelCanonical_produced (model : ModelCanonical) : KmerCanonical -> Prop :=
| produced_first : forall cv buffer k0,
    ModelCanonical_produced model (snd (ModelCanonical_first model cv buffer k0))
| produced_next : forall c k isValid,
    ModelCanonical_produced model k -> 0 <= c < 4 ->
    ModelCanonical_produced model (ModelCanonical_next model c k isValid).

(** The neighbors as the specification writes them, with the shifts and
    bitwise operations of unbounded integers. *)
Definition outgoing_neighbor (K source nt : Z) : Z :=
  let mask := 2 ^ (2 * K) - 1 in
  let next1 := Z.land (Z.lor (Z.shiftl source 2) nt) mask in
  Z.min next1 (revcomp next1 K).

Definition incoming_neighbor (K source nt : Z) : Z :=
  let mask := 2 ^ (2 * K) - 1 in
  let next1 := Z.land (Z.lor (Z.shiftl (revcomp source K) 2) (Z.lxor nt 2)) mask in
  Z.min next1 (revcomp next1 K).

(** [mmerLut[x]] *)
Definition mmerLut (model : ModelMinimizer) (x : Z) : Z :=
  nth (Z.to_nat x) (_mmer_lut model) 0.

(** The m-mer sizes the constructor of [ModelMinimizer] supports:
    [is_allowed] shifts by [2(m-2)], and the table has [4^m] entries that
    the constructor counts with an [int]. *)
Definition mmer_size_supported (m : Z) : Prop := 2 <= m <= 15.

(** Digit [i] of an m-mer: digit 0 is the last nucleotide, digit [m-1] the
    first (the top position). *)
Definition digit (x i : Z) : Z := Z.land (Z.shiftr x (2 * i)) 3.

(** "No two consecutive A's except possibly in the top two positions": no
    two adjacent digits [i], [i+1] are both A (code 0), the pair of the two
    top digits [m-2], [m-1] apart. *)
Definition no_AA_below_top (x m : Z) : bool :=
  forallb (fun i => negb ((digit x i =? 0) && (digit x (i + 1) =? 0))) (seqZ 0 (m - 2)).

(** The bit test as the specification writes it, on unbounded integers:
    [t = ~(mmer | (mmer >> 2)); t = ((t >> 1) & t) & masklow & 0x5555...5]
    with [masklow = (1 << 2(m-2)) - 1]. *)
Definition allowed_bit_test (mmer m : Z) : Z :=
  let masklow := Z.shiftl 1 (2 * (m - 2)) - 1 in
  let t := Z.lnot (Z.lor mmer (Z.shiftr mmer 2)) in
  Z.land (Z.land (Z.land (Z.shiftr t 1) t) masklow) 0x5555555555555555.

(** What the counter [indexBadChar] of [iterate] stands for, for the window
    of [K] symbols that starts at index [j]: it is negative when the window
    has no invalid symbol, and else the offset in the window of its last
    invalid symbol. *)
Definition counter_tracks (cv : Convert) (buffer : list Z) (j K b : Z) : Prop :=
  (b < 0 /\ forall i, j <= i < j + K -> snd (get cv buffer i) = 0) \/
  (0 <= b < K /\ snd (get cv buffer (j + b)) <> 0 /\
   forall i, j + b < i < j + K -> snd (get cv buffer i) = 0).

(** The direct kmer of the window of [K] symbols that starts at index [j]:
    its value is the polynomial of the window, and it is valid when the
    window has no invalid symbol. *)
Definition direct_kmer_at (cv : Convert) (buffer : list Z) (K j : Z) : KmerDirect :=
  mkKmerDirect (polynomial cv buffer j K) (window_valid cv buffer j K).

(** The m-mer of a kmer at shift index [i]:
    [mmerLut[(forward >> 2i) & mmerMask]].  Shift index 0 is the rightmost
    m-mer of the kmer, shift index [nbMinimizers-1] the leftmost. *)
Definition window_mmer (model : ModelMinimizer) (forward i : Z) : Z :=
  mmerLut model (Z.land (Z.shiftr forward (2 * i)) (_mask model)).

(** Kmers with a minimizer produced by [first] or by a sequence of [next]
    steps fed with nucleotide codes. *)
Inductive ModelMinimizer_produced (model : ModelMinimizer) : KmerMinimizer -> Prop :=
| minimizer_produced_first : forall cv buffer k0,
    ModelMinimizer_produced model (snd (ModelMinimizer_first model cv buffer k0))
| minimizer_produced_next : forall c k isValid,
    ModelMinimizer_produced model k -> 0 <= c < 4 ->
    ModelMinimizer_produced model (ModelMinimizer_next model c k isValid).

(** The state of the loop of [computeNewMinimizer] once the m-mers at the
    shift indices below [j] were seen: [v] is the value of the minimizer so
    far and [p] its position. *)
Definition scan_state (model : ModelMinimizer) (forward j v p : Z) : Prop :=
  let nb := _nbMinimizers model in
  v <= _mask model /\
  (forall i, 0 <= i < j -> v <= window_mmer model forward i) /\
  ((p = -1 /\ v = _mask model) \/
   (nb - j <= p < nb /\ v < _mask model /\
    window_mmer model forward (nb - 1 - p) = v /\
    forall i, 0 <= i < nb - 1 - p -> v < window_mmer model forward i)).

(** What every kmer with a minimizer satisfies: its minimizer is a lower
    bound of the m-mers of the window, and its position is -1 with the
    sentinel as minimizer, or the position of an m-mer that has the value
    of the minimizer (position [p] is shift index [nbMinimizers-1-p]). *)
Definition minimizer_elected (model : ModelMinimizer) (k : KmerMinimizer) : Prop :=
  let nb := _nbMinimizers model in
  let forward := KmerCanonical_forward (KmerMinimizer_base k) in
  let v := KmerCanonical_value (minimizer k) in
  v <= _mask model /\
  (forall i, 0 <= i < nb -> v <= window_mmer model forward i) /\
  ((position k = -1 /\ v = _mask model) \/
   (0 <= position k < nb /\ v < _mask model /\
    window_mmer model forward (nb - 1 - position k) = v)).

(** A chain of forward values: each is the one before slid by one
    nucleotide. *)
Fixpoint forward_chain (K f : Z) (fs : list Z) : Prop :=
  match fs with
  | [] => True
  | f' :: fs' => (exists c, 0 <= c < 4 /\ f' = (4 * f + c) mod 4 ^ K) /\ forward_chain K f' fs'
  end.

(** A chain of kmers: each is [next] of the one before, for some
    nucleotide. *)
Fixpoint kmers_chain (model : ModelMinimizer) (k : KmerMinimizer)
         (ks : list KmerMinimizer) : Prop :=
  match ks with
  | [] => True
  | k' :: ks' =>
      (exists c isValid, 0 <= c < 4 /\ k' = ModelMinimizer_next model c k isValid) /\
      kmers_chain model k' ks'
  end.

(** A run of consecutive kmers of a sequence: a kmer the model produced,
    followed by its successors. *)
Definition consecutive_run (model : ModelMinimizer) (ks : list KmerMinimizer) : Prop :=
  match ks with
  | [] => False
  | k :: ks' => ModelMinimizer_produced model k /\ kmers_chain model k ks'
  end.

(** The kmers [sk[0]], ..., [sk[size()-1]] of a super kmer. *)
Definition SuperKmer_run (sk : SuperKmer) : list KmerMinimizer :=
  map (SuperKmer_at sk) (seqZ 0 (SuperKmer_size sk)).

(** What [kmers[ii].set (rev_temp, temp)] makes of an element. *)
Definition stored (rev_temp temp : Z) (k : KmerMinimizer) : KmerMinimizer :=
  mkKmerMinimizer (KmerCanonical_set2 (KmerMinimizer_base k) rev_temp temp)
                  (_minimizer k) (_position k) (_changed k).

(** The two strands of a canonical kmer of size [K], with the choice
    [updateChoice] makes. *)
Definition canonical_pair (K : Z) (b : KmerCanonical) : Prop :=
  table1 b = revcomp (table0 b) K /\
  choice b = (if table0 b <? table1 b then 0 else 1).

(** The canonical kmer of the window of [K] symbols that starts at index
    [j]: the forward strand is the polynomial of the window, the other
    strand its reverse complement, the choice the one of [updateChoice]. *)
Definition canonical_kmer_at (cv : Convert) (buffer : list Z) (K j : Z) : KmerCanonical :=
  let fwd := polynomial cv buffer j K in
  mkKmerCanonical fwd (revcomp fwd K) (if fwd <? revcomp fwd K then 0 else 1)
                  (window_valid cv buffer j K).

(** The functor that records the neighbors it is given, in order. *)
Definition record_neighbor (x : Z) (log : list Z) : list Z := log ++ [x].

(** The canonical form of a word of [K] nucleotides. *)
Definition canonical (K x : Z) : Z := Z.min x (revcomp x K).

(** The reverse complement of a sequence of nucleotide codes: the codes in
    reverse order, each complemented. *)
Definition revcomp_codes (l : list Z) : list Z := rev (map (fun c => Z.lxor c 2) l).

(** The number a sequence of bytes writes in base 256, first byte first. *)
Definition bytes_value (l : list Z) : Z := fold_left (fun acc b => 256 * acc + b) l 0.

(** The m-mer of a kmer at shift index [i], before the table is looked up. *)
Definition mmer_at (model : ModelMinimizer) (forward i : Z) : Z :=
  Z.land (Z.shiftr forward (2 * i)) (_mask model).

(** The count [load] reads in the 8 top bits of the first word. *)
Definition SuperKmer_count (superk : Z) : Z :=
  u8 (Z.land (Type_getVal (Type_shr superk (Type_getSize - 8))) 255).

(** The forward strand of a canonical kmer, as a direct kmer. *)
Definition forward_kmer (k : KmerCanonical) : KmerDirect :=
  mkKmerDirect (KmerCanonical_forward k) (KmerCanonical_isValid k).

(* -- end of Part I -- *)

(* ===================================================================== *)
(** * Part II.  Properties                                                *)
(* ===================================================================== *)

(** ** Arithmetic of 2-bit digits *)

Lemma pow4_pos (n : Z) : 0 <= n -> 0 < 4 ^ n.
Proof. intros; apply Z.pow_pos_nonneg; lia. Qed.

Lemma pow4_as_pow2 (n : Z) : 0 <= n -> 2 ^ (2 * n) = 4 ^ n.
Proof. intros; rewrite Z.pow_mul_r by lia; reflexivity. Qed.

Lemma pow4_succ (n : Z) : 0 <= n -> 4 ^ (n + 1) = 4 * 4 ^ n.
Proof. intros; rewrite Z.pow_add_r by lia; lia. Qed.

Lemma land3_mod4 (x : Z) : Z.land x 3 = x mod 4.
Proof. change 3 with (Z.ones 2); rewrite Z.land_ones by lia; reflexivity. Qed.

Lemma shiftr2_div4 (x : Z) : Z.shiftr x 2 = x / 4.
Proof. rewrite Z.shiftr_div_pow2 by lia; reflexivity. Qed.

Lemma shiftl2_mul4 (x : Z) : Z.shiftl x 2 = 4 * x.
Proof. rewrite Z.shiftl_mul_pow2 by lia; change (2 ^ 2) with 4; lia. Qed.

Lemma land_mask_mod (x n : Z) : 0 <= n -> Z.land x (2 ^ (2 * n) - 1) = x mod 4 ^ n.
Proof.
  intros Hn. rewrite <- pow4_as_pow2 by lia.
  replace (2 ^ (2 * n) - 1) with (Z.ones (2 * n)) by (rewrite Z.ones_equiv; lia).
  apply Z.land_ones; lia.
Qed.

Lemma mod4_add (q d : Z) : 0 <= d < 4 -> (4 * q + d) mod 4 = d.
Proof. intros; Z.div_mod_to_equations; lia. Qed.

Lemma div4_add (q d : Z) : 0 <= d < 4 -> (4 * q + d) / 4 = q.
Proof. intros; Z.div_mod_to_equations; lia. Qed.

(** A code of two bits has one of four values. *)
Lemma code_cases (c : Z) : 0 <= c < 4 -> c = 0 \/ c = 1 \/ c = 2 \/ c = 3.
Proof. lia. Qed.

Lemma complement_arith (d : Z) : 0 <= d < 4 -> Z.lxor d 2 = (d + 2) mod 4.
Proof. intros H; destruct (code_cases d H) as [-> | [-> | [-> | ->]]]; reflexivity. Qed.

Lemma complement_range (d : Z) : 0 <= d < 4 -> 0 <= Z.lxor d 2 < 4.
Proof. intros H; rewrite complement_arith by exact H; apply Z.mod_pos_bound; lia. Qed.

Lemma complement_involutive (d : Z) : Z.lxor (Z.lxor d 2) 2 = d.
Proof. rewrite Z.lxor_assoc, Z.lxor_nilpotent, Z.lxor_0_r; reflexivity. Qed.

Lemma comp_NT_at_lxor (d : Z) : 0 <= d < 4 -> comp_NT_at d = Z.lxor d 2.
Proof. intros H; destruct (code_cases d H) as [-> | [-> | [-> | ->]]]; reflexivity. Qed.

(** Bitwise or of two numbers without a common bit is their sum. *)
Lemma lor_disjoint_add (a b : Z) : Z.land a b = 0 -> Z.lor a b = a + b.
Proof. intros H; rewrite Z.add_nocarry_lxor, Z.lxor_lor by exact H; reflexivity. Qed.

Lemma land_low_high (a b n : Z) :
  0 <= n -> 0 <= a < 2 ^ n -> Z.land a (b * 2 ^ n) = 0.
Proof.
  intros Hn Ha. apply Z.bits_inj'; intros i Hi.
  rewrite Z.land_spec, Z.bits_0.
  destruct (Z_lt_le_dec i n) as [Hlt | Hge].
  - rewrite Z.mul_pow2_bits_low by lia. apply andb_false_r.
  - rewrite <- (Z.mod_small a (2 ^ n)) by lia.
    rewrite Z.mod_pow2_bits_high by lia. reflexivity.
Qed.

Lemma lor_shift_code (x c : Z) : 0 <= c < 4 -> Z.lor (4 * x) c = 4 * x + c.
Proof.
  intros Hc. rewrite Z.lor_comm, lor_disjoint_add; [lia |].
  replace (4 * x) with (x * 2 ^ 2) by lia.
  apply land_low_high; simpl; lia.
Qed.

(** ** Reverse complement *)

Lemma revcomp_digits_succ (n : nat) (x : Z) :
  revcomp_digits (S n) x
  = Z.lxor (x mod 4) 2 * 4 ^ Z.of_nat n + revcomp_digits n (x / 4).
Proof. simpl revcomp_digits. rewrite land3_mod4, shiftr2_div4. reflexivity. Qed.

Lemma revcomp_digits_range (n : nat) : forall x, 0 <= revcomp_digits n x < 4 ^ Z.of_nat n.
Proof.
  induction n as [| n IH]; intros x.
  - simpl; lia.
  - rewrite revcomp_digits_succ. specialize (IH (x / 4)).
    assert (Hd : 0 <= Z.lxor (x mod 4) 2 < 4)
      by (apply complement_range, Z.mod_pos_bound; lia).
    rewrite Nat2Z.inj_succ, <- Z.add_1_r, pow4_succ by lia. nia.
Qed.

(** Peeling the most significant digit instead of the least significant. *)
Lemma revcomp_digits_top (n : nat) : forall x,
  revcomp_digits (S n) x
  = 4 * revcomp_digits n x + Z.lxor ((x / 4 ^ Z.of_nat n) mod 4) 2.
Proof.
  induction n as [| n IH]; intros x.
  - rewrite revcomp_digits_succ. simpl. rewrite Z.div_1_r. lia.
  - rewrite revcomp_digits_succ, (IH (x / 4)), (revcomp_digits_succ n x).
    rewrite Z.div_div by lia.
    rewrite (Nat2Z.inj_succ n), <- Z.add_1_r, pow4_succ by lia. lia.
Qed.

Lemma revcomp_digits_mod (n : nat) : forall x,
  revcomp_digits n (x mod 4 ^ Z.of_nat n) = revcomp_digits n x.
Proof.
  induction n as [| n IH]; intros x.
  - reflexivity.
  - rewrite !revcomp_digits_succ.
    rewrite Nat2Z.inj_succ, <- Z.add_1_r, pow4_succ by lia.
    assert (H4 : 0 < 4 ^ Z.of_nat n) by (apply pow4_pos; lia).
    replace ((x mod (4 * 4 ^ Z.of_nat n)) mod 4) with (x mod 4)
      by (symmetry; apply Z.mod_mod_divide; exists (4 ^ Z.of_nat n); lia).
    replace ((x mod (4 * 4 ^ Z.of_nat n)) / 4) with ((x / 4) mod 4 ^ Z.of_nat n).
    + rewrite IH. reflexivity.
    + rewrite Z.rem_mul_r by lia.
      rewrite (Z.mul_comm 4), Z.div_add by lia.
      rewrite (Z.div_small (x mod 4)) by (apply Z.mod_pos_bound; lia). lia.
Qed.

Lemma revcomp_digits_involutive (n : nat) : forall x,
  revcomp_digits n (revcomp_digits n x) = x mod 4 ^ Z.of_nat n.
Proof.
  induction n as [| n IH]; intros x.
  - simpl. rewrite Z.mod_1_r. reflexivity.
  - rewrite revcomp_digits_succ, (revcomp_digits_top n x).
    assert (H4 : 0 < 4 ^ Z.of_nat n) by (apply pow4_pos; lia).
    assert (Hd : 0 <= Z.lxor ((x / 4 ^ Z.of_nat n) mod 4) 2 < 4)
      by (apply complement_range, Z.mod_pos_bound; lia).
    rewrite mod4_add, div4_add by exact Hd.
    rewrite complement_involutive, IH.
    rewrite Nat2Z.inj_succ, <- Z.add_1_r, pow4_succ by lia.
    rewrite (Z.mul_comm 4 (4 ^ Z.of_nat n)), Z.rem_mul_r by lia. lia.
Qed.

(** Sliding a word by one nucleotide [c]: the reverse complement loses its
    lowest digit and gains the complement of [c] as its highest. *)
Lemma revcomp_digits_slide (n : nat) (x c : Z) :
  0 <= c < 4 ->
  revcomp_digits (S n) ((4 * x + c) mod 4 ^ Z.of_nat (S n))
  = revcomp_digits (S n) x / 4 + Z.lxor c 2 * 4 ^ Z.of_nat n.
Proof.
  intros Hc. rewrite revcomp_digits_mod, revcomp_digits_succ.
  rewrite mod4_add, div4_add by exact Hc.
  rewrite (revcomp_digits_top n x).
  assert (Hd : 0 <= Z.lxor ((x / 4 ^ Z.of_nat n) mod 4) 2 < 4)
    by (apply complement_range, Z.mod_pos_bound; lia).
  rewrite div4_add by exact Hd. lia.
Qed.

Lemma revcomp_range (x K : Z) : 0 <= K -> 0 <= revcomp x K < 4 ^ K.
Proof.
  intros HK. unfold revcomp.
  pose proof (revcomp_digits_range (Z.to_nat K) x) as H.
  rewrite Z2Nat.id in H by lia. exact H.
Qed.

Lemma revcomp_involutive (x K : Z) :
  0 <= K -> 0 <= x < 4 ^ K -> revcomp (revcomp x K) K = x.
Proof.
  intros HK Hx. unfold revcomp. rewrite revcomp_digits_involutive.
  rewrite Z2Nat.id by lia. apply Z.mod_small; lia.
Qed.

Lemma revcomp_mod (x K : Z) : 0 <= K -> revcomp (x mod 4 ^ K) K = revcomp x K.
Proof.
  intros HK. unfold revcomp.
  pose proof (revcomp_digits_mod (Z.to_nat K) x) as H.
  rewrite Z2Nat.id in H by lia. exact H.
Qed.

Lemma revcomp_slide (x c K : Z) :
  1 <= K -> 0 <= c < 4 ->
  revcomp ((4 * x + c) mod 4 ^ K) K = revcomp x K / 4 + Z.lxor c 2 * 4 ^ (K - 1).
Proof.
  intros HK Hc. unfold revcomp.
  replace (Z.to_nat K) with (S (Z.to_nat (K - 1))) by lia.
  replace (4 ^ K) with (4 ^ Z.of_nat (S (Z.to_nat (K - 1))))
    by (f_equal; lia).
  rewrite revcomp_digits_slide by lia.
  rewrite Z2Nat.id by lia. reflexivity.
Qed.

(** ** The integer type of kmers *)

(** [span] is a template parameter of type [size_t]; the library
    instantiates it with 32, 64, 96 and 128.  The proofs need no more than
    this bound, under which no size computed from a kmer size wraps. *)
Hypothesis span_fits : span < 2 ^ 32.

Lemma Type_getSize_bound (K : Z) : 0 <= K < span -> 2 * K + 2 <= Type_getSize.
Proof.
  intros HK. unfold Type_getSize, precision. Z.div_mod_to_equations. lia.
Qed.

Lemma Type_wrap_small (x : Z) : 0 <= x < 2 ^ Type_getSize -> Type_wrap x = x.
Proof. intros; unfold Type_wrap; apply Z.mod_small; lia. Qed.

Lemma pow4_lt_Type (K : Z) : 0 <= K < span -> 4 * 4 ^ K <= 2 ^ Type_getSize.
Proof.
  intros HK. pose proof (Type_getSize_bound K HK) as Hb.
  rewrite <- pow4_succ, <- pow4_as_pow2 by lia.
  apply Z.pow_le_mono_r; lia.
Qed.

Lemma pow4_divides_Type (K : Z) : 0 <= K < span -> (4 ^ K | 2 ^ Type_getSize).
Proof.
  intros HK. pose proof (Type_getSize_bound K HK) as Hb.
  exists (2 ^ (Type_getSize - 2 * K)).
  rewrite <- pow4_as_pow2, <- Z.pow_add_r by lia. f_equal. lia.
Qed.

Lemma Type_wrap_mod_pow4 (K x : Z) : 0 <= K < span -> Type_wrap x mod 4 ^ K = x mod 4 ^ K.
Proof. intros HK. unfold Type_wrap. apply Z.mod_mod_divide, pow4_divides_Type, HK. Qed.

Lemma kmerMask_value (K : Z) :
  0 <= K < span -> Type_sub (Type_shl 1 (K * 2)) 1 = 2 ^ (2 * K) - 1.
Proof.
  intros HK. pose proof (pow4_lt_Type K HK) as Hb. pose proof (pow4_pos K) as Hp.
  unfold Type_sub, Type_shl. rewrite Z.shiftl_mul_pow2, Z.mul_1_l by lia.
  rewrite (Z.mul_comm K 2), pow4_as_pow2 by lia.
  rewrite (Type_wrap_small (4 ^ K)) by lia. apply Type_wrap_small. lia.
Qed.

(** The sliding step on the forward strand, as arithmetic. *)
Lemma slide_forward (K f c : Z) :
  0 <= K < span ->
  Z.land (Type_add (Type_shl f 2) c) (2 ^ (2 * K) - 1) = (4 * f + c) mod 4 ^ K.
Proof.
  intros HK. rewrite land_mask_mod by lia.
  unfold Type_add. rewrite Type_wrap_mod_pow4 by exact HK.
  unfold Type_shl. rewrite shiftl2_mul4.
  rewrite <- Zplus_mod_idemp_l, Type_wrap_mod_pow4, Zplus_mod_idemp_l by exact HK.
  reflexivity.
Qed.

(** ** Constructors *)

Lemma ModelAbstract_new_inr (K : Z) (model : ModelAbstract) :
  ModelAbstract_new K = inr model ->
  K < span /\
  model = mkModelAbstract K (Type_sub (Type_shl 1 (K * 2)) 1)
            (map (fun i => Type_shl (comp_NT_at i) (u64 (2 * (K - 1)))) [0; 1; 2; 3]).
Proof.
  unfold ModelAbstract_new. destruct (span <=? K) eqn:E; intros H; [discriminate |].
  apply Z.leb_gt in E. inversion H. split; [exact E | reflexivity].
Qed.

Lemma ModelCanonical_new_inr (K : Z) (model : ModelCanonical) :
  ModelCanonical_new K = inr model ->
  K < span /\
  model = mkModelCanonical
            (mkModelAbstract K (Type_sub (Type_shl 1 (K * 2)) 1)
               (map (fun i => Type_shl (comp_NT_at i) (u64 (2 * (K - 1)))) [0; 1; 2; 3])).
Proof.
  unfold ModelCanonical_new, bind. destruct (ModelAbstract_new K) as [e | base] eqn:E;
    intros H; [discriminate |].
  apply ModelAbstract_new_inr in E as [HK ->]. inversion H. split; [exact HK | reflexivity].
Qed.

Lemma ModelDirect_new_inr (K : Z) (model : ModelDirect) :
  ModelDirect_new K = inr model ->
  K < span /\
  model = mkModelDirect
            (mkModelAbstract K (Type_sub (Type_shl 1 (K * 2)) 1)
               (map (fun i => Type_shl (comp_NT_at i) (u64 (2 * (K - 1)))) [0; 1; 2; 3])).
Proof.
  unfold ModelDirect_new, bind. destruct (ModelAbstract_new K) as [e | base] eqn:E;
    intros H; [discriminate |].
  apply ModelAbstract_new_inr in E as [HK ->]. inversion H. split; [exact HK | reflexivity].
Qed.

(** The complement of [c] as the highest digit of a kmer. *)
Lemma complement_shifted (K c : Z) :
  1 <= K < span -> 0 <= c < 4 ->
  Type_shl (comp_NT_at c) (u64 (2 * (K - 1))) = Z.lxor c 2 * 4 ^ (K - 1).
Proof.
  intros HK Hc.
  assert (Hs : u64 (2 * (K - 1)) = 2 * (K - 1))
    by (unfold u64; apply Z.mod_small; lia).
  rewrite Hs, comp_NT_at_lxor by exact Hc.
  unfold Type_shl. rewrite Z.shiftl_mul_pow2, pow4_as_pow2 by lia.
  apply Type_wrap_small.
  pose proof (complement_range c Hc). pose proof (pow4_pos (K - 1)).
  pose proof (pow4_lt_Type (K - 1)). nia.
Qed.

(** [_revcompTable[c]] is the complement of [c] as the highest digit. *)
Lemma revcompTable_entry (K c : Z) :
  1 <= K < span -> 0 <= c < 4 ->
  nth (Z.to_nat c)
      (map (fun i => Type_shl (comp_NT_at i) (u64 (2 * (K - 1)))) [0; 1; 2; 3]) 0
  = Z.lxor c 2 * 4 ^ (K - 1).
Proof.
  intros HK Hc. rewrite <- (complement_shifted K c HK Hc).
  destruct (code_cases c Hc) as [-> | [-> | [-> | ->]]]; reflexivity.
Qed.

(** ** Canonical kmers *)

Lemma updateChoice_choice (k : KmerCanonical) :
  choice (updateChoice k) = 0 <-> table0 k < table1 k.
Proof.
  unfold updateChoice; simpl. destruct (table0 k <? table1 k) eqn:E.
  - apply Z.ltb_lt in E. tauto.
  - apply Z.ltb_ge in E. split; [discriminate | lia].
Qed.

Lemma updateChoice_value (k : KmerCanonical) :
  KmerCanonical_value (updateChoice k) = Z.min (table0 k) (table1 k).
Proof.
  unfold KmerCanonical_value, updateChoice; simpl.
  destruct (table0 k <? table1 k) eqn:E; simpl.
  - apply Z.ltb_lt in E. lia.
  - apply Z.ltb_ge in E. lia.
Qed.

Lemma updateChoice_tables (k : KmerCanonical) :
  table0 (updateChoice k) = table0 k /\ table1 (updateChoice k) = table1 k.
Proof. split; reflexivity. Qed.

(** Every canonical kmer the code builds went through [updateChoice] last. *)
Lemma ModelCanonical_produced_updated (model : ModelCanonical) (k : KmerCanonical) :
  ModelCanonical_produced model k -> exists k', k = updateChoice k'.
Proof.
  intros [cv buffer k0 | c k1 v _ _].
  - unfold ModelCanonical_first. destruct (polynom _ cv buffer) as [r f]. simpl. eauto.
  - unfold ModelCanonical_next. eauto.
Qed.

Lemma ModelCanonical_next_tables (K c : Z) (model : ModelCanonical) (k : KmerCanonical)
      (v : bool) :
  1 <= K -> ModelCanonical_new K = inr model -> 0 <= c < 4 ->
  table1 k = revcomp (table0 k) K ->
  table0 (ModelCanonical_next model c k v) = (4 * table0 k + c) mod 4 ^ K /\
  table1 (ModelCanonical_next model c k v)
  = revcomp ((4 * table0 k + c) mod 4 ^ K) K.
Proof.
  intros HK Hnew Hc Hrc. apply ModelCanonical_new_inr in Hnew as [Hs ->].
  unfold ModelCanonical_next, revcompTable_at, updateChoice.
  cbn [ModelCanonical_base _kmerMask _revcompTable table0 table1].
  rewrite revcompTable_entry, kmerMask_value by lia.
  rewrite slide_forward by lia. split; [reflexivity |].
  rewrite revcomp_slide, land_mask_mod by lia.
  unfold Type_add, Type_shr. rewrite shiftr2_div4, Hrc.
  pose proof (revcomp_range (table0 k) K ltac:(lia)) as Hr.
  pose proof (complement_range c Hc) as Hd.
  pose proof (pow4_pos (K - 1) ltac:(lia)) as Hp.
  pose proof (pow4_lt_Type K ltac:(lia)) as Hb.
  assert (H4 : 4 ^ K = 4 * 4 ^ (K - 1))
    by (rewrite <- pow4_succ by lia; f_equal; lia).
  assert (Hq : 0 <= revcomp (table0 k) K / 4 < 4 ^ (K - 1))
    by (split; [apply Z.div_pos; lia | apply Z.div_lt_upper_bound; lia]).
  rewrite Type_wrap_small by nia. apply Z.mod_small. nia.
Qed.

Lemma ModelCanonical_produced_revcomp (K : Z) (model : ModelCanonical) (k : KmerCanonical) :
  1 <= K -> ModelCanonical_new K = inr model ->
  ModelCanonical_produced model k -> table1 k = revcomp (table0 k) K.
Proof.
  intros HK Hnew Hp. induction Hp as [cv buffer k0 | c k v Hk IH Hc].
  - apply ModelCanonical_new_inr in Hnew as [Hs ->].
    unfold ModelCanonical_first. destruct (polynom _ cv buffer) as [r f]. reflexivity.
  - destruct (ModelCanonical_next_tables K c model k v HK Hnew Hc IH) as [-> ->].
    reflexivity.
Qed.

(** C3 (as amended).  For every canonical kmer produced by [first] or by a
    sequence of [next] steps, [revcomp] is the reverse complement of
    [forward]; for these and for every kmer written by [set],
    [choice == 0] exactly when [forward < revcomp] (strictly: on equal
    strands [choice] is 1) and [value()] is the minimum of the two. *)
Theorem canonical_choice_value (K : Z) (model : ModelCanonical) :
  1 <= K -> ModelCanonical_new K = inr model ->
  (forall k, ModelCanonical_produced model k ->
     KmerCanonical_revcomp k = revcomp (KmerCanonical_forward k) K /\
     (choice k = 0 <-> KmerCanonical_forward k < KmerCanonical_revcomp k) /\
     KmerCanonical_value k = Z.min (KmerCanonical_forward k) (KmerCanonical_revcomp k)) /\
  (forall k0 fwd rev,
     let k := KmerCanonical_set2 k0 fwd rev in
     KmerCanonical_forward k = fwd /\ KmerCanonical_revcomp k = rev /\
     (choice k = 0 <-> fwd < rev) /\
     KmerCanonical_value k = Z.min fwd rev).
Proof.
  intros HK Hnew. split.
  - intros k Hk. unfold KmerCanonical_forward, KmerCanonical_revcomp.
    split; [apply (ModelCanonical_produced_revcomp K model k HK Hnew Hk) |].
    destruct (ModelCanonical_produced_updated model k Hk) as [k' ->].
    split; [exact (updateChoice_choice k') | exact (updateChoice_value k')].
  - intros k0 fwd rev k. unfold k, KmerCanonical_set2.
    unfold KmerCanonical_forward, KmerCanonical_revcomp.
    split; [reflexivity | split; [reflexivity |]].
    split; [exact (updateChoice_choice _) | exact (updateChoice_value _)].
Qed.

(** ** Neighbors *)

Lemma neighbor_word (K s c : Z) :
  0 <= K < span -> 0 <= c < 4 ->
  Z.land (Type_add (Type_mul s 4) c) (2 ^ (2 * K) - 1)
  = Z.land (Z.lor (Z.shiftl s 2) c) (2 ^ (2 * K) - 1).
Proof.
  intros HK Hc. rewrite !land_mask_mod by lia.
  rewrite shiftl2_mul4, lor_shift_code by exact Hc.
  unfold Type_add, Type_mul. rewrite Type_wrap_mod_pow4 by exact HK.
  rewrite <- Zplus_mod_idemp_l, Type_wrap_mod_pow4, Zplus_mod_idemp_l by exact HK.
  f_equal. lia.
Qed.

(** C6.  [iterateNeighbors (source, fct, 0xFF)] calls the functor exactly
    eight times: on the four outgoing neighbors for [nt = 0..3] in that
    order, then on the four incoming ones for [nt = 0..3], each being the
    smaller of [next1] and its reverse complement, with
    [next1 = ((source << 2) | nt) & mask] for the outgoing ones and
    [next1 = ((RC(source) << 2) | (nt ^ 2)) & mask] for the incoming ones. *)
Theorem iterateNeighbors_all (K : Z) (model : ModelAbstract) (source : Z)
        (St : Type) (fct : Z -> St -> St) (st : St) :
  0 <= K -> ModelAbstract_new K = inr model ->
  let calls := map (outgoing_neighbor K source) [0; 1; 2; 3]
               ++ map (incoming_neighbor K source) [0; 1; 2; 3] in
  iterateNeighbors model source fct 0xFF st = fold_left (fun st x => fct x st) calls st
  /\ length calls = 8%nat.
Proof.
  intros HK Hnew calls. split; [| reflexivity].
  apply ModelAbstract_new_inr in Hnew as [Hs ->].
  unfold calls, iterateNeighbors, iterateOutgoingNeighbors, iterateIncomingNeighbors,
    outgoing_neighbor, incoming_neighbor, getKmerMax, getKmerSize.
  cbn [_kmerMask _kmerSize map app fold_left].
  change (Z.land (Z.shiftr 255 0) 15) with 15.
  change (Z.land (Z.shiftr 255 4) 15) with 15.
  change (Z.land 15 (Z.shiftl 1 0) =? 0) with false.
  change (Z.land 15 (Z.shiftl 1 1) =? 0) with false.
  change (Z.land 15 (Z.shiftl 1 2) =? 0) with false.
  change (Z.land 15 (Z.shiftl 1 3) =? 0) with false.
  cbv iota. rewrite kmerMask_value by lia.
  rewrite !neighbor_word by (try apply complement_range; lia).
  reflexivity.
Qed.

(** ** The minimizer model: constructor and lookup table *)

Lemma u64_pow4 (m : Z) : 0 <= m <= 31 -> u64 (Z.shiftl 1 (2 * m)) = 4 ^ m.
Proof.
  intros Hm. rewrite Z.shiftl_mul_pow2, Z.mul_1_l, pow4_as_pow2 by lia.
  unfold u64. apply Z.mod_small. split; [apply Z.pow_nonneg; lia |].
  rewrite <- pow4_as_pow2 by lia. apply Z.pow_lt_mono_r; lia.
Qed.

Lemma ModelMinimizer_new_inr (K m : Z) (cmp : Comparator) (model : ModelMinimizer) :
  0 <= m <= 31 ->
  ModelMinimizer_new K m cmp = inr model ->
  m < K < span /\
  _kmerModel model
  = mkModelCanonical
      (mkModelAbstract K (Type_sub (Type_shl 1 (K * 2)) 1)
         (map (fun i => Type_shl (comp_NT_at i) (u64 (2 * (K - 1)))) [0; 1; 2; 3])) /\
  _cmp model = cmp /\
  _nbMinimizers model = K - m + 1 /\
  _mask model = 4 ^ m - 1 /\
  _mmer_lut model
  = map (fun ii => mmer_lut_entry m (4 ^ m - 1) (Z.of_nat ii)) (seq 0 (Z.to_nat (4 ^ m))) /\
  KmerCanonical_value (_minimizerDefault model)
  = cmp_init cmp
      (mkModelCanonical
         (mkModelAbstract m (Type_sub (Type_shl 1 (m * 2)) 1)
            (map (fun i => Type_shl (comp_NT_at i) (u64 (2 * (m - 1)))) [0; 1; 2; 3]))) /\
  ModelMinimizer_base model = ModelCanonical_base (_kmerModel model).
Proof.
  intros Hm. unfold ModelMinimizer_new, bind.
  destruct (ModelAbstract_new K) as [e | base] eqn:Eb; [discriminate |].
  destruct (ModelCanonical_new K) as [e | kmerModel] eqn:Ek; [discriminate |].
  destruct (ModelCanonical_new m) as [e | miniModel] eqn:Em; [discriminate |].
  destruct (K <=? m) eqn:EK; [discriminate |].
  apply Z.leb_gt in EK.
  apply ModelAbstract_new_inr in Eb as [HK ->].
  apply ModelCanonical_new_inr in Ek as [_ ->].
  apply ModelCanonical_new_inr in Em as [_ ->].
  intros H. inversion H; subst model; clear H.
  unfold getKmerSize; cbn [ModelCanonical_base _kmerSize _kmerModel _cmp _nbMinimizers
                           _mask _mmer_lut _minimizerDefault ModelMinimizer_base].
  rewrite u64_pow4 by lia.
  assert (H4 : 4 ^ m - 1 = u64 (4 ^ m - 1)).
  { unfold u64. symmetry. apply Z.mod_small.
    pose proof (pow4_pos m ltac:(lia)).
    assert (4 ^ m <= 4 ^ 31) by (apply Z.pow_le_mono_r; lia).
    change (4 ^ 31) with 4611686018427387904 in *.
    change (2 ^ 64) with 18446744073709551616. lia. }
  rewrite <- H4.
  assert (Hn : u64 (K - m + 1) = K - m + 1)
    by (unfold u64; apply Z.mod_small; lia).
  rewrite Hn.
  repeat (split; [first [lia | reflexivity] |]).
  split; [| reflexivity].
  unfold KmerCanonical_set, KmerCanonical_set2.
  rewrite updateChoice_value. cbn [table0 table1]. rewrite Z.min_id. reflexivity.
Qed.

Lemma nth_map_seq {A : Type} (f : nat -> A) (n i : nat) (d : A) :
  (i < n)%nat -> nth i (map f (seq 0 n)) d = f i.
Proof.
  intros Hi. rewrite (nth_indep _ d (f 0%nat)) by (rewrite length_map, length_seq; lia).
  rewrite map_nth, seq_nth by lia. reflexivity.
Qed.

Lemma mmerLut_entry (K m : Z) (cmp : Comparator) (model : ModelMinimizer) (x : Z) :
  0 <= m <= 31 -> ModelMinimizer_new K m cmp = inr model -> 0 <= x < 4 ^ m ->
  mmerLut model x = mmer_lut_entry m (4 ^ m - 1) x.
Proof.
  intros Hm Hnew Hx.
  destruct (ModelMinimizer_new_inr K m cmp model Hm Hnew)
    as (_ & _ & _ & _ & _ & Hlut & _).
  unfold mmerLut. rewrite Hlut, nth_map_seq by lia. rewrite Z2Nat.id by lia. reflexivity.
Qed.

Lemma small_is_u32 (m x : Z) : 0 <= m <= 16 -> 0 <= x < 4 ^ m -> u32 (Type_getVal x) = x.
Proof.
  intros Hm Hx. assert (H16 : 4 ^ m <= 4 ^ 16) by (apply Z.pow_le_mono_r; lia).
  change (4 ^ 16) with 4294967296 in H16.
  assert (H32 : 2 ^ 32 = 4294967296) by reflexivity.
  assert (H64 : 2 ^ 64 = 18446744073709551616) by reflexivity.
  unfold Type_getVal, u64, u32.
  rewrite (Z.mod_small x (2 ^ 64)) by lia. apply Z.mod_small. lia.
Qed.

Lemma mmer_lut_entry_canonical (m x : Z) :
  0 <= m <= 16 -> 0 <= x < 4 ^ m ->
  mmer_lut_entry m (4 ^ m - 1) x
  = if is_allowed (Z.min x (revcomp x m)) m then Z.min x (revcomp x m) else 4 ^ m - 1.
Proof.
  intros Hm Hx. unfold mmer_lut_entry.
  pose proof (revcomp_range x m ltac:(lia)) as Hr.
  assert (Hc : (if revcomp x m <? x then revcomp x m else x) = Z.min x (revcomp x m)).
  { destruct (revcomp x m <? x) eqn:E;
      [apply Z.ltb_lt in E | apply Z.ltb_ge in E]; lia. }
  rewrite Hc, (small_is_u32 m) by lia.
  replace (u32 m) with m by (unfold u32; symmetry; apply Z.mod_small; lia).
  destruct (is_allowed (Z.min x (revcomp x m)) m); reflexivity.
Qed.

(** C7.  Every entry of the lookup table is the canonical form of its
    index, [min (x, RC (x, m))], when [is_allowed] accepts that form, and
    the sentinel [mmerMask] otherwise; hence an m-mer and its reverse
    complement have the same entry. *)
Theorem mmerLut_canonical_folding (K m : Z) (cmp : Comparator) (model : ModelMinimizer)
        (x : Z) :
  mmer_size_supported m -> ModelMinimizer_new K m cmp = inr model -> 0 <= x < 4 ^ m ->
  let canon := Z.min x (revcomp x m) in
  _mask model = 2 ^ (2 * m) - 1 /\
  mmerLut model x = (if is_allowed canon m then canon else _mask model) /\
  mmerLut model x = mmerLut model (revcomp x m).
Proof.
  intros Hm Hnew Hx canon. unfold mmer_size_supported in Hm.
  destruct (ModelMinimizer_new_inr K m cmp model ltac:(lia) Hnew)
    as (_ & _ & _ & _ & Hmask & _).
  pose proof (revcomp_range x m ltac:(lia)) as Hr.
  rewrite Hmask, !(mmerLut_entry K m cmp model) by (exact Hnew || lia).
  rewrite !mmer_lut_entry_canonical by lia.
  rewrite revcomp_involutive by lia.
  split; [rewrite pow4_as_pow2 by lia; reflexivity |].
  split; [reflexivity |].
  rewrite (Z.min_comm (revcomp x m) x). reflexivity.
Qed.

(** ** [computeNewMinimizer] leaves the kmer value alone *)

Lemma computeNewMinimizer_loop_base (model : ModelMinimizer) (n : nat) :
  forall idx loop kmer,
    KmerMinimizer_base (snd (computeNewMinimizer_loop model n idx loop kmer))
    = KmerMinimizer_base kmer.
Proof.
  induction n as [| n IH]; intros idx loop kmer.
  - reflexivity.
  - cbn [computeNewMinimizer_loop].
    destruct (KmerCanonical_extractShift _ _ _ _) as [mmer shifted].
    rewrite IH. destruct (cmp_call _ _ _); reflexivity.
Qed.

Lemma computeNewMinimizer_base (model : ModelMinimizer) (kmer : KmerMinimizer) :
  KmerMinimizer_base (computeNewMinimizer model kmer) = KmerMinimizer_base kmer.
Proof. unfold computeNewMinimizer. rewrite computeNewMinimizer_loop_base. reflexivity. Qed.

(** C10.  [computeNewMinimizer] never modifies the forward or revcomp
    value of the kmer it is given (nor its strand choice or validity): the
    m-mers are peeled off the local copy, and only [_minimizer],
    [_position] and [_changed] of the kmer may differ after the call. *)
Theorem computeNewMinimizer_frame (model : ModelMinimizer) (kmer : KmerMinimizer) :
  let kmer' := computeNewMinimizer model kmer in
  KmerCanonical_forward (KmerMinimizer_base kmer')
  = KmerCanonical_forward (KmerMinimizer_base kmer) /\
  KmerCanonical_revcomp (KmerMinimizer_base kmer')
  = KmerCanonical_revcomp (KmerMinimizer_base kmer) /\
  kmer' = mkKmerMinimizer (KmerMinimizer_base kmer)
                          (_minimizer kmer') (_position kmer') (_changed kmer').
Proof.
  intros kmer'. pose proof (computeNewMinimizer_base model kmer) as Hb.
  fold kmer' in Hb. rewrite <- Hb. destruct kmer'; auto.
Qed.

(** ** Validity of the kmer computed by [codeSeedRight] *)

Lemma ModelMinimizer_next_isValid (model : ModelMinimizer) (c : Z) (kmer : KmerMinimizer)
      (isValid : bool) :
  KmerCanonical_isValid (KmerMinimizer_base (ModelMinimizer_next model c kmer isValid))
  = isValid.
Proof.
  unfold ModelMinimizer_next. cbn [_minimizer _position].
  destruct (cmp_call _ _ _); [reflexivity |].
  destruct (_ <? 0); [rewrite computeNewMinimizer_base |]; reflexivity.
Qed.

Lemma codeSeedRight_isValid
      (md : ModelDirect) (mc : ModelCanonical) (mm : ModelMinimizer)
      (kd : KmerDirect) (kc : KmerCanonical) (km : KmerMinimizer)
      (nucl : Z) (encoding : Encoding_e) :
  let valid := snd (get (convert_of encoding) [nucl] 0) =? 0 in
  KmerDirect_isValid (codeSeedRight md kd nucl encoding) = valid /\
  KmerCanonical_isValid (codeSeedRight mc kc nucl encoding) = valid /\
  KmerCanonical_isValid (KmerMinimizer_base (codeSeedRight mm km nucl encoding)) = valid.
Proof.
  intros valid. unfold valid, codeSeedRight, convert_of.
  destruct encoding; cbn [execute impl_next ModelDirect_impl ModelCanonical_impl
                          ModelMinimizer_impl];
    rewrite ModelMinimizer_next_isValid; auto.
Qed.

(** ** The predicate [is_allowed] *)

Lemma mask_0101_bits (j : Z) :
  0 <= j < 64 -> Z.testbit 0x5555555555555555 j = Z.even j.
Proof.
  intros Hj. rewrite <- (Z2Nat.id j) by lia.
  assert (Hn : (Z.to_nat j < 64)%nat) by lia. revert Hn.
  generalize (Z.to_nat j) as n. intros n.
  do 64 (destruct n as [| n]; [reflexivity |]). lia.
Qed.

(** A digit is A exactly when its two bits are clear. *)
Lemma land3_is_zero (y : Z) :
  (Z.land y 3 =? 0) = negb (Z.testbit y 0 || Z.testbit y 1).
Proof.
  rewrite land3_mod4, (Z.testbit_eqb y 0), (Z.testbit_eqb y 1) by lia.
  change (2 ^ 0) with 1. change (2 ^ 1) with 2. rewrite Z.div_1_r.
  destruct (y mod 4 =? 0) eqn:E0; destruct (y mod 2 =? 1) eqn:E1;
    destruct ((y / 2) mod 2 =? 1) eqn:E2; try reflexivity; exfalso;
    repeat match goal with
           | H : (_ =? _) = true |- _ => apply Z.eqb_eq in H
           | H : (_ =? _) = false |- _ => apply Z.eqb_neq in H
           end;
    Z.div_mod_to_equations; lia.
Qed.

Lemma digit_is_A (x i : Z) :
  0 <= i ->
  (digit x i =? 0) = negb (Z.testbit x (2 * i) || Z.testbit x (2 * i + 1)).
Proof.
  intros Hi. unfold digit. rewrite land3_is_zero, !Z.shiftr_spec by lia.
  rewrite Z.add_0_l, (Z.add_comm 1). reflexivity.
Qed.

(** The bits of the result of the test, for the 64-bit negation of the
    code ([wide = false]) and for the negation of unbounded integers. *)
Lemma pair_test_bit (x low j : Z) (t : Z) :
  0 <= j -> 0 <= low <= 62 ->
  (forall n, 0 <= n < 64 -> Z.testbit t n = negb (Z.testbit x n || Z.testbit x (n + 2))) ->
  Z.testbit (Z.land (Z.land (Z.shiftr t 1) t) (Z.land 0x5555555555555555 (Z.ones low))) j
  = (Z.even j && (j <? low))
    && (negb (Z.testbit x j || Z.testbit x (j + 1))
        && negb (Z.testbit x (j + 2) || Z.testbit x (j + 3))).
Proof.
  intros Hj Hlow Ht.
  rewrite !Z.land_spec, Z.shiftr_spec, Z.testbit_ones_nonneg by lia.
  destruct (j <? low) eqn:E.
  - apply Z.ltb_lt in E. rewrite mask_0101_bits, !Ht by lia.
    replace (j + 1 + 2) with (j + 3) by lia.
    destruct (Z.even j), (Z.testbit x j), (Z.testbit x (j + 1)),
      (Z.testbit x (j + 2)), (Z.testbit x (j + 3)); reflexivity.
  - rewrite !andb_false_r. reflexivity.
Qed.

Lemma u64_not_bits (y n : Z) : 0 <= n < 64 -> Z.testbit (u64_not y) n = negb (Z.testbit y n).
Proof.
  intros Hn. unfold u64_not, u64.
  rewrite Z.mod_pow2_bits_low, Z.lnot_spec by lia. reflexivity.
Qed.

(** The test finds a bit exactly at the low bit of a pair of adjacent A's. *)
Lemma pair_test_zero (x m : Z) (r : Z) :
  2 <= m <= 16 ->
  (forall j, 0 <= j ->
     Z.testbit r j
     = (Z.even j && (j <? 2 * (m - 2)))
       && (negb (Z.testbit x j || Z.testbit x (j + 1))
           && negb (Z.testbit x (j + 2) || Z.testbit x (j + 3)))) ->
  (r =? 0) = no_AA_below_top x m.
Proof.
  intros Hm Hr. apply eq_true_iff_eq. rewrite Z.eqb_eq.
  unfold no_AA_below_top. rewrite forallb_forall. split.
  - intros H0 i Hi. apply list_elem_of_In, elem_of_seqZ in Hi.
    specialize (Hr (2 * i) ltac:(lia)). rewrite H0, Z.bits_0 in Hr.
    rewrite !digit_is_A by lia.
    replace (2 * (i + 1)) with (2 * i + 2) by lia.
    replace (2 * i + 2 + 1) with (2 * i + 3) by lia.
    replace (Z.even (2 * i)) with true in Hr
      by (symmetry; apply Z.even_spec; exists i; lia).
    replace (2 * i <? 2 * (m - 2)) with true in Hr by (symmetry; apply Z.ltb_lt; lia).
    simpl in Hr. rewrite <- Hr. reflexivity.
  - intros Hall. apply Z.bits_inj'. intros j Hj. rewrite Z.bits_0, Hr by exact Hj.
    destruct (Z.even j) eqn:Ee; [| reflexivity].
    destruct (j <? 2 * (m - 2)) eqn:El; [| reflexivity].
    apply Z.even_spec in Ee as [i ->]. apply Z.ltb_lt in El.
    assert (Hin : In i (seqZ 0 (m - 2)))
      by (apply list_elem_of_In, elem_of_seqZ; lia).
    specialize (Hall i Hin). rewrite !digit_is_A in Hall by lia.
    replace (2 * (i + 1)) with (2 * i + 2) in Hall by lia.
    replace (2 * i + 2 + 1) with (2 * i + 3) in Hall by lia.
    simpl. apply negb_true_iff in Hall. exact Hall.
Qed.

(** C8.  For an m-mer [x] of [2m] bits, [2 <= m <= 16] (the sizes whose
    m-mers fit the [uint32_t] argument), [is_allowed (x, m)] is true
    exactly when [x] has no two consecutive A digits, the two top
    positions apart, and exactly when the bit test of the specification
    yields zero. *)
Theorem is_allowed_no_AA (m x : Z) :
  2 <= m <= 16 -> 0 <= x < 4 ^ m ->
  is_allowed x m = no_AA_below_top x m /\
  is_allowed x m = (allowed_bit_test x m =? 0).
Proof.
  intros Hm Hx.
  assert (Hlow : u64 (Z.shiftl 1 (u32 (u32 (m - 2) * 2)) - 1) = Z.ones (2 * (m - 2))).
  { assert (Hs : u32 (u32 (m - 2) * 2) = 2 * (m - 2)).
    { unfold u32. change (2 ^ 32) with 4294967296.
      rewrite (Z.mod_small (m - 2)) by lia. rewrite Z.mod_small by lia. lia. }
    rewrite Hs, Z.shiftl_mul_pow2, Z.mul_1_l, Z.ones_equiv by lia.
    unfold u64. apply Z.mod_small.
    assert (0 < 2 ^ (2 * (m - 2)) <= 2 ^ 28)
      by (split; [apply Z.pow_pos_nonneg; lia | apply Z.pow_le_mono_r; lia]).
    change (2 ^ 28) with 268435456 in *. change (2 ^ 64) with 18446744073709551616. lia. }
  assert (Hcode : is_allowed x m = no_AA_below_top x m).
  { unfold is_allowed. rewrite Hlow.
    match goal with
    | |- (if negb (?r =? 0) then false else true) = _ =>
        transitivity (r =? 0); [destruct (r =? 0); reflexivity |]
    end.
    apply pair_test_zero; [exact Hm |]. intros j Hj.
    apply pair_test_bit; [lia | lia |].
    intros n Hn. rewrite u64_not_bits, Z.lor_spec, Z.shiftr_spec by lia. reflexivity. }
  split; [exact Hcode |]. rewrite Hcode. symmetry.
  apply pair_test_zero; [exact Hm |]. intros j Hj.
  unfold allowed_bit_test.
  replace (Z.shiftl 1 (2 * (m - 2)) - 1) with (Z.ones (2 * (m - 2)))
    by (rewrite Z.shiftl_mul_pow2, Z.mul_1_l, Z.ones_equiv by lia; lia).
  rewrite <- Z.land_assoc, (Z.land_comm (Z.ones _)).
  apply pair_test_bit; [lia | lia |].
  intros n Hn. rewrite Z.lnot_spec, Z.lor_spec, Z.shiftr_spec by lia. reflexivity.
Qed.

(** ** Iteration: what is delivered, and in which order *)

Lemma int32_of_count (x : Z) : - 2 ^ 31 <= x < 2 ^ 31 -> int32 (u64 x) = x.
Proof.
  unfold int32, u64.
  change (2 ^ 31) with 2147483648. change (2 ^ 32) with 4294967296.
  change (2 ^ 64) with (4294967296 * 4294967296).
  intros Hx. Z.div_mod_to_equations. lia.
Qed.

Section Iteration.

Context {M Kmer : Type} {I : ModelImpl M Kmer}.
Variables (model : M) (cv : Convert) (buffer : list Z).

Local Abbreviation K := (_kmerSize (impl_base model)).

(** One step of the loop of [iterate]: the counter after the symbol at
    [idx] was read. *)
Local Abbreviation step_counter idx b :=
  (if snd (get cv buffer idx) =? 0 then b - 1 else K - 1).

Lemma iterate_loop_record_app (n : nat) :
  forall idx b r ic log,
    iterate_loop model cv buffer record_callback n idx b r ic log
    = log ++ iterate_loop model cv buffer record_callback n idx b r ic [].
Proof.
  induction n as [| n IH]; intros idx b r ic log.
  - simpl. rewrite app_nil_r. reflexivity.
  - cbn [iterate_loop]. unfold notification.
    rewrite IH, (IH _ _ _ _ (record_callback _ _ [])).
    unfold record_callback. rewrite <- app_assoc. reflexivity.
Qed.

(** The recorded calls of the loop, one step unfolded. *)
Lemma iterate_loop_record_step (n : nat) (idx b ic : Z) (r : Kmer) :
  iterate_loop model cv buffer record_callback (S n) idx b r ic []
  = (impl_next model (fst (get cv buffer idx)) r (step_counter idx b <? 0), ic + 1)
      :: iterate_loop model cv buffer record_callback n (idx + 1) (step_counter idx b)
           (impl_next model (fst (get cv buffer idx)) r (step_counter idx b <? 0))
           (ic + 1) [].
Proof.
  cbn [iterate_loop]. unfold notification. rewrite iterate_loop_record_app. reflexivity.
Qed.

Lemma iterate_loop_callback {St : Type} (callback : Kmer -> Z -> St -> St) (n : nat) :
  forall idx b r ic st,
    iterate_loop model cv buffer callback n idx b r ic st
    = fold_left (fun st e => callback (fst e) (snd e) st)
                (iterate_loop model cv buffer record_callback n idx b r ic []) st.
Proof.
  induction n as [| n IH]; intros idx b r ic st.
  - reflexivity.
  - rewrite iterate_loop_record_step. cbn [iterate_loop fold_left fst snd].
    unfold notification. apply IH.
Qed.

Lemma iterate_loop_indices (n : nat) :
  forall idx b r ic,
    map snd (iterate_loop model cv buffer record_callback n idx b r ic [])
    = seqZ (ic + 1) (Z.of_nat n).
Proof.
  induction n as [| n IH]; intros idx b r ic.
  - reflexivity.
  - rewrite iterate_loop_record_step. cbn [map snd]. rewrite IH.
    rewrite (seqZ_cons (ic + 1)) by lia.
    replace (Z.pred (Z.of_nat (S n))) with (Z.of_nat n) by lia. reflexivity.
Qed.

Lemma window_valid_true (j : Z) (n : Z) :
  window_valid cv buffer j n = true
  <-> forall i, j <= i < j + n -> snd (get cv buffer i) = 0.
Proof.
  unfold window_valid. rewrite forallb_forall. split.
  - intros H i Hi. apply Z.eqb_eq, H, list_elem_of_In, elem_of_seqZ. lia.
  - intros H i Hi. apply list_elem_of_In, elem_of_seqZ in Hi. apply Z.eqb_eq, H. lia.
Qed.

Lemma counter_tracks_valid (j n b : Z) :
  counter_tracks cv buffer j n b -> (b <? 0) = window_valid cv buffer j n.
Proof.
  intros [[Hb Hall] | [Hb [Hbad Hall]]].
  - symmetry. rewrite (proj2 (Z.ltb_lt b 0) Hb). apply window_valid_true, Hall.
  - rewrite (proj2 (Z.ltb_ge b 0)) by lia. symmetry.
    apply not_true_is_false. intros Hv.
    apply Hbad. apply (proj1 (window_valid_true j n) Hv). lia.
Qed.

Lemma counter_tracks_step (j b : Z) :
  0 <= K ->
  counter_tracks cv buffer j K b ->
  counter_tracks cv buffer (j + 1) K (step_counter (j + K) b).
Proof.
  intros HK Hc. destruct (snd (get cv buffer (j + K)) =? 0) eqn:E.
  - apply Z.eqb_eq in E. destruct Hc as [[Hb Hall] | [Hb [Hbad Hall]]].
    + left. split; [lia |]. intros i Hi.
      destruct (Z.eq_dec i (j + K)) as [-> | Hne]; [exact E | apply Hall; lia].
    + destruct (Z.eq_dec b 0) as [-> | Hb0].
      * left. split; [lia |]. intros i Hi.
        destruct (Z.eq_dec i (j + K)) as [-> | Hne]; [exact E | apply Hall; lia].
      * right. split; [lia |]. replace (j + 1 + (b - 1)) with (j + b) by lia.
        split; [exact Hbad |]. intros i Hi.
        destruct (Z.eq_dec i (j + K)) as [-> | Hne]; [exact E | apply Hall; lia].
  - apply Z.eqb_neq in E. destruct (Z.eq_dec K 0) as [HK0 | HK0].
    + left. split; [lia |]. intros i Hi. lia.
    + right. split; [lia |]. replace (j + 1 + (K - 1)) with (j + K) by lia.
      split; [exact E |]. intros i Hi. lia.
Qed.

(** An invariant [Q j kmer] of the kmer of the window that starts at [j],
    kept by [next] when it is given the validity of the next window, holds
    for every kmer the loop delivers, the one with output index [i] being
    the one of the window that starts at [i]. *)
Lemma iterate_loop_invariant (Q : Z -> Kmer -> Prop) (bound : Z) :
  0 <= K ->
  (forall j r, 0 <= j -> j + K < bound -> Q j r ->
     Q (j + 1) (impl_next model (fst (get cv buffer (j + K))) r
                          (window_valid cv buffer (j + 1) K))) ->
  forall n idx b r ic,
    K <= idx -> idx + Z.of_nat n <= bound ->
    counter_tracks cv buffer (idx - K) K b -> Q (idx - K) r ->
    forall t k i,
      iterate_loop model cv buffer record_callback n idx b r ic [] !! t = Some (k, i) ->
      Q (idx - K + 1 + Z.of_nat t) k /\ i = ic + 1 + Z.of_nat t.
Proof.
  intros HK Hstep. induction n as [| n IH]; intros idx b r ic Hidx Hn Hc HQ t k i Ht.
  - discriminate.
  - rewrite iterate_loop_record_step in Ht.
    pose proof (counter_tracks_step (idx - K) b HK Hc) as Hc'.
    replace (idx - K + K) with idx in Hc' by lia.
    rewrite (counter_tracks_valid _ _ _ Hc') in Ht.
    assert (Hj0 : 0 <= idx - K) by lia.
    assert (Hjb : idx - K + K < bound) by lia.
    pose proof (Hstep (idx - K) r Hj0 Hjb HQ) as HQ'.
    replace (idx - K + K) with idx in HQ' by lia.
    destruct t as [| t].
    + cbn in Ht. inversion Ht; subst k i.
      rewrite Z.add_0_r. split; [exact HQ' | lia].
    + cbn [lookup list_lookup] in Ht.
      replace (idx - K + 1) with (idx + 1 - K) in Hc', HQ', Ht by lia.
      assert (Hi1 : K <= idx + 1) by lia.
      assert (Hn1 : idx + 1 + Z.of_nat n <= bound) by lia.
      destruct (IH (idx + 1) _ _ (ic + 1) Hi1 Hn1 Hc' HQ' t k i Ht) as [HQt Hi].
      split; [| lia].
      replace (idx - K + 1 + Z.of_nat (S t)) with (idx + 1 - K + 1 + Z.of_nat t) by lia.
      exact HQt.
Qed.

(** The same for the whole of [iterate], the first kmer included. *)
Lemma ModelAbstract_iterate_invariant (Q : Z -> Kmer -> Prop) (length : Z) :
  0 <= K ->
  (forall j r, 0 <= j -> j + K < Z.max K length -> Q j r ->
     Q (j + 1) (impl_next model (fst (get cv buffer (j + K))) r
                          (window_valid cv buffer (j + 1) K))) ->
  counter_tracks cv buffer 0 K (fst (impl_first model cv buffer impl_uninit)) ->
  Q 0 (snd (impl_first model cv buffer impl_uninit)) ->
  forall t k i,
    snd (ModelAbstract_iterate model cv buffer length record_callback []) !! t
    = Some (k, i) ->
    Q (Z.of_nat t) k /\ i = Z.of_nat t.
Proof.
  intros HK Hstep Hc HQ t k i. unfold ModelAbstract_iterate.
  destruct (int32 _ <=? 0); [discriminate |].
  destruct (impl_first model cv buffer impl_uninit) as [b r]. cbn [fst snd] in *.
  unfold notification at 1. rewrite iterate_loop_record_app.
  unfold record_callback at 1. cbn [app].
  destruct t as [| t]; intros Ht.
  - cbn in Ht. inversion Ht; subst k i. split; [exact HQ | reflexivity].
  - cbn [lookup list_lookup] in Ht.
    replace 0 with (K - K) in Hc, HQ by lia.
    assert (HKK : K <= K) by lia.
    assert (Hn : K + Z.of_nat (Z.to_nat (length - K)) <= Z.max K length) by lia.
    destruct (iterate_loop_invariant Q (Z.max K length) HK Hstep
                (Z.to_nat (length - K)) K b r 0 HKK Hn Hc HQ t k i Ht) as [HQt Hi].
    split; [| lia].
    replace (Z.of_nat (S t)) with (K - K + 1 + Z.of_nat t) by lia. exact HQt.
Qed.

(** Validity: when [next] stores the flag it is given and [first] derives
    the flag from the index of the last bad character, every kmer delivered
    is valid exactly when its window has no invalid symbol. *)
Lemma ModelAbstract_iterate_valid (isValid : Kmer -> bool) (length : Z) :
  0 <= K ->
  (forall c r v, isValid (impl_next model c r v) = v) ->
  counter_tracks cv buffer 0 K (fst (impl_first model cv buffer impl_uninit)) ->
  isValid (snd (impl_first model cv buffer impl_uninit))
  = (fst (impl_first model cv buffer impl_uninit) <? 0) ->
  forall t k i,
    snd (ModelAbstract_iterate model cv buffer length record_callback []) !! t
    = Some (k, i) ->
    isValid k = window_valid cv buffer (Z.of_nat t) K.
Proof.
  intros HK Hnext Hc Hfirst t k i Ht.
  refine (proj1 (ModelAbstract_iterate_invariant
                   (fun j k => isValid k = window_valid cv buffer j K)
                   length HK _ Hc _ t k i Ht)).
  - intros j r _ _ _. apply Hnext.
  - rewrite Hfirst. apply counter_tracks_valid, Hc.
Qed.

(** Too short a buffer: nothing is delivered. *)
Lemma ModelAbstract_iterate_short {St : Type} (callback : Kmer -> Z -> St -> St)
      (st : St) (length : Z) :
  0 <= K < 2 ^ 31 -> 0 <= length < K ->
  ModelAbstract_iterate model cv buffer length callback st = (false, st).
Proof.
  intros HK Hlen. unfold ModelAbstract_iterate.
  rewrite int32_of_count by lia.
  rewrite (proj2 (Z.leb_le (length - K + 1) 0)) by lia. reflexivity.
Qed.

(** A buffer that is long enough: the callback is called on the recorded
    kmers in order, and their output indices are 0, 1, ..., length-K. *)
Lemma ModelAbstract_iterate_enough {St : Type} (callback : Kmer -> Z -> St -> St)
      (st : St) (length : Z) :
  0 <= K <= length -> length - K + 1 < 2 ^ 31 ->
  ModelAbstract_iterate model cv buffer length callback st
  = (true,
     fold_left (fun st e => callback (fst e) (snd e) st)
       (snd (ModelAbstract_iterate model cv buffer length record_callback [])) st)
  /\ map snd (snd (ModelAbstract_iterate model cv buffer length record_callback []))
     = seqZ 0 (length - K + 1).
Proof.
  intros HK Hlen. unfold ModelAbstract_iterate.
  rewrite int32_of_count by lia.
  rewrite (proj2 (Z.leb_gt (length - K + 1) 0)) by lia.
  destruct (impl_first model cv buffer impl_uninit) as [b r]. cbn [snd].
  unfold notification at 1 2 3.
  rewrite (iterate_loop_record_app _ _ _ _ _ (record_callback _ _ _)).
  unfold record_callback at 1 3. cbn [app fold_left fst snd map].
  rewrite iterate_loop_callback, iterate_loop_indices.
  split; [reflexivity |].
  rewrite (seqZ_cons 0) by lia. rewrite Z2Nat.id by lia.
  repeat f_equal; lia.
Qed.

End Iteration.

(** ** The first kmer *)

Lemma polynom_loop_counter (cv : Convert) (buffer : list Z) (n : nat) :
  forall i kmer b,
    0 <= i -> counter_tracks cv buffer 0 i b ->
    counter_tracks cv buffer 0 (i + Z.of_nat n)
                   (fst (polynom_loop cv buffer n i kmer b)).
Proof.
  induction n as [| n IH]; intros i kmer b Hi Hc.
  - simpl. rewrite Z.add_0_r. exact Hc.
  - cbn [polynom_loop].
    replace (i + Z.of_nat (S n)) with (i + 1 + Z.of_nat n) by lia.
    apply IH; [lia |].
    destruct (snd (get cv buffer i) =? 0) eqn:E.
    + apply Z.eqb_eq in E. destruct Hc as [[Hb Hall] | [Hb [Hbad Hall]]].
      * left. split; [exact Hb |]. intros i' Hi'.
        destruct (Z.eq_dec i' i) as [-> | Hne]; [exact E | apply Hall; lia].
      * right. split; [lia |]. split; [exact Hbad |]. intros i' Hi'.
        destruct (Z.eq_dec i' i) as [-> | Hne]; [exact E | apply Hall; lia].
    + apply Z.eqb_neq in E. right. split; [lia |]. split; [exact E |].
      intros i' Hi'. lia.
Qed.

Lemma polynom_counter (model : ModelAbstract) (cv : Convert) (buffer : list Z) :
  0 <= _kmerSize model ->
  counter_tracks cv buffer 0 (_kmerSize model) (fst (polynom model cv buffer)).
Proof.
  intros HK. unfold polynom.
  pose proof (polynom_loop_counter cv buffer (Z.to_nat (_kmerSize model)) 0 0 (-1)
                ltac:(lia)) as H.
  rewrite Z2Nat.id, Z.add_0_l in H by lia. apply H.
  left. split; [lia |]. intros i Hi. lia.
Qed.

Lemma polynom_loop_value (cv : Convert) (buffer : list Z) (K : Z) (n : nat) :
  forall i acc b t,
    0 <= t -> t + Z.of_nat n <= K -> K < span -> 0 <= acc < 4 ^ t ->
    (forall i', i <= i' < i + Z.of_nat n -> 0 <= fst (get cv buffer i') < 4) ->
    snd (polynom_loop cv buffer n i acc b) = polynomial_from cv buffer n i acc /\
    0 <= polynomial_from cv buffer n i acc < 4 ^ (t + Z.of_nat n).
Proof.
  induction n as [| n IH]; intros i acc b t Ht Hn HK Hacc Hcodes.
  - simpl. rewrite Z.add_0_r. split; [reflexivity | exact Hacc].
  - cbn [polynom_loop polynomial_from].
    pose proof (Hcodes i ltac:(lia)) as Hc.
    assert (Hstep : Type_add (Type_shl acc 2) (fst (get cv buffer i))
                    = 4 * acc + fst (get cv buffer i)).
    { unfold Type_add, Type_shl. rewrite shiftl2_mul4.
      pose proof (pow4_lt_Type (t + 1) ltac:(lia)) as Hb.
      rewrite pow4_succ in Hb by lia.
      pose proof (pow4_pos t Ht).
      rewrite (Type_wrap_small (4 * acc)) by lia. apply Type_wrap_small. lia. }
    rewrite Hstep.
    replace (t + Z.of_nat (S n)) with (t + 1 + Z.of_nat n) by lia.
    apply IH; try lia.
    + rewrite pow4_succ by lia. lia.
    + intros i' Hi'. apply Hcodes. lia.
Qed.

Lemma polynomial_from_acc (cv : Convert) (buffer : list Z) (n : nat) :
  forall i acc,
    polynomial_from cv buffer n i acc
    = acc * 4 ^ Z.of_nat n + polynomial_from cv buffer n i 0.
Proof.
  induction n as [| n IH]; intros i acc.
  - simpl. lia.
  - cbn [polynomial_from]. rewrite IH, (IH _ (4 * 0 + _)).
    rewrite Nat2Z.inj_succ, <- Z.add_1_r, pow4_succ by lia. lia.
Qed.

Lemma polynomial_from_last (cv : Convert) (buffer : list Z) (n : nat) :
  forall i acc,
    polynomial_from cv buffer (S n) i acc
    = 4 * polynomial_from cv buffer n i acc + fst (get cv buffer (i + Z.of_nat n)).
Proof.
  induction n as [| n IH]; intros i acc.
  - simpl. rewrite Z.add_0_r. reflexivity.
  - change (polynomial_from cv buffer (S (S n)) i acc)
      with (polynomial_from cv buffer (S n) (i + 1) (4 * acc + fst (get cv buffer i))).
    rewrite IH. cbn [polynomial_from].
    replace (i + 1 + Z.of_nat n) with (i + Z.of_nat (S n)) by lia. reflexivity.
Qed.

Lemma polynomial_range (cv : Convert) (buffer : list Z) (j K : Z) :
  0 <= K < span ->
  (forall i, j <= i < j + K -> 0 <= fst (get cv buffer i) < 4) ->
  0 <= polynomial cv buffer j K < 4 ^ K.
Proof.
  intros HK Hcodes. unfold polynomial.
  destruct (polynom_loop_value cv buffer K (Z.to_nat K) j 0 0 0) as [_ H]; try lia.
  - intros i Hi. apply Hcodes. lia.
  - rewrite Z.add_0_l, Z2Nat.id in H by lia. exact H.
Qed.

(** Sliding the window by one symbol. *)
Lemma polynomial_slide (cv : Convert) (buffer : list Z) (j K : Z) :
  0 <= K < span ->
  (forall i, j <= i <= j + K -> 0 <= fst (get cv buffer i) < 4) ->
  polynomial cv buffer (j + 1) K
  = (4 * polynomial cv buffer j K + fst (get cv buffer (j + K))) mod 4 ^ K.
Proof.
  intros HK Hcodes.
  pose proof (polynomial_range cv buffer (j + 1) K HK) as Hr.
  destruct (Z.eq_dec K 0) as [-> | HK0].
  - unfold polynomial. simpl. rewrite Z.mod_1_r. reflexivity.
  - assert (Hr' : 0 <= polynomial cv buffer (j + 1) K < 4 ^ K)
      by (apply Hr; intros i Hi; apply Hcodes; lia).
    clear Hr. unfold polynomial in *.
    replace (Z.to_nat K) with (S (Z.to_nat (K - 1))) in * by lia.
    rewrite polynomial_from_last in Hr' |- *.
    replace (j + 1 + Z.of_nat (Z.to_nat (K - 1))) with (j + K) in * by lia.
    cbn [polynomial_from]. rewrite (polynomial_from_acc _ _ _ (j + 1) (4 * 0 + _)).
    rewrite Z2Nat.id by lia.
    set (P := polynomial_from cv buffer (Z.to_nat (K - 1)) (j + 1) 0) in *.
    assert (H4 : 4 ^ K = 4 * 4 ^ (K - 1))
      by (rewrite <- pow4_succ by lia; f_equal; lia).
    symmetry.
    replace (4 * ((4 * 0 + fst (get cv buffer j)) * 4 ^ (K - 1) + P)
             + fst (get cv buffer (j + K)))
      with (4 * P + fst (get cv buffer (j + K)) + fst (get cv buffer j) * 4 ^ K)
      by lia.
    rewrite Z.mod_add by lia. apply Z.mod_small. exact Hr'.
Qed.

(** ** Iteration with each model *)

Lemma iterate_as_ModelAbstract {M Kmer St : Type} {I : ModelImpl M Kmer}
      (model : M) (data : Data) (callback : Kmer -> Z -> St -> St) (st : St) :
  iterate model data callback st
  = ModelAbstract_iterate model (convert_of (getEncoding data)) (getBuffer data)
                          (size data) callback st.
Proof. unfold iterate, convert_of. destruct (getEncoding data); reflexivity. Qed.

Local Abbreviation built K :=
  (mkModelAbstract K (Type_sub (Type_shl 1 (K * 2)) 1)
     (map (fun i => Type_shl (comp_NT_at i) (u64 (2 * (K - 1)))) [0; 1; 2; 3])).

Lemma iterate_valid_direct (K : Z) (model : ModelDirect) (data : Data) :
  0 <= K -> ModelDirect_new K = inr model ->
  forall t k i,
    snd (iterate model data record_callback []) !! t = Some (k, i) ->
    KmerDirect_isValid k
    = window_valid (convert_of (getEncoding data)) (getBuffer data) (Z.of_nat t) K.
Proof.
  intros HK Hnew t k i Ht. rewrite iterate_as_ModelAbstract in Ht.
  apply ModelDirect_new_inr in Hnew as [Hs ->].
  pose proof (polynom_counter (built K) (convert_of (getEncoding data))
                (getBuffer data) HK) as Hc.
  apply (ModelAbstract_iterate_valid (I := ModelDirect_impl) (mkModelDirect (built K))
           _ _ KmerDirect_isValid (size data) HK) with (i := i); [| | | exact Ht];
    cbn [impl_first impl_next ModelDirect_impl]; unfold ModelDirect_first;
    cbn [ModelDirect_base].
  - reflexivity.
  - destruct (polynom _ _ _) as [b v]. exact Hc.
  - destruct (polynom _ _ _) as [b v]. reflexivity.
Qed.

Lemma iterate_valid_canonical (K : Z) (model : ModelCanonical) (data : Data) :
  0 <= K -> ModelCanonical_new K = inr model ->
  forall t k i,
    snd (iterate model data record_callback []) !! t = Some (k, i) ->
    KmerCanonical_isValid k
    = window_valid (convert_of (getEncoding data)) (getBuffer data) (Z.of_nat t) K.
Proof.
  intros HK Hnew t k i Ht. rewrite iterate_as_ModelAbstract in Ht.
  apply ModelCanonical_new_inr in Hnew as [Hs ->].
  pose proof (polynom_counter (built K) (convert_of (getEncoding data))
                (getBuffer data) HK) as Hc.
  apply (ModelAbstract_iterate_valid (I := ModelCanonical_impl)
           (mkModelCanonical (built K))
           _ _ KmerCanonical_isValid (size data) HK) with (i := i); [| | | exact Ht];
    cbn [impl_first impl_next ModelCanonical_impl]; unfold ModelCanonical_first;
    cbn [ModelCanonical_base].
  - reflexivity.
  - destruct (polynom _ _ _) as [b v]. exact Hc.
  - destruct (polynom _ _ _) as [b v]. reflexivity.
Qed.

Lemma iterate_valid_minimizer (K m : Z) (cmp : Comparator) (model : ModelMinimizer)
      (data : Data) :
  0 <= K -> 0 <= m <= 31 -> ModelMinimizer_new K m cmp = inr model ->
  forall t k i,
    snd (iterate model data record_callback []) !! t = Some (k, i) ->
    KmerCanonical_isValid (KmerMinimizer_base k)
    = window_valid (convert_of (getEncoding data)) (getBuffer data) (Z.of_nat t) K.
Proof.
  intros HK Hm Hnew t k i Ht. rewrite iterate_as_ModelAbstract in Ht.
  destruct (ModelMinimizer_new_inr K m cmp model Hm Hnew)
    as (_ & Hkm & _ & _ & _ & _ & _ & Hbase).
  pose proof (polynom_counter (built K) (convert_of (getEncoding data))
                (getBuffer data) HK) as Hc.
  assert (HKm : _kmerSize (impl_base model) = K)
    by (cbn [impl_base ModelMinimizer_impl]; rewrite Hbase, Hkm; reflexivity).
  rewrite <- HKm in HK |- *.
  apply (ModelAbstract_iterate_valid (I := ModelMinimizer_impl) model _ _
           (fun k => KmerCanonical_isValid (KmerMinimizer_base k)) (size data) HK)
    with (i := i); [| | | exact Ht];
    cbn [impl_first impl_next ModelMinimizer_impl].
  - apply ModelMinimizer_next_isValid.
  - unfold ModelMinimizer_first, ModelCanonical_first. rewrite Hkm.
    cbn [ModelCanonical_base]. rewrite HKm.
    destruct (polynom _ _ _) as [b v]. exact Hc.
  - unfold ModelMinimizer_first, ModelCanonical_first.
    destruct (polynom (ModelCanonical_base (_kmerModel model)) _ _) as [b v].
    cbn [fst snd]. rewrite computeNewMinimizer_base. reflexivity.
Qed.

(** ** [build] *)

(** Writing each recorded kmer at its index fills the front of the buffer. *)
Lemma BuildFunctor_fold {Kmer : Type} (log : list (Kmer * Z)) :
  forall kmersBuffer : list Kmer,
    map snd log = seqZ 0 (Z.of_nat (length log)) ->
    (length log <= length kmersBuffer)%nat ->
    fold_left (fun st e => BuildFunctor (fst e) (snd e) st) log kmersBuffer
    = map fst log ++ drop (length log) kmersBuffer.
Proof.
  induction log as [| [k i] log IH] using rev_ind; intros kmersBuffer Hidx Hlen.
  - reflexivity.
  - rewrite length_app in Hidx, Hlen. cbn [length] in Hidx, Hlen.
    rewrite Nat.add_1_r in Hidx, Hlen.
    rewrite seqZ_S, map_app in Hidx. cbn [map snd] in Hidx.
    apply app_inj_tail in Hidx as [Hidx Hi]. rewrite Z.add_0_l in Hi. subst i.
    rewrite fold_left_app, IH by (exact Hidx || lia).
    cbn [fold_left fst snd]. unfold BuildFunctor. rewrite Nat2Z.id.
    rewrite insert_app_r_alt by (rewrite length_map; lia).
    rewrite length_map, Nat.sub_diag.
    destruct (drop (length log) kmersBuffer) as [| y rest] eqn:Ed.
    + apply (f_equal length) in Ed. rewrite length_drop in Ed. simpl in Ed. lia.
    + cbn [insert list_insert]. rewrite map_app, <- app_assoc. cbn [map app fst].
      rewrite length_app. cbn [length]. rewrite Nat.add_1_r.
      repeat f_equal.
      replace (S (length log)) with (length log + 1)%nat by lia.
      rewrite <- (drop_drop kmersBuffer 1 (length log)), Ed. reflexivity.
Qed.

Lemma build_short {M Kmer : Type} {I : ModelImpl M Kmer} (model : M) (data : Data)
      (kmersBuffer : list Kmer) :
  0 <= _kmerSize (impl_base model) < 2 ^ 31 ->
  0 <= size data < _kmerSize (impl_base model) ->
  build model data kmersBuffer = (false, kmersBuffer).
Proof.
  intros HK Hlen. unfold build, getKmerSize.
  rewrite int32_of_count by lia.
  rewrite (proj2 (Z.leb_le _ 0)) by lia. reflexivity.
Qed.

Lemma build_enough {M Kmer : Type} {I : ModelImpl M Kmer} (model : M) (data : Data)
      (kmersBuffer : list Kmer) :
  0 <= _kmerSize (impl_base model) <= size data ->
  size data - _kmerSize (impl_base model) + 1 < 2 ^ 31 ->
  build model data kmersBuffer
  = (true, map fst (snd (iterate model data record_callback []))).
Proof.
  intros HK Hlen. unfold build, getKmerSize.
  rewrite int32_of_count by lia.
  rewrite (proj2 (Z.leb_gt _ 0)) by lia. f_equal.
  rewrite !iterate_as_ModelAbstract.
  destruct (ModelAbstract_iterate_enough model (convert_of (getEncoding data))
              (getBuffer data) BuildFunctor
              (resize (Z.to_nat (size data - _kmerSize (impl_base model) + 1))
                      impl_uninit kmersBuffer)
              (size data) HK Hlen) as [-> Hidx].
  cbn [snd].
  assert (Hl : length (snd (ModelAbstract_iterate model (convert_of (getEncoding data))
                          (getBuffer data) (size data) record_callback []))
               = Z.to_nat (size data - _kmerSize (impl_base model) + 1)).
  { rewrite <- (length_map snd), Hidx, length_seqZ. reflexivity. }
  rewrite BuildFunctor_fold.
  - rewrite Hl, drop_ge by (rewrite length_resize; lia). apply app_nil_r.
  - rewrite Hl, Z2Nat.id by lia. exact Hidx.
  - rewrite Hl, length_resize. lia.
Qed.

(** ** The kmers of the direct model *)

Lemma list_eq_map_seqZ {A : Type} (f : Z -> A) (l : list A) :
  (forall t x, l !! t = Some x -> x = f (Z.of_nat t)) ->
  l = map f (seqZ 0 (Z.of_nat (length l))).
Proof.
  induction l as [| x l IH] using rev_ind; intros H.
  - reflexivity.
  - rewrite length_app. cbn [length]. rewrite Nat.add_1_r, seqZ_S, map_app.
    cbn [map]. rewrite Z.add_0_l. f_equal.
    + apply IH. intros t y Ht. apply H. apply lookup_app_l_Some. exact Ht.
    + f_equal. apply H. apply list_lookup_middle. reflexivity.
Qed.

Lemma iterate_direct_log (K : Z) (model : ModelDirect) (data : Data) :
  ModelDirect_new K = inr model ->
  0 <= K <= size data -> size data - K + 1 < 2 ^ 31 ->
  codes_in_range (convert_of (getEncoding data)) (getBuffer data) (size data) ->
  snd (iterate model data record_callback [])
  = map (fun j => (direct_kmer_at (convert_of (getEncoding data)) (getBuffer data) K j, j))
        (seqZ 0 (size data - K + 1)).
Proof.
  intros Hnew HK Hlen Hcodes. rewrite iterate_as_ModelAbstract.
  apply ModelDirect_new_inr in Hnew as [Hs ->].
  set (cv := convert_of (getEncoding data)) in *.
  set (buffer := getBuffer data) in *.
  set (log := snd (ModelAbstract_iterate (ModelImpl0 := ModelDirect_impl)
                     (mkModelDirect (built K))
                     cv buffer (size data) record_callback [])).
  assert (Hidx : map snd log = seqZ 0 (size data - K + 1)).
  { apply (ModelAbstract_iterate_enough (I := ModelDirect_impl) (mkModelDirect (built K))
             cv buffer record_callback [] (size data)); assumption. }
  assert (Hl : Z.of_nat (length log) = size data - K + 1).
  { rewrite <- (length_map snd), Hidx, length_seqZ. lia. }
  rewrite <- Hl. apply list_eq_map_seqZ. intros t [k i] Ht.
  pose proof (polynom_counter (built K) cv buffer ltac:(cbn; lia)) as Hc.
  destruct (ModelAbstract_iterate_invariant (I := ModelDirect_impl)
              (mkModelDirect (built K)) cv buffer
              (fun j k => k = direct_kmer_at cv buffer K j) (size data)) with (5 := Ht)
    as [-> ->]; cbn [impl_base impl_first impl_next ModelDirect_impl ModelDirect_base
                     _kmerSize]; try reflexivity; try lia.
  - intros j r Hj Hb ->. rewrite Z.max_r in Hb by lia.
    unfold ModelDirect_next, direct_kmer_at. cbn [ModelDirect_base _kmerMask KmerDirect_value].
    rewrite kmerMask_value, slide_forward by lia. f_equal.
    symmetry. apply polynomial_slide; [lia |]. intros i' Hi'. apply Hcodes. lia.
  - unfold ModelDirect_first. cbn [ModelDirect_base].
    destruct (polynom (built K) cv buffer) as [b v]. exact Hc.
  - unfold ModelDirect_first. cbn [ModelDirect_base].
    pose proof (polynom_loop_value cv buffer K (Z.to_nat K) 0 0 (-1) 0) as Hv.
    unfold polynom in *. cbn [_kmerSize] in *.
    destruct (polynom_loop cv buffer (Z.to_nat K) 0 0 (-1)) as [b v].
    cbn [fst snd] in *. unfold direct_kmer_at, polynomial.
    destruct Hv as [-> _]; try lia.
    + intros i' Hi'. apply Hcodes. lia.
    + f_equal. apply counter_tracks_valid, Hc.
Qed.

(** The decoders of ASCII and of packed binary data give 2-bit codes. *)
Lemma codes_in_range_ASCII (buffer : list Z) (len : Z) :
  codes_in_range ConvertASCII buffer len.
Proof.
  intros i _. cbn [get ConvertASCII fst]. rewrite land3_mod4.
  apply Z.mod_pos_bound. lia.
Qed.

Lemma codes_in_range_BINARY (buffer : list Z) (len : Z) :
  codes_in_range ConvertBinary buffer len.
Proof.
  intros i _. cbn [get ConvertBinary fst]. rewrite land3_mod4.
  apply Z.mod_pos_bound. lia.
Qed.

(** C5 (as amended).  For a buffer of [len] symbols whose number of kmers
    [len-K+1] is below [2^31]: when [len < K], [iterate] and [build] return
    false, call no callback and write no kmer; otherwise they return true
    and deliver exactly [len-K+1] kmers from left to right, with output
    indices [0, 1, ..., len-K]; and with the direct model the kmer
    delivered with output index [j] is the kmer of the window that starts
    at input index [j] (and ends at [j+K-1]). *)
Theorem iterate_build_enough_input {M Kmer : Type} {I : ModelImpl M Kmer}
        (model : M) (data : Data) :
  let K := getKmerSize (impl_base model) in
  let len := size data in
  let log := snd (iterate model data record_callback []) in
  0 <= K < 2 ^ 31 -> 0 <= len -> len - K + 1 < 2 ^ 31 ->
  (len < K ->
     (forall (St : Type) (callback : Kmer -> Z -> St -> St) (st : St),
        iterate model data callback st = (false, st)) /\
     (forall kmersBuffer, build model data kmersBuffer = (false, kmersBuffer)))
  /\
  (K <= len ->
     (forall (St : Type) (callback : Kmer -> Z -> St -> St) (st : St),
        iterate model data callback st
        = (true, fold_left (fun st e => callback (fst e) (snd e) st) log st)) /\
     length log = Z.to_nat (len - K + 1) /\
     map snd log = seqZ 0 (len - K + 1) /\
     (forall kmersBuffer, build model data kmersBuffer = (true, map fst log)))
  /\
  (forall (md : ModelDirect),
     ModelDirect_new K = inr md -> K <= len ->
     codes_in_range (convert_of (getEncoding data)) (getBuffer data) len ->
     snd (iterate md data record_callback [])
     = map (fun j => (direct_kmer_at (convert_of (getEncoding data)) (getBuffer data) K j, j))
           (seqZ 0 (len - K + 1))).
Proof.
  intros K len log HK Hlen Hnb. unfold K, len, getKmerSize in *.
  split; [| split].
  - intros Hshort. split.
    + intros St callback st. rewrite iterate_as_ModelAbstract.
      apply ModelAbstract_iterate_short; lia.
    + intros kmersBuffer. apply build_short; lia.
  - intros Henough.
    assert (Hidx : map snd log = seqZ 0 (size data - _kmerSize (impl_base model) + 1)).
    { unfold log. rewrite iterate_as_ModelAbstract.
      apply (ModelAbstract_iterate_enough model _ _ record_callback []); lia. }
    split; [| split; [| split]].
    + intros St callback st. unfold log. rewrite !iterate_as_ModelAbstract.
      apply ModelAbstract_iterate_enough; lia.
    + rewrite <- (length_map snd), Hidx, length_seqZ. reflexivity.
    + exact Hidx.
    + intros kmersBuffer. apply build_enough; lia.
  - intros md Hmd Henough Hcodes. apply iterate_direct_log; try assumption; lia.
Qed.

(** ** Minimizers *)

Lemma KmerCanonical_set_value (k : KmerCanonical) (val : Z) :
  KmerCanonical_value (KmerCanonical_set k val) = val.
Proof.
  unfold KmerCanonical_set, KmerCanonical_set2. rewrite updateChoice_value.
  cbn [table0 table1]. apply Z.min_id.
Qed.

Section Minimizer.

Variables (K m : Z) (model : ModelMinimizer).
Hypothesis m_supported : mmer_size_supported m.
Hypothesis model_new : ModelMinimizer_new K m ComparatorMinimizer = inr model.

Local Abbreviation nb := (K - m + 1).
Local Abbreviation W fwd i := (window_mmer model fwd i).

Lemma model_fields :
  m < K < span /\
  _kmerModel model = mkModelCanonical (built K) /\
  _cmp model = ComparatorMinimizer /\
  _nbMinimizers model = nb /\
  _mask model = 4 ^ m - 1 /\
  KmerCanonical_value (_minimizerDefault model) = 4 ^ m - 1.
Proof.
  unfold mmer_size_supported in m_supported.
  destruct (ModelMinimizer_new_inr K m ComparatorMinimizer model ltac:(lia) model_new)
    as (HK & Hkm & Hcmp & Hnb & Hmask & _ & Hdef & _).
  repeat (split; [assumption |]). rewrite Hdef.
  cbn [cmp_init ComparatorMinimizer]. unfold getKmerMax. cbn [ModelCanonical_base _kmerMask].
  rewrite kmerMask_value, pow4_as_pow2 by lia. reflexivity.
Qed.

Lemma pow4_m_bounds : 0 < 4 ^ m /\ 4 ^ m < 2 ^ 64.
Proof.
  unfold mmer_size_supported in m_supported. split; [apply pow4_pos; lia |].
  assert (4 ^ m <= 4 ^ 15) by (apply Z.pow_le_mono_r; lia).
  change (4 ^ 15) with 1073741824 in *. change (2 ^ 64) with 18446744073709551616. lia.
Qed.

(** The index of the table is an m-mer, and it fits the low limb. *)
Lemma mmer_index (x : Z) :
  0 <= Z.land x (_mask model) < 4 ^ m /\
  Type_getVal (Z.land x (_mask model)) = Z.land x (_mask model).
Proof.
  destruct model_fields as (_ & _ & _ & _ & Hmask & _).
  destruct pow4_m_bounds as [Hp Hb]. unfold mmer_size_supported in m_supported.
  rewrite Hmask.
  replace (4 ^ m - 1) with (2 ^ (2 * m) - 1) by (rewrite pow4_as_pow2 by lia; reflexivity).
  rewrite land_mask_mod by lia.
  pose proof (Z.mod_pos_bound x (4 ^ m) Hp) as Hx. split; [exact Hx |].
  unfold Type_getVal, u64. apply Z.mod_small. lia.
Qed.

Lemma window_mmer_le_mask (fwd i : Z) : W fwd i <= _mask model.
Proof.
  destruct model_fields as (_ & _ & _ & _ & Hmask & _).
  unfold mmer_size_supported in m_supported.
  unfold window_mmer. destruct (mmer_index (Z.shiftr fwd (2 * i))) as [Hx _].
  rewrite (mmerLut_entry K m ComparatorMinimizer model) by (assumption || lia).
  rewrite mmer_lut_entry_canonical, Hmask by lia.
  rewrite Hmask in Hx.
  destruct (is_allowed _ _); lia.
Qed.

Lemma extract_value (b : KmerCanonical) :
  KmerCanonical_value
    (KmerCanonical_extract b (_mask model) (_shift model) (_mmer_lut model))
  = W (table0 b) 0.
Proof.
  unfold KmerCanonical_extract. rewrite KmerCanonical_set_value.
  destruct (mmer_index (table0 b)) as [_ ->].
  unfold window_mmer, mmerLut. rewrite Z.shiftr_0_r. reflexivity.
Qed.

Lemma window_mmer_shifted (fwd j : Z) : 0 <= j -> W (Z.shiftr fwd (2 * j)) 0 = W fwd j.
Proof. intros Hj. unfold window_mmer. rewrite Z.shiftr_0_r. reflexivity. Qed.

(** The loop of [computeNewMinimizer] scans the m-mers from shift index 0
    upwards, that is from position [nbMinimizers-1] downwards. *)
Lemma computeNewMinimizer_loop_scan (fwd : Z) (n : nat) :
  forall j loop kmer,
    0 <= j -> Z.of_nat n + j = nb ->
    table0 (KmerMinimizer_base loop) = Z.shiftr fwd (2 * j) ->
    scan_state model fwd j (KmerCanonical_value (_minimizer kmer)) (_position kmer) ->
    let kmer' := snd (computeNewMinimizer_loop model n (Z.of_nat n - 1) loop kmer) in
    scan_state model fwd nb (KmerCanonical_value (_minimizer kmer')) (_position kmer').
Proof.
  destruct model_fields as (_ & _ & Hcmp & Hnb & _).
  induction n as [| n IH]; intros j loop kmer Hj Hn Ht Hs kmer'.
  - unfold kmer'. cbn [computeNewMinimizer_loop snd].
    replace nb with j by lia. exact Hs.
  - unfold kmer'. cbn [computeNewMinimizer_loop].
    pose proof (extract_value (KmerMinimizer_base loop)) as He.
    unfold KmerCanonical_extractShift.
    set (mmer := KmerCanonical_extract _ _ _ _) in *.
    rewrite Ht, window_mmer_shifted in He by lia.
    replace (Z.of_nat (S n) - 1 - 1) with (Z.of_nat n - 1) by lia.
    apply (IH (j + 1)); [lia | lia | |].
    + cbn [KmerMinimizer_base updateChoice table0]. unfold Type_shr. rewrite Ht.
      rewrite Z.shiftr_shiftr by lia. f_equal. lia.
    + rewrite Hcmp. cbn [cmp_call ComparatorMinimizer]. rewrite He.
      unfold scan_state in Hs |- *. rewrite Hnb in *.
      destruct Hs as (Hle & Hlow & Hpos).
      pose proof (window_mmer_le_mask fwd j) as Hwj.
      destruct (W fwd j <? KmerCanonical_value (_minimizer kmer)) eqn:E.
      * apply Z.ltb_lt in E. cbn [_minimizer _position]. rewrite He.
        split; [lia |]. split.
        -- intros i Hi. destruct (Z.eq_dec i j) as [-> | Hne]; [lia |].
           specialize (Hlow i ltac:(lia)). lia.
        -- right. split; [lia |]. split; [lia |].
           replace (nb - 1 - (Z.of_nat (S n) - 1)) with j by lia.
           split; [reflexivity |]. intros i Hi. specialize (Hlow i Hi). lia.
      * apply Z.ltb_ge in E. split; [exact Hle |]. split.
        -- intros i Hi. destruct (Z.eq_dec i j) as [-> | Hne]; [lia |].
           apply Hlow. lia.
        -- destruct Hpos as [Hpos | (Hp & Hv & Hw & Hties)]; [left; exact Hpos |].
           right. split; [lia |]. split; [exact Hv |]. split; assumption.
Qed.

Lemma computeNewMinimizer_scan (kmer : KmerMinimizer) :
  let kmer' := computeNewMinimizer model kmer in
  scan_state model (table0 (KmerMinimizer_base kmer)) nb
             (KmerCanonical_value (_minimizer kmer')) (_position kmer').
Proof.
  destruct model_fields as (HK & _ & _ & Hnb & Hmask & Hdef).
  intros kmer'. unfold kmer', computeNewMinimizer. rewrite Hnb.
  pose proof (computeNewMinimizer_loop_scan (table0 (KmerMinimizer_base kmer))
                (Z.to_nat nb) 0) as H.
  rewrite Z2Nat.id in H by lia. apply H; try lia.
  - cbn [KmerMinimizer_base]. rewrite Z.shiftr_0_r. reflexivity.
  - cbn [_minimizer _position]. unfold scan_state. rewrite Hdef, Hmask.
    split; [lia |]. split; [intros i Hi; lia |]. left. split; reflexivity.
Qed.

Lemma computeNewMinimizer_elected (kmer : KmerMinimizer) :
  minimizer_elected model (computeNewMinimizer model kmer).
Proof.
  destruct model_fields as (HK & _ & _ & Hnb & _).
  pose proof (computeNewMinimizer_scan kmer) as Hs. cbv zeta in Hs.
  unfold minimizer_elected, minimizer, position, KmerCanonical_forward.
  rewrite computeNewMinimizer_base. unfold scan_state in Hs. rewrite Hnb in *.
  destruct Hs as (Hle & Hlow & Hpos). split; [exact Hle |]. split; [exact Hlow |].
  destruct Hpos as [Hpos | (Hp & Hv & Hw & _)]; [left; exact Hpos |].
  right. split; [lia |]. split; assumption.
Qed.

(** The m-mers of the window after a slide: the new one enters at shift
    index 0 and the others move up by one. *)
Lemma window_bits (y s w N : Z) :
  0 <= s -> 0 <= w -> s + w <= N ->
  Z.land (Z.shiftr (y mod 2 ^ N) s) (Z.ones w) = Z.land (Z.shiftr y s) (Z.ones w).
Proof.
  intros Hs Hw HN. apply Z.bits_inj'. intros n Hn.
  rewrite !Z.land_spec, !Z.shiftr_spec, Z.testbit_ones_nonneg by lia.
  destruct (n <? w) eqn:E; [| rewrite !andb_false_r; reflexivity].
  apply Z.ltb_lt in E. rewrite Z.mod_pow2_bits_low by lia. reflexivity.
Qed.

Lemma window_slide (fwd c i : Z) :
  0 <= c < 4 -> 0 <= i -> i + 1 + m <= K ->
  W ((4 * fwd + c) mod 4 ^ K) (i + 1) = W fwd i.
Proof.
  intros Hc Hi HiK. destruct model_fields as (HK & _ & _ & _ & Hmask & _).
  unfold mmer_size_supported in m_supported.
  unfold window_mmer. f_equal. rewrite Hmask.
  replace (4 ^ m - 1) with (Z.ones (2 * m))
    by (rewrite Z.ones_equiv, pow4_as_pow2 by lia; lia).
  rewrite <- (pow4_as_pow2 K) by lia.
  rewrite window_bits by lia. f_equal.
  replace (2 * (i + 1)) with (2 + 2 * i) by lia.
  rewrite <- Z.shiftr_shiftr by lia. rewrite shiftr2_div4, div4_add by exact Hc.
  reflexivity.
Qed.

Lemma ModelCanonical_next_forward (c : Z) (b : KmerCanonical) (v : bool) :
  table0 (ModelCanonical_next (_kmerModel model) c b v) = (4 * table0 b + c) mod 4 ^ K.
Proof.
  destruct model_fields as (HK & -> & _).
  unfold mmer_size_supported in m_supported.
  unfold ModelCanonical_next, updateChoice. cbn [table0 ModelCanonical_base _kmerMask].
  rewrite kmerMask_value, slide_forward by lia. reflexivity.
Qed.

Lemma ModelMinimizer_next_elected (c : Z) (k : KmerMinimizer) (v : bool) :
  0 <= c < 4 -> minimizer_elected model k ->
  minimizer_elected model (ModelMinimizer_next model c k v).
Proof.
  intros Hc Hk. destruct model_fields as (HK & _ & Hcmp & Hnb & _).
  unfold mmer_size_supported in m_supported.
  unfold ModelMinimizer_next.
  set (b := ModelCanonical_next (_kmerModel model) c (KmerMinimizer_base k) v).
  set (b' := mkKmerCanonical (table0 b) (table1 b) (choice b) v).
  pose proof (extract_value b') as He. cbn [table0 b'] in He.
  assert (Hf : table0 b = (4 * table0 (KmerMinimizer_base k) + c) mod 4 ^ K)
    by apply ModelCanonical_next_forward.
  rewrite Hcmp. cbn [cmp_call ComparatorMinimizer _minimizer _position]. rewrite He.
  unfold minimizer_elected, minimizer, position, KmerCanonical_forward in Hk.
  rewrite Hnb in Hk. destruct Hk as (Hle & Hlow & Hpos).
  set (fwd := table0 (KmerMinimizer_base k)) in *.
  assert (Hup : forall i, 1 <= i < nb -> W (table0 b) i = W fwd (i - 1)).
  { intros i Hi. rewrite Hf. replace i with (i - 1 + 1) at 1 by lia.
    apply window_slide; lia. }
  destruct (W (table0 b) 0 <? KmerCanonical_value (_minimizer k)) eqn:E.
  - apply Z.ltb_lt in E.
    unfold minimizer_elected, minimizer, position, KmerCanonical_forward.
    cbn [KmerMinimizer_base _minimizer _position table0 b']. rewrite Hnb, He.
    split; [lia |]. split.
    + intros i Hi. destruct (Z.eq_dec i 0) as [-> | Hne]; [lia |].
      rewrite (Hup i) by lia. assert (Hi1 : 0 <= i - 1 < nb) by lia.
      specialize (Hlow (i - 1) Hi1). lia.
    + right. split; [lia |]. split; [lia |].
      replace (nb - 1 - (nb - 1)) with 0 by lia. reflexivity.
  - apply Z.ltb_ge in E. destruct (_position k - 1 <? 0) eqn:Ep.
    + apply computeNewMinimizer_elected.
    + apply Z.ltb_ge in Ep.
      unfold minimizer_elected, minimizer, position, KmerCanonical_forward.
      cbn [KmerMinimizer_base _minimizer _position table0 b']. rewrite Hnb.
      split; [exact Hle |]. split.
      * intros i Hi. destruct (Z.eq_dec i 0) as [-> | Hne]; [lia |].
        rewrite (Hup i) by lia. apply Hlow. lia.
      * destruct Hpos as [[Hp _] | (Hp & Hv & Hw)]; [lia |].
        right. split; [lia |]. split; [exact Hv |].
        rewrite (Hup (nb - 1 - (_position k - 1))) by lia. rewrite <- Hw. f_equal. lia.
Qed.

Lemma ModelMinimizer_produced_elected (k : KmerMinimizer) :
  ModelMinimizer_produced model k -> minimizer_elected model k.
Proof.
  intros Hp. induction Hp as [cv buffer k0 | c k v Hk IH Hc].
  - unfold ModelMinimizer_first.
    destruct (ModelCanonical_first _ cv buffer _) as [r b].
    apply computeNewMinimizer_elected.
  - apply ModelMinimizer_next_elected; assumption.
Qed.

(** C1 (as amended).  For every kmer produced by [first] or by a sequence
    of [next] steps of a minimizer model, the value of the minimizer is the
    minimum over [i] in [0, nbMinimizers) of
    [mmerLut[(forward >> 2i) & mmerMask]]; the position is -1 when that
    minimum is the sentinel [mmerMask], and otherwise a position [p] in
    [0, nbMinimizers) whose m-mer, at shift index [i = nbMinimizers-1-p],
    achieves the minimum (positions count from the left end of the kmer).
    Right after [first], the position is the largest one that achieves the
    minimum: on ties the rightmost occurrence wins.  A [next] step compares
    the m-mer that enters the kmer (shift index 0) with the minimizer: when
    it is strictly smaller it becomes the minimizer, at position
    [nbMinimizers-1]; when it is not and the old position is at least 1, the
    kmer keeps its minimizer, one position lower (a tie with the entering
    m-mer keeps the incumbent); when it is not and the old position is 0 or
    -1, the minimizer is computed afresh and the position is again the
    largest one that achieves the minimum. *)
Theorem minimizer_of_window :
  (forall k, ModelMinimizer_produced model k ->
     let fwd := KmerCanonical_forward (KmerMinimizer_base k) in
     let v := KmerCanonical_value (minimizer k) in
     (forall i, 0 <= i < nb -> v <= W fwd i) /\
     (exists i, 0 <= i < nb /\ W fwd i = v) /\
     ((position k = -1 /\ v = _mask model) \/
      (0 <= position k < nb /\ v < _mask model /\ W fwd (nb - 1 - position k) = v)))
  /\
  (forall cv buffer k0,
     let k := snd (ModelMinimizer_first model cv buffer k0) in
     let fwd := KmerCanonical_forward (KmerMinimizer_base k) in
     let v := KmerCanonical_value (minimizer k) in
     forall p, 0 <= position k < p -> p < nb -> v < W fwd (nb - 1 - p))
  /\
  (forall k c isValid,
     ModelMinimizer_produced model k -> 0 <= c < 4 ->
     let k' := ModelMinimizer_next model c k isValid in
     let fwd' := KmerCanonical_forward (KmerMinimizer_base k') in
     let entering := W fwd' 0 in
     let v := KmerCanonical_value (minimizer k) in
     let v' := KmerCanonical_value (minimizer k') in
     (entering < v -> v' = entering /\ position k' = nb - 1) /\
     (v <= entering -> 1 <= position k ->
      minimizer k' = minimizer k /\ position k' = position k - 1) /\
     (v <= entering -> position k <= 0 ->
      forall p, 0 <= position k' < p -> p < nb -> v' < W fwd' (nb - 1 - p))).
Proof.
  destruct model_fields as (HK & _ & Hcmp & Hnb & _).
  unfold mmer_size_supported in m_supported. split; [| split].
  - intros k Hk fwd v. pose proof (ModelMinimizer_produced_elected k Hk) as He.
    unfold minimizer_elected in He. rewrite Hnb in He. fold fwd v in He.
    destruct He as (Hle & Hlow & Hpos). split; [exact Hlow |]. split; [| exact Hpos].
    destruct Hpos as [[_ Hv] | (Hp & _ & Hw)].
    + exists 0. split; [lia |]. pose proof (window_mmer_le_mask fwd 0).
      specialize (Hlow 0 ltac:(lia)). lia.
    + exists (nb - 1 - position k). split; [lia | exact Hw].
  - intros cv buffer k0 k fwd v p Hp Hpn. subst v fwd k.
    unfold minimizer, position in *. revert Hp. unfold ModelMinimizer_first.
    destruct (ModelCanonical_first _ cv buffer _) as [r b]. cbn [snd]. intros Hp.
    match goal with
    | |- context [computeNewMinimizer model ?x] => pose proof (computeNewMinimizer_scan x) as Hs
    end.
    cbv zeta in Hs. unfold KmerCanonical_forward. rewrite computeNewMinimizer_base.
    cbn [KmerMinimizer_base] in *. unfold scan_state in Hs. rewrite Hnb in Hs.
    destruct Hs as (Hle & Hlow & [[Hm1 Hv] | (Hpr & Hv & Hw & Hties)]).
    + lia.
    + apply Hties. lia.
  - intros k c isValid Hk Hc k' fwd' entering v v'.
    set (b := ModelCanonical_next (_kmerModel model) c (KmerMinimizer_base k) isValid).
    set (b' := mkKmerCanonical (table0 b) (table1 b) (choice b) isValid).
    pose proof (extract_value b') as He. cbn [table0 b'] in He.
    set (aged := mkKmerMinimizer b' (_minimizer k) (_position k - 1) false).
    assert (Hnext : k' = if W (table0 b) 0 <? v
                         then mkKmerMinimizer b'
                                (KmerCanonical_extract b' (_mask model) (_shift model)
                                                       (_mmer_lut model))
                                (_nbMinimizers model - 1) true
                         else if _position k - 1 <? 0
                              then computeNewMinimizer model aged
                              else aged).
    { unfold k', ModelMinimizer_next. fold b. fold b'. rewrite Hcmp.
      cbn [cmp_call ComparatorMinimizer _minimizer _position]. rewrite He. reflexivity. }
    assert (Hfwd : fwd' = table0 b).
    { unfold fwd', KmerCanonical_forward. rewrite Hnext.
      destruct (_ <? v); [reflexivity |].
      destruct (_ <? 0); [rewrite computeNewMinimizer_base |]; reflexivity. }
    unfold entering, v'. rewrite Hfwd. unfold minimizer, position. rewrite Hnext.
    destruct (W (table0 b) 0 <? v) eqn:E.
    + apply Z.ltb_lt in E. cbn [_minimizer _position]. rewrite He, Hnb.
      split; [intros _; split; reflexivity |]. split; intros; lia.
    + apply Z.ltb_ge in E. destruct (_position k - 1 <? 0) eqn:Ep.
      * apply Z.ltb_lt in Ep. split; [intros; lia |]. split; [unfold position; intros; lia |].
        intros _ _ p Hp Hpn.
        pose proof (computeNewMinimizer_scan aged) as Hs. cbv zeta in Hs.
        cbn [KmerMinimizer_base aged table0 b'] in Hs. unfold scan_state in Hs.
        rewrite Hnb in Hs.
        destruct Hs as (_ & _ & [[Hm1 _] | (_ & _ & _ & Hties)]); [lia |].
        apply Hties. lia.
      * apply Z.ltb_ge in Ep. cbn [_minimizer _position aged].
        split; [intros; lia |]. split; [intros _ _; split; reflexivity |].
        unfold position. intros; lia.
Qed.

End Minimizer.

(** ** The codec of super kmers *)

Lemma Type_getSize_ge_64 : 0 <= span -> 0 <= Type_getSize.
Proof. intros H. unfold Type_getSize, precision. Z.div_mod_to_equations. lia. Qed.

(** The steps of [load] on the two strands. *)
Lemma load_forward_step (K t c : Z) :
  0 <= K < span -> 0 <= c < 4 ->
  Z.land (Z.lor (Type_shl t 2) c) (2 ^ (2 * K) - 1) = (4 * t + c) mod 4 ^ K.
Proof.
  intros HK Hc. pose proof (Type_getSize_bound K HK) as Hb.
  rewrite land_mask_mod by lia. unfold Type_shl, Type_wrap. rewrite shiftl2_mul4.
  replace (2 ^ Type_getSize) with (4 * 2 ^ (Type_getSize - 2))
    by (change 4 with (2 ^ 2); rewrite <- Z.pow_add_r by lia; f_equal; lia).
  rewrite Z.mul_mod_distr_l by (try apply Z.pow_nonzero; lia).
  rewrite lor_shift_code by exact Hc.
  rewrite <- Z.mul_mod_distr_l by (try apply Z.pow_nonzero; lia).
  replace (4 * 2 ^ (Type_getSize - 2)) with (2 ^ Type_getSize)
    by (change 4 with (2 ^ 2); rewrite <- Z.pow_add_r by lia; f_equal; lia).
  rewrite <- Zplus_mod_idemp_l.
  change ((4 * t) mod 2 ^ Type_getSize) with (Type_wrap (4 * t)).
  rewrite Type_wrap_mod_pow4, Zplus_mod_idemp_l by exact HK. reflexivity.
Qed.

Lemma load_revcomp_step (K rev c : Z) :
  1 <= K < span -> 0 <= c < 4 -> 0 <= rev < 4 ^ K ->
  Z.land (Z.lor (Type_shr rev 2)
                (Type_shl (comp_NT_at (Type_getVal c)) (u64 (2 * (K - 1)))))
         (2 ^ (2 * K) - 1)
  = rev / 4 + Z.lxor c 2 * 4 ^ (K - 1).
Proof.
  intros HK Hc Hrev.
  assert (Hv : Type_getVal c = c)
    by (unfold Type_getVal, u64; apply Z.mod_small;
        change (2 ^ 64) with 18446744073709551616; lia).
  rewrite Hv, complement_shifted by assumption.
  unfold Type_shr. rewrite shiftr2_div4.
  assert (H4 : 4 ^ K = 4 * 4 ^ (K - 1))
    by (rewrite <- pow4_succ by lia; f_equal; lia).
  pose proof (pow4_pos (K - 1) ltac:(lia)) as Hp.
  assert (Hq : 0 <= rev / 4 < 4 ^ (K - 1))
    by (split; [apply Z.div_pos; lia | apply Z.div_lt_upper_bound; lia]).
  pose proof (complement_range c Hc) as Hd.
  rewrite lor_disjoint_add.
  - rewrite land_mask_mod by lia. apply Z.mod_small. nia.
  - rewrite <- (pow4_as_pow2 (K - 1)) by lia. apply land_low_high; [lia |].
    rewrite pow4_as_pow2 by lia. exact Hq.
Qed.

(** [save]: the loop writes the last nucleotide of each kmer as a digit. *)
Lemma save_loop_digits (sk : SuperKmer) (n : nat) :
  forall ii acc t,
    0 <= t -> 0 <= acc < 4 ^ t -> 2 * (t + Z.of_nat n) <= Type_getSize ->
    let P := save_loop sk n ii acc in
    0 <= P < 4 ^ (t + Z.of_nat n) /\
    (forall j, 0 <= j < Z.of_nat n ->
       (P / 4 ^ j) mod 4
       = KmerCanonical_forward (KmerMinimizer_base
           (SuperKmer_at sk (ii + Z.of_nat n - 1 - j))) mod 4) /\
    P / 4 ^ Z.of_nat n = acc.
Proof.
  induction n as [| n IH]; intros ii acc t Ht Hacc Hsize P.
  - unfold P. cbn [save_loop]. rewrite Z.add_0_r. simpl (4 ^ Z.of_nat 0).
    rewrite Z.div_1_r. split; [exact Hacc |]. split; [intros j Hj; lia | reflexivity].
  - unfold P. cbn [save_loop].
    set (d := Z.land (KmerCanonical_forward (KmerMinimizer_base (SuperKmer_at sk ii))) 3).
    assert (Hd : d = KmerCanonical_forward (KmerMinimizer_base (SuperKmer_at sk ii)) mod 4)
      by apply land3_mod4.
    assert (Hdr : 0 <= d < 4) by (rewrite Hd; apply Z.mod_pos_bound; lia).
    assert (Hstep : Z.lor (Type_shl acc 2) d = 4 * acc + d).
    { unfold Type_shl. rewrite shiftl2_mul4, Type_wrap_small, lor_shift_code; try lia.
      assert (4 ^ (t + 1) <= 2 ^ Type_getSize).
      { rewrite <- pow4_as_pow2 by lia. apply Z.pow_le_mono_r; lia. }
      rewrite pow4_succ in * by lia. lia. }
    rewrite Hstep.
    assert (Hacc' : 0 <= 4 * acc + d < 4 ^ (t + 1)) by (rewrite pow4_succ by lia; lia).
    destruct (IH (ii + 1) (4 * acc + d) (t + 1) ltac:(lia) Hacc' ltac:(lia))
      as (Hr & Hdig & Htop).
    set (Q := save_loop sk n (ii + 1) (4 * acc + d)) in *.
    replace (t + Z.of_nat (S n)) with (t + 1 + Z.of_nat n) by lia.
    split; [exact Hr |]. split.
    + intros j Hj. destruct (Z.eq_dec j (Z.of_nat n)) as [-> | Hne].
      * rewrite Htop, mod4_add by exact Hdr. rewrite Hd. f_equal. f_equal. f_equal.
        f_equal. lia.
      * rewrite Hdig by lia. f_equal. f_equal. f_equal. f_equal. lia.
    + rewrite Nat2Z.inj_succ, <- Z.add_1_r, pow4_succ by lia.
      rewrite (Z.mul_comm 4), <- Z.div_div by (try apply pow4_pos; lia).
      rewrite Htop. apply div4_add. exact Hdr.
Qed.

(** The two words [save] emits: the payload with the count in the top
    eight bits, then the seed. *)
Lemma superk_count (P L : Z) :
  8 <= Type_getSize -> 0 <= P < 2 ^ (Type_getSize - 8) -> 0 <= L < 256 ->
  u8 (Z.land (Type_getVal (Type_shr (P + L * 2 ^ (Type_getSize - 8)) (Type_getSize - 8))) 255)
  = L.
Proof.
  intros Hs HP HL. unfold Type_shr. rewrite Z.shiftr_div_pow2 by lia.
  rewrite Z.div_add, Z.div_small by (try apply Z.pow_nonzero; lia).
  unfold Type_getVal, u64, u8. change 255 with (Z.ones 8).
  rewrite Z.land_ones by lia. change (2 ^ 8) with 256.
  change (2 ^ 64) with 18446744073709551616.
  rewrite (Z.mod_small (0 + L)) by lia. rewrite Z.mod_mod by lia.
  apply Z.mod_small. lia.
Qed.

Lemma superk_digit (P L j : Z) :
  0 <= j -> 2 * j + 2 <= Type_getSize - 8 -> 0 <= P < 2 ^ (Type_getSize - 8) ->
  Z.land (Type_shr (P + L * 2 ^ (Type_getSize - 8)) (2 * j)) 3 = (P / 4 ^ j) mod 4.
Proof.
  intros Hj Hs HP. unfold Type_shr. change 3 with (Z.ones 2).
  rewrite <- (window_bits _ (2 * j) 2 (Type_getSize - 8)) by lia.
  rewrite Z.mod_add, Z.mod_small by (try apply Z.pow_nonzero; lia).
  rewrite Z.land_ones, Z.shiftr_div_pow2, pow4_as_pow2 by lia. reflexivity.
Qed.

Lemma load_loop_step (kmerMask shift superk : Z) (n : nat) (ii rem temp rev_temp : Z)
      (kmers0 : list KmerMinimizer) :
  load_loop kmerMask shift superk (S n) ii rem temp rev_temp kmers0
  = if rem <? 2 then alter (stored rev_temp temp) (Z.to_nat ii) kmers0
    else
      let newnt := Z.land (Type_shr superk (2 * (rem - 2))) 3 in
      load_loop kmerMask shift superk n (ii + 1) (u8 (rem - 1))
        (Z.land (Z.lor (Type_shl temp 2) newnt) kmerMask)
        (Z.land (Z.lor (Type_shr rev_temp 2)
                       (Type_shl (comp_NT_at (Type_getVal newnt)) shift)) kmerMask)
        (alter (stored rev_temp temp) (Z.to_nat ii) kmers0).
Proof. reflexivity. Qed.

(** [load]: the loop rebuilds the forward values of the run from the seed
    and the digits of the payload, and their reverse complements, and
    stores each pair with [set (rev_temp, temp)]. *)
Lemma load_loop_run (K superk : Z) :
  1 <= K < span ->
  forall fs f ii rem rev kmers0,
    0 <= ii -> rem = Z.of_nat (length fs) + 1 -> rem <= 255 ->
    rev = revcomp f K -> forward_chain K f fs ->
    (forall t x, fs !! t = Some x ->
       Z.land (Type_shr superk (2 * (rem - 2 - Z.of_nat t))) 3 = x mod 4) ->
    let result := load_loop (2 ^ (2 * K) - 1) (u64 (2 * (K - 1))) superk
                            (S (length fs)) ii rem f rev kmers0 in
    length result = length kmers0 /\
    (forall j, (j < Z.to_nat ii)%nat -> result !! j = kmers0 !! j) /\
    (forall t x, (f :: fs) !! t = Some x ->
       result !! (Z.to_nat ii + t)%nat
       = stored (revcomp x K) x <$> kmers0 !! (Z.to_nat ii + t)%nat).
Proof.
  intros HK. induction fs as [| f' fs IH];
    intros f ii rem rev kmers0 Hii Hrem Hmax Hrev Hchain Hdig result.
  - unfold result. cbn [length] in Hrem |- *. rewrite load_loop_step.
    replace (rem <? 2) with true by (symmetry; apply Z.ltb_lt; lia).
    split; [apply length_alter |]. split.
    + intros j Hj. apply list_lookup_alter_ne. lia.
    + intros [| t] x Hx; [| discriminate]. cbn in Hx. inversion Hx; subst x.
      rewrite Nat.add_0_r, list_lookup_alter_eq, Hrev. reflexivity.
  - cbn [length] in Hrem. destruct Hchain as [[c [Hc Hf']] Hchain].
    assert (Hnt : Z.land (Type_shr superk (2 * (rem - 2))) 3 = c).
    { rewrite <- (Z.sub_0_r (rem - 2)). change 0 with (Z.of_nat 0).
      rewrite (Hdig 0%nat f' eq_refl), Hf'.
      rewrite Z.mod_mod_divide
        by (exists (4 ^ (K - 1)); rewrite Z.mul_comm, <- pow4_succ by lia; f_equal; lia).
      apply mod4_add. exact Hc. }
    pose proof (revcomp_range f K ltac:(lia)) as Hr.
    unfold result. cbn [length]. rewrite load_loop_step. cbv zeta.
    replace (rem <? 2) with false by (symmetry; apply Z.ltb_ge; lia).
    rewrite Hnt, load_forward_step, <- Hf' by lia.
    rewrite Hrev, load_revcomp_step by (assumption || lia).
    rewrite <- revcomp_slide, <- Hf' by lia.
    replace (u8 (rem - 1)) with (rem - 1)
      by (unfold u8; symmetry; apply Z.mod_small; change (2 ^ 8) with 256; lia).
    set (kmers1 := alter (stored (revcomp f K) f) (Z.to_nat ii) kmers0).
    destruct (IH f' (ii + 1) (rem - 1) (revcomp f' K) kmers1) as (Hlen & Hbelow & Hrun);
      try lia; try reflexivity; try assumption.
    { intros t x Hx.
      replace (rem - 1 - 2 - Z.of_nat t) with (rem - 2 - Z.of_nat (S t)) by lia.
      apply (Hdig (S t) x Hx). }
    split; [rewrite Hlen; apply length_alter |]. split.
    + intros j Hj. rewrite Hbelow by lia. apply list_lookup_alter_ne. lia.
    + intros [| t] x Hx.
      * cbn in Hx. inversion Hx; subst x. rewrite Nat.add_0_r.
        rewrite Hbelow by lia. unfold kmers1. rewrite list_lookup_alter_eq.
        reflexivity.
      * cbn [lookup list_lookup] in Hx.
        replace (Z.to_nat ii + S t)%nat with (Z.to_nat (ii + 1) + t)%nat by lia.
        rewrite (Hrun t x Hx). unfold kmers1. rewrite list_lookup_alter_ne by lia.
        reflexivity.
Qed.

Lemma canonical_pair_value (K : Z) (b : KmerCanonical) :
  canonical_pair K b -> KmerCanonical_value b = Z.min (table0 b) (table1 b).
Proof.
  intros [_ Hc]. unfold KmerCanonical_value. rewrite Hc.
  destruct (table0 b <? table1 b) eqn:E; simpl;
    [apply Z.ltb_lt in E | apply Z.ltb_ge in E]; lia.
Qed.

Section Codec.

Variables (K m : Z) (model : ModelMinimizer).
Hypothesis m_supported : mmer_size_supported m.
Hypothesis model_new : ModelMinimizer_new K m ComparatorMinimizer = inr model.

Lemma codec_sizes : 1 <= K < span /\ _kmerModel model = mkModelCanonical (built K).
Proof.
  destruct (model_fields K m model m_supported model_new) as (HK & Hkm & _).
  unfold mmer_size_supported in m_supported. split; [lia | exact Hkm].
Qed.

Lemma ModelMinimizer_next_base (c : Z) (k : KmerMinimizer) (v : bool) :
  KmerMinimizer_base (ModelMinimizer_next model c k v)
  = mkKmerCanonical
      (table0 (ModelCanonical_next (_kmerModel model) c (KmerMinimizer_base k) v))
      (table1 (ModelCanonical_next (_kmerModel model) c (KmerMinimizer_base k) v))
      (choice (ModelCanonical_next (_kmerModel model) c (KmerMinimizer_base k) v))
      v.
Proof.
  unfold ModelMinimizer_next. cbn [_minimizer _position].
  destruct (cmp_call _ _ _); [reflexivity |].
  destruct (_ <? 0); [rewrite computeNewMinimizer_base |]; reflexivity.
Qed.

Lemma ModelMinimizer_next_pair (c : Z) (k : KmerMinimizer) (v : bool) :
  0 <= c < 4 -> canonical_pair K (KmerMinimizer_base k) ->
  canonical_pair K (KmerMinimizer_base (ModelMinimizer_next model c k v)) /\
  table0 (KmerMinimizer_base (ModelMinimizer_next model c k v))
  = (4 * table0 (KmerMinimizer_base k) + c) mod 4 ^ K.
Proof.
  intros Hc [Hrc _]. destruct codec_sizes as [HK Hkm].
  rewrite ModelMinimizer_next_base, Hkm.
  assert (Hnew : ModelCanonical_new K = inr (mkModelCanonical (built K))).
  { unfold ModelCanonical_new, ModelAbstract_new, bind.
    rewrite (proj2 (Z.leb_gt span K)) by lia. reflexivity. }
  destruct (ModelCanonical_next_tables K c (mkModelCanonical (built K))
              (KmerMinimizer_base k) v ltac:(lia) Hnew Hc Hrc) as [H0 H1].
  cbn [table0 table1 choice]. split; [split |].
  - rewrite H1, H0. reflexivity.
  - reflexivity.
  - exact H0.
Qed.

Lemma ModelMinimizer_produced_pair (k : KmerMinimizer) :
  ModelMinimizer_produced model k -> canonical_pair K (KmerMinimizer_base k).
Proof.
  intros Hp. destruct codec_sizes as [HK Hkm].
  induction Hp as [cv buffer k0 | c k v Hk IH Hc].
  - unfold ModelMinimizer_first, ModelCanonical_first. rewrite Hkm.
    cbn [ModelCanonical_base]. destruct (polynom _ cv buffer) as [r f].
    cbn [snd]. rewrite computeNewMinimizer_base. cbn [KmerMinimizer_base].
    split; reflexivity.
  - apply ModelMinimizer_next_pair; assumption.
Qed.

Lemma kmers_chain_forwards (ks : list KmerMinimizer) :
  forall k,
    canonical_pair K (KmerMinimizer_base k) -> kmers_chain model k ks ->
    forward_chain K (table0 (KmerMinimizer_base k))
                  (map (fun k' => table0 (KmerMinimizer_base k')) ks) /\
    (forall i s, (k :: ks) !! i = Some s -> canonical_pair K (KmerMinimizer_base s)).
Proof.
  induction ks as [| k' ks IH]; intros k Hk Hchain.
  - split; [exact I |]. intros [| i] s Hs; [| discriminate].
    cbn in Hs. inversion Hs; subst s. exact Hk.
  - destruct Hchain as [(c & v & Hc & ->) Hchain].
    destruct (ModelMinimizer_next_pair c k v Hc Hk) as [Hk' Hf].
    destruct (IH _ Hk' Hchain) as [Hfs Hall]. split.
    + cbn [map forward_chain]. split; [exists c; split; assumption | exact Hfs].
    + intros [| i] s Hs.
      * cbn in Hs. inversion Hs; subst s. exact Hk.
      * apply (Hall i s Hs).
Qed.

(** [load] after [save].  For a run of [L] consecutive kmers with
    [1 <= L <= 255] that fits the payload, [2(L-1) + 8 <= totalBits],
    [load] applied to the two words [save] emits writes [L] kmers; the one
    at index [i] has the canonical [value()] of the kmer at index [i] of
    the run, and holds its two strand words in swapped slots, since [load]
    calls [set (rev_temp, temp)]. *)
Lemma superkmer_load_after_save (sk dst : SuperKmer) :
  let L := SuperKmer_size sk in
  let ks := SuperKmer_run sk in
  consecutive_run model ks ->
  1 <= L <= 255 -> 2 * (L - 1) + 8 <= Type_getSize ->
  kmerSize dst = K -> L <= Z.of_nat (length (kmers dst)) ->
  exists dst',
    SuperKmer_load dst (SuperKmer_save sk []) = Some dst' /\
    length (kmers dst') = length (kmers dst) /\
    forall i s, ks !! i = Some s ->
      exists d, kmers dst' !! i = Some d /\
        KmerCanonical_value (KmerMinimizer_base d)
        = KmerCanonical_value (KmerMinimizer_base s) /\
        KmerCanonical_forward (KmerMinimizer_base d)
        = KmerCanonical_revcomp (KmerMinimizer_base s) /\
        KmerCanonical_revcomp (KmerMinimizer_base d)
        = KmerCanonical_forward (KmerMinimizer_base s).
Proof.
  intros L ks Hrun HL Hsize HK Hdst. destruct codec_sizes as [HKs _].
  (* the run *)
  assert (Hks : ks = SuperKmer_at sk 0
                     :: map (SuperKmer_at sk) (seqZ 1 (L - 1))).
  { unfold ks, SuperKmer_run. fold L. rewrite (seqZ_cons 0) by lia. reflexivity. }
  rewrite Hks in Hrun. destruct Hrun as [Hprod Hchain].
  pose proof (ModelMinimizer_produced_pair _ Hprod) as Hpair0.
  destruct (kmers_chain_forwards _ _ Hpair0 Hchain) as [Hfs Hpairs].
  set (k0 := SuperKmer_at sk 0) in *.
  set (rest := map (SuperKmer_at sk) (seqZ 1 (L - 1))) in *.
  set (fs := map (fun k' => table0 (KmerMinimizer_base k')) rest) in *.
  assert (Hlen : length fs = Z.to_nat (L - 1)).
  { unfold fs, rest. rewrite !length_map, length_seqZ. reflexivity. }
  assert (Hfs_at : forall t x, fs !! t = Some x ->
            x = table0 (KmerMinimizer_base (SuperKmer_at sk (1 + Z.of_nat t)))).
  { intros t x Hx. unfold fs, rest in Hx.
    change (map ?f ?l) with (f <$> l) in Hx.
    rewrite !list_lookup_fmap in Hx.
    destruct (seqZ 1 (L - 1) !! t) as [j |] eqn:Ej; [| discriminate].
    apply lookup_seqZ in Ej as [-> _]. cbn in Hx. inversion Hx. reflexivity. }
  (* the words of save *)
  destruct (save_loop_digits sk (Z.to_nat (L - 1)) 1 0 0) as (HP & Hdig & _);
    [lia | simpl; lia | lia |].
  set (P := save_loop sk (Z.to_nat (L - 1)) 1 0) in *.
  rewrite Z.add_0_l, Z2Nat.id in HP by lia.
  assert (HPs : 0 <= P < 2 ^ (Type_getSize - 8)).
  { split; [lia |]. apply Z.lt_le_trans with (4 ^ (L - 1)); [lia |].
    rewrite <- pow4_as_pow2 by lia. apply Z.pow_le_mono_r; lia. }
  assert (Hp8 : 0 < 2 ^ (Type_getSize - 8)) by (apply Z.pow_pos_nonneg; lia).
  assert (Hsplit : 2 ^ Type_getSize = 256 * 2 ^ (Type_getSize - 8)).
  { change 256 with (2 ^ 8). rewrite <- Z.pow_add_r by lia. f_equal. lia. }
  assert (Hsave : SuperKmer_save sk []
                  = [P + L * 2 ^ (Type_getSize - 8);
                     KmerCanonical_forward (KmerMinimizer_base k0)]).
  { unfold SuperKmer_save. fold L. fold P. cbn [app]. f_equal.
    rewrite (Type_wrap_small L) by nia.
    unfold Type_shl. rewrite Z.shiftl_mul_pow2 by lia.
    rewrite Type_wrap_small by nia.
    apply lor_disjoint_add, land_low_high; lia. }
  (* load *)
  rewrite Hsave. unfold SuperKmer_load. rewrite HK.
  rewrite kmerMask_value by lia. rewrite superk_count by lia.
  replace (Z.to_nat L) with (S (length fs)) by lia.
  destruct (load_loop_run K (P + L * 2 ^ (Type_getSize - 8)) HKs fs
              (KmerCanonical_forward (KmerMinimizer_base k0)) 0 L
              (revcomp (KmerCanonical_forward (KmerMinimizer_base k0)) K)
              (kmers dst)) as (Hl & _ & Hget); try lia; try reflexivity.
  { exact Hfs. }
  { intros t x Hx. pose proof (lookup_lt_Some _ _ _ Hx) as Ht.
    rewrite superk_digit by lia.
    rewrite Hdig by lia. rewrite (Hfs_at t x Hx). unfold KmerCanonical_forward.
    f_equal. f_equal. f_equal. f_equal. lia. }
  eexists. split; [reflexivity |]. cbn [kmers]. split; [exact Hl |].
  intros i s Hs. rewrite Hks in Hs.
  pose proof (Hpairs i s Hs) as Hpair.
  assert (Hi : (i < length (kmers dst))%nat).
  { apply lookup_lt_Some in Hs. cbn [length] in Hs. unfold rest in Hs.
    rewrite length_map, length_seqZ in Hs. lia. }
  destruct (lookup_lt_is_Some_2 _ _ Hi) as [k' Hk'].
  assert (Hx : (KmerCanonical_forward (KmerMinimizer_base k0) :: fs) !! i
               = Some (table0 (KmerMinimizer_base s))).
  { destruct i as [| i].
    - cbn in Hs |- *. inversion Hs. reflexivity.
    - change (fs !! i = Some (table0 (KmerMinimizer_base s))).
      change (rest !! i = Some s) in Hs.
      unfold fs. change (map ?f ?l) with (f <$> l). rewrite list_lookup_fmap, Hs.
      reflexivity. }
  specialize (Hget i _ Hx). rewrite Nat.add_0_l, Hk' in Hget. cbn in Hget.
  eexists. split; [exact Hget |].
  unfold stored, KmerCanonical_set2, KmerCanonical_forward, KmerCanonical_revcomp.
  cbn [KmerMinimizer_base]. rewrite updateChoice_value. cbn [table0 table1 updateChoice].
  rewrite (canonical_pair_value K _ Hpair). destruct Hpair as [Hrc _].
  rewrite <- Hrc. split; [apply Z.min_comm |]. split; reflexivity.
Qed.

End Codec.

(* ===================================================================== *)
(** * Part III.  Further properties of the code                           *)
(* ===================================================================== *)

(** ** The minimizer model as a canonical model *)

Lemma ModelMinimizer_new_models (K m : Z) (cmp : Comparator) (model : ModelMinimizer) :
  ModelMinimizer_new K m cmp = inr model ->
  ModelCanonical_new K = inr (_kmerModel model) /\
  ModelMinimizer_base model = ModelCanonical_base (_kmerModel model).
Proof.
  unfold ModelMinimizer_new, ModelCanonical_new, bind.
  destruct (ModelAbstract_new K) as [e | base]; [discriminate |].
  destruct (ModelAbstract_new m) as [e | mini]; [discriminate |].
  destruct (K <=? m); [discriminate |].
  intros H. injection H as <-. split; reflexivity.
Qed.

Lemma ModelMinimizer_next_as_canonical (model : ModelMinimizer) (c : Z)
      (k : KmerMinimizer) (v : bool) :
  KmerMinimizer_base (ModelMinimizer_next model c k v)
  = ModelCanonical_next (_kmerModel model) c (KmerMinimizer_base k) v.
Proof.
  unfold ModelMinimizer_next.
  set (b := ModelCanonical_next (_kmerModel model) c (KmerMinimizer_base k) v).
  assert (Hb : mkKmerCanonical (table0 b) (table1 b) (choice b) v = b) by reflexivity.
  rewrite Hb.
  destruct (cmp_call _ _ _); [reflexivity |].
  cbn [_position]. destruct (_ <? 0); [| reflexivity].
  apply computeNewMinimizer_base.
Qed.

Lemma ModelMinimizer_first_as_canonical (model : ModelMinimizer) (cv : Convert)
      (seq : list Z) (k : KmerMinimizer) :
  fst (ModelMinimizer_first model cv seq k)
  = fst (ModelCanonical_first (_kmerModel model) cv seq (KmerMinimizer_base k)) /\
  KmerMinimizer_base (snd (ModelMinimizer_first model cv seq k))
  = snd (ModelCanonical_first (_kmerModel model) cv seq (KmerMinimizer_base k)).
Proof.
  unfold ModelMinimizer_first.
  destruct (ModelCanonical_first _ _ _ _) as [r b]. cbn [fst snd].
  split; [reflexivity | apply computeNewMinimizer_base].
Qed.

Lemma iterate_loop_minimizer_base (model : ModelMinimizer) (cv : Convert) (seq : list Z)
      (n : nat) :
  ModelMinimizer_base model = ModelCanonical_base (_kmerModel model) ->
  forall idx b r ic,
    map (fun e => (KmerMinimizer_base (fst e), snd e))
        (iterate_loop (ModelImpl0 := ModelMinimizer_impl) model cv seq record_callback
                      n idx b r ic [])
    = iterate_loop (ModelImpl0 := ModelCanonical_impl) (_kmerModel model) cv seq
                   record_callback n idx b (KmerMinimizer_base r) ic [].
Proof.
  intros Hbase. induction n as [| n IH]; intros idx b r ic; [reflexivity |].
  rewrite (iterate_loop_record_step (I := ModelMinimizer_impl)).
  rewrite (iterate_loop_record_step (I := ModelCanonical_impl)).
  cbn [map fst snd impl_base impl_next ModelMinimizer_impl ModelCanonical_impl].
  rewrite IH, ModelMinimizer_next_as_canonical, Hbase. reflexivity.
Qed.

(** X1.  "This model acts as a Model instance and adds minimizer
    information to the Kmer type": over any data, the minimizer model
    delivers as many kmers as the canonical model [_kmerModel] it holds,
    with the same indices, and the canonical part of each kmer is the kmer
    the canonical model delivers. *)
Theorem iterate_minimizer_as_canonical (K m : Z) (cmp : Comparator)
        (model : ModelMinimizer) (data : Data) :
  ModelMinimizer_new K m cmp = inr model ->
  ModelCanonical_new K = inr (_kmerModel model) /\
  fst (iterate model data record_callback [])
  = fst (iterate (_kmerModel model) data record_callback []) /\
  map (fun e => (KmerMinimizer_base (fst e), snd e))
      (snd (iterate model data record_callback []))
  = snd (iterate (_kmerModel model) data record_callback []).
Proof.
  intros Hnew. destruct (ModelMinimizer_new_models K m cmp model Hnew) as [Hc Hbase].
  split; [exact Hc |].
  rewrite !iterate_as_ModelAbstract. unfold ModelAbstract_iterate.
  cbn [impl_base impl_first impl_uninit ModelMinimizer_impl ModelCanonical_impl].
  rewrite Hbase. destruct (_ <=? 0); [split; reflexivity |].
  destruct (ModelMinimizer_first_as_canonical model (convert_of (getEncoding data))
              (getBuffer data) KmerMinimizer_uninit) as [Hf Hs].
  change (KmerMinimizer_base KmerMinimizer_uninit) with KmerCanonical_uninit in Hf, Hs.
  destruct (ModelMinimizer_first _ _ _ _) as [r k].
  destruct (ModelCanonical_first _ _ _ _) as [r' k'].
  cbn [fst snd] in *. subst r' k'. split; [reflexivity |].
  unfold notification, record_callback. cbn [app].
  rewrite (iterate_loop_record_app (I := ModelMinimizer_impl)).
  rewrite (iterate_loop_record_app (I := ModelCanonical_impl)).
  rewrite map_app. cbn [map fst snd app]. f_equal.
  apply iterate_loop_minimizer_base, Hbase.
Qed.

(** ** The kmers of the canonical model *)

Lemma ModelCanonical_next_eta (model : ModelCanonical) (c : Z) (k : KmerCanonical)
      (v : bool) :
  let k' := ModelCanonical_next model c k v in
  k' = mkKmerCanonical (table0 k') (table1 k')
                       (if table0 k' <? table1 k' then 0 else 1) v.
Proof. reflexivity. Qed.

Lemma ModelCanonical_first_at (K : Z) (model : ModelCanonical) (cv : Convert)
      (buffer : list Z) (k0 : KmerCanonical) :
  ModelCanonical_new K = inr model -> 0 <= K ->
  (forall i, 0 <= i < K -> 0 <= fst (get cv buffer i) < 4) ->
  snd (ModelCanonical_first model cv buffer k0) = canonical_kmer_at cv buffer K 0.
Proof.
  intros Hnew HK Hcodes. apply ModelCanonical_new_inr in Hnew as [Hs ->].
  pose proof (polynom_counter (built K) cv buffer ltac:(cbn; lia)) as Hc.
  unfold ModelCanonical_first. cbn [ModelCanonical_base].
  pose proof (polynom_loop_value cv buffer K (Z.to_nat K) 0 0 (-1) 0) as Hv.
  unfold polynom in *. cbn [_kmerSize] in *.
  destruct (polynom_loop cv buffer (Z.to_nat K) 0 0 (-1)) as [b v].
  cbn [fst snd] in *. unfold canonical_kmer_at, polynomial.
  destruct Hv as [-> _]; try lia.
  - intros i' Hi'. apply Hcodes. lia.
  - unfold updateChoice, reverse. cbn [table0 table1 KmerCanonical_isValid _kmerSize].
    f_equal. apply counter_tracks_valid, Hc.
Qed.

Lemma iterate_canonical_log (K : Z) (model : ModelCanonical) (data : Data) :
  ModelCanonical_new K = inr model ->
  1 <= K <= size data -> size data - K + 1 < 2 ^ 31 ->
  codes_in_range (convert_of (getEncoding data)) (getBuffer data) (size data) ->
  snd (iterate model data record_callback [])
  = map (fun j => (canonical_kmer_at (convert_of (getEncoding data)) (getBuffer data) K j, j))
        (seqZ 0 (size data - K + 1)).
Proof.
  intros Hnew HK Hlen Hcodes. rewrite iterate_as_ModelAbstract.
  pose proof Hnew as Hnew'.
  apply ModelCanonical_new_inr in Hnew' as [Hs Hm].
  set (cv := convert_of (getEncoding data)) in *.
  set (buffer := getBuffer data) in *.
  assert (HKm : _kmerSize (impl_base model) = K) by (rewrite Hm; reflexivity).
  set (log := snd (ModelAbstract_iterate model cv buffer (size data) record_callback [])).
  assert (Hidx : map snd log = seqZ 0 (size data - K + 1)).
  { rewrite <- HKm.
    apply (ModelAbstract_iterate_enough model cv buffer record_callback [] (size data));
      rewrite HKm; lia. }
  assert (Hl : Z.of_nat (length log) = size data - K + 1).
  { rewrite <- (length_map snd), Hidx, length_seqZ. lia. }
  rewrite <- Hl. apply list_eq_map_seqZ. intros t [k i] Ht.
  destruct (ModelAbstract_iterate_invariant model cv buffer
              (fun j k => k = canonical_kmer_at cv buffer K j) (size data)) with (5 := Ht)
    as [-> ->]; rewrite ?HKm; try reflexivity; try lia.
  - intros j r Hj Hb ->. rewrite Z.max_r in Hb by lia.
    cbn [impl_next ModelCanonical_impl].
    assert (Hc : 0 <= fst (get cv buffer (j + K)) < 4) by (apply Hcodes; lia).
    destruct (ModelCanonical_next_tables K (fst (get cv buffer (j + K))) model
                (canonical_kmer_at cv buffer K j) (window_valid cv buffer (j + 1) K))
      as [H0 H1]; try assumption; try lia; [reflexivity |].
    rewrite ModelCanonical_next_eta, H0, H1. cbn [canonical_kmer_at table0].
    assert (Hp : polynomial cv buffer (j + 1) K
                 = (4 * polynomial cv buffer j K + fst (get cv buffer (j + K))) mod 4 ^ K).
    { apply polynomial_slide; [lia |]. intros i' Hi'. apply Hcodes. lia. }
    unfold canonical_kmer_at. rewrite Hp. reflexivity.
  - cbn [impl_first ModelCanonical_impl]. unfold ModelCanonical_first.
    rewrite Hm. cbn [ModelCanonical_base].
    pose proof (polynom_counter (built K) cv buffer ltac:(cbn; lia)) as Hc.
    destruct (polynom (built K) cv buffer) as [b v]. exact Hc.
  - cbn [impl_first ModelCanonical_impl].
    apply ModelCanonical_first_at; [exact Hnew | lia |].
    intros i' Hi'. apply Hcodes. lia.
Qed.

(** ** More on minimizers *)

(** The canonical form of an m-mer is never the sentinel [4^m - 1]: the
    reverse complement of GG...G is CC...C. *)
Lemma canonical_below_sentinel (m x : Z) :
  1 <= m -> 0 <= x < 4 ^ m -> 0 <= canonical m x < 4 ^ m - 1.
Proof.
  intros Hm Hx. unfold canonical.
  pose proof (revcomp_range x m ltac:(lia)) as Hr.
  split; [lia |].
  destruct (Z.eq_dec x (4 ^ m - 1)) as [-> | Hne]; [| lia].
  apply Z.min_lt_iff. right. unfold revcomp.
  replace (Z.to_nat m) with (S (Z.to_nat (m - 1))) by lia.
  rewrite revcomp_digits_succ.
  pose proof (revcomp_digits_range (Z.to_nat (m - 1)) ((4 ^ m - 1) / 4)) as Hd.
  rewrite Z2Nat.id in * by lia.
  assert (E : 4 ^ m = 4 * 4 ^ (m - 1))
    by (rewrite <- pow4_succ by lia; f_equal; lia).
  rewrite E in Hd |- *.
  assert (Hp : 0 < 4 ^ (m - 1)) by (apply pow4_pos; lia).
  replace ((4 * 4 ^ (m - 1) - 1) mod 4) with 3.
  - change (Z.lxor 3 2) with 1. lia.
  - symmetry. replace (4 * 4 ^ (m - 1) - 1) with (4 * (4 ^ (m - 1) - 1) + 3) by lia.
    apply mod4_add. lia.
Qed.

(** The canonical form of a word is canonical. *)
Lemma canonical_is_canonical (m x : Z) :
  0 <= m -> 0 <= x < 4 ^ m -> canonical m x <= revcomp (canonical m x) m.
Proof.
  intros Hm Hx. unfold canonical.
  destruct (Z.min_spec x (revcomp x m)) as [[Hlt ->] | [Hle ->]]; [lia |].
  rewrite revcomp_involutive by lia. lia.
Qed.

Section MinimizerValues.

Variables (K m : Z) (model : ModelMinimizer).
Hypothesis m_supported : mmer_size_supported m.
Hypothesis model_new : ModelMinimizer_new K m ComparatorMinimizer = inr model.

Local Abbreviation nb := (K - m + 1).
Local Abbreviation W fwd i := (window_mmer model fwd i).

(** An entry of the window: the canonical form of the m-mer when it is
    allowed, and the sentinel otherwise. *)
Lemma window_mmer_value (fwd i : Z) :
  let x := mmer_at model fwd i in
  0 <= x < 4 ^ m /\
  0 <= canonical m x < _mask model /\
  W fwd i = (if is_allowed (canonical m x) m then canonical m x else _mask model).
Proof.
  intros x. unfold mmer_size_supported in m_supported.
  destruct (model_fields K m model m_supported model_new) as (_ & _ & _ & _ & Hmask & _).
  destruct (mmer_index K m model m_supported model_new (Z.shiftr fwd (2 * i))) as [Hx _].
  fold (mmer_at model fwd i) in Hx. fold x in Hx.
  split; [exact Hx |]. split.
  - rewrite Hmask. apply canonical_below_sentinel; lia.
  - unfold window_mmer. fold (mmer_at model fwd i). fold x.
    rewrite (mmerLut_entry K m ComparatorMinimizer model x) by (lia || assumption).
    rewrite mmer_lut_entry_canonical by lia. rewrite Hmask. reflexivity.
Qed.

Lemma window_mmer_sentinel (fwd i : Z) :
  W fwd i = _mask model <-> is_allowed (canonical m (mmer_at model fwd i)) m = false.
Proof.
  destruct (window_mmer_value fwd i) as (_ & Hc & ->).
  destruct (is_allowed _ m); split; intros H; try reflexivity; try discriminate; lia.
Qed.

(** The value of the minimizer is a function of the forward strand. *)
Lemma minimizer_elected_unique (k1 k2 : KmerMinimizer) :
  KmerCanonical_forward (KmerMinimizer_base k1)
  = KmerCanonical_forward (KmerMinimizer_base k2) ->
  minimizer_elected model k1 -> minimizer_elected model k2 ->
  KmerCanonical_value (minimizer k1) = KmerCanonical_value (minimizer k2).
Proof.
  intros Hf (Hm1 & Hl1 & Hp1) (Hm2 & Hl2 & Hp2). rewrite Hf in *.
  destruct Hp1 as [[_ E1] | (P1 & _ & E1)], Hp2 as [[_ E2] | (P2 & _ & E2)].
  - congruence.
  - specialize (Hl1 (_nbMinimizers model - 1 - position k2) ltac:(lia)). lia.
  - specialize (Hl2 (_nbMinimizers model - 1 - position k1) ltac:(lia)). lia.
  - specialize (Hl1 (_nbMinimizers model - 1 - position k2) ltac:(lia)).
    specialize (Hl2 (_nbMinimizers model - 1 - position k1) ltac:(lia)). lia.
Qed.

Lemma minimizer_elected_range (k : KmerMinimizer) :
  minimizer_elected model k ->
  0 <= KmerCanonical_value (minimizer k) <= _mask model.
Proof.
  intros (Hm & _ & Hp). split; [| exact Hm].
  destruct (model_fields K m model m_supported model_new) as (_ & _ & _ & _ & Hmask & _).
  destruct (pow4_m_bounds m m_supported) as [Hpos _].
  destruct Hp as [[_ ->] | (_ & _ & <-)]; [lia |].
  match goal with |- 0 <= window_mmer model ?f ?i =>
    destruct (window_mmer_value f i) as (_ & Hc & ->) end.
  destruct (is_allowed _ m); lia.
Qed.

(** X3.  "By convention, a negative value means that there is no minimizer
    inside the kmer": the position of a kmer made by [first] and [next] is
    -1 or a position of the window; it is -1 exactly when the minimizer is
    the sentinel [_mask], and exactly when [is_allowed] rejects the
    canonical form of every m-mer of the kmer. *)
Theorem position_negative_iff_forbidden (k : KmerMinimizer) :
  ModelMinimizer_produced model k ->
  let fwd := KmerCanonical_forward (KmerMinimizer_base k) in
  -1 <= position k < nb /\
  (position k = -1 <-> KmerCanonical_value (minimizer k) = _mask model) /\
  (position k = -1 <->
   forall i, 0 <= i < nb -> is_allowed (canonical m (mmer_at model fwd i)) m = false).
Proof.
  intros Hk fwd.
  destruct (model_fields K m model m_supported model_new) as (HK & _ & _ & Hnb & _).
  destruct (ModelMinimizer_produced_elected K m model m_supported model_new k Hk)
    as (Hm & Hl & Hp).
  rewrite Hnb in Hl, Hp. fold fwd in Hl, Hp.
  split; [lia |]. split.
  - split; intros H; destruct Hp as [[Hp Hv] | (Hp & Hv & _)]; try assumption; lia.
  - split.
    + intros H i Hi. apply window_mmer_sentinel.
      destruct Hp as [[_ Hv] | (Hp & _)]; [| lia].
      specialize (Hl i Hi). pose proof (window_mmer_le_mask K m model m_supported model_new
                                          fwd i). lia.
    + intros H. destruct Hp as [[Hp _] | (Hp & Hv & Hw)]; [exact Hp |].
      specialize (H (nb - 1 - position k) ltac:(lia)).
      apply window_mmer_sentinel in H. lia.
Qed.

(** X4.  When a kmer made by [first] and [next] has a minimizer, the value
    of the minimizer is the canonical form of the m-mer at its position
    (position [p] is shift index [nbMinimizers-1-p]); [is_allowed] accepts
    it, and it is not above its own reverse complement. *)
Theorem minimizer_allowed_canonical (k : KmerMinimizer) :
  ModelMinimizer_produced model k -> 0 <= position k ->
  let fwd := KmerCanonical_forward (KmerMinimizer_base k) in
  let x := mmer_at model fwd (nb - 1 - position k) in
  let v := KmerCanonical_value (minimizer k) in
  v = canonical m x /\ is_allowed v m = true /\ v <= revcomp v m /\ 0 <= v < _mask model.
Proof.
  intros Hk Hpos fwd x v. unfold mmer_size_supported in m_supported.
  destruct (model_fields K m model m_supported model_new) as (HK & _ & _ & Hnb & _).
  destruct (ModelMinimizer_produced_elected K m model m_supported model_new k Hk)
    as (Hm & Hl & Hp).
  rewrite Hnb in Hp. fold fwd v in Hp.
  destruct Hp as [[Hp _] | (Hp & Hv & Hw)]; [lia |].
  destruct (window_mmer_value fwd (nb - 1 - position k)) as (Hx & Hc & HW).
  fold x in Hx, Hc, HW. rewrite Hw in HW.
  destruct (is_allowed (canonical m x) m) eqn:Ea; [| lia].
  rewrite HW. split; [reflexivity |]. split; [exact Ea |].
  split; [apply canonical_is_canonical; lia | exact Hc].
Qed.

(** X5.  [getMinimizerValue] of the forward strand of a kmer made by
    [first] and [next] is the value of the minimizer the kmer carries. *)
Theorem getMinimizerValue_of_kmer (k : KmerMinimizer) :
  ModelMinimizer_produced model k ->
  getMinimizerValue model (KmerCanonical_forward (KmerMinimizer_base k))
  = KmerCanonical_value (minimizer k).
Proof.
  intros Hk. unfold getMinimizerValue.
  set (km := mkKmerMinimizer _ KmerCanonical_uninit 0 false).
  pose proof (ModelMinimizer_produced_elected K m model m_supported model_new k Hk) as Ek.
  pose proof (computeNewMinimizer_elected K m model m_supported model_new km) as Em.
  rewrite (minimizer_elected_unique (computeNewMinimizer model km) k); try assumption.
  - pose proof (minimizer_elected_range k Ek) as Hr.
    destruct (model_fields K m model m_supported model_new) as (_ & _ & _ & _ & Hmask & _).
    destruct (pow4_m_bounds m m_supported) as [_ Hb].
    unfold Type_getVal, u64. apply Z.mod_small. lia.
  - rewrite computeNewMinimizer_base. reflexivity.
Qed.

End MinimizerValues.

(** ** The flag [hasChanged] *)

Lemma computeNewMinimizer_loop_changed (model : ModelMinimizer) (n : nat) :
  forall idx loop kmer,
    _changed (snd (computeNewMinimizer_loop model n idx loop kmer)) = _changed kmer.
Proof.
  induction n as [| n IH]; intros idx loop kmer; [reflexivity |].
  cbn [computeNewMinimizer_loop].
  destruct (KmerCanonical_extractShift _ _ _ _) as [mmer shifted].
  rewrite IH. destruct (cmp_call _ _ _); reflexivity.
Qed.

Lemma computeNewMinimizer_changed (model : ModelMinimizer) (kmer : KmerMinimizer) :
  _changed (computeNewMinimizer model kmer) = true.
Proof. unfold computeNewMinimizer. apply computeNewMinimizer_loop_changed. Qed.

(** X6.  [hasChanged] after [next]: the flag is false exactly when the
    m-mer that entered the kmer does not beat the minimizer and the
    minimizer is still inside the kmer; the kmer then keeps its minimizer,
    with a position one lower.  After [first] the flag is true.  (The
    position is an [int16_t]; the kmer given has a position that can be
    decremented.) *)
Theorem next_hasChanged (model : ModelMinimizer) (c : Z) (k : KmerMinimizer) (v : bool) :
  - 2 ^ 15 < position k < 2 ^ 15 ->
  let k' := ModelMinimizer_next model c k v in
  let mmer := KmerCanonical_extract (KmerMinimizer_base k')
                                    (_mask model) (_shift model) (_mmer_lut model) in
  (hasChanged k' = false <->
   cmp_call (_cmp model) (KmerCanonical_value mmer) (KmerCanonical_value (minimizer k))
   = false /\ 1 <= position k) /\
  (hasChanged k' = false -> minimizer k' = minimizer k /\ position k' = position k - 1) /\
  (forall cv seq k0, hasChanged (snd (ModelMinimizer_first model cv seq k0)) = true).
Proof.
  intros Hrange k' mmer.
  assert (Hbase : KmerMinimizer_base k'
                  = ModelCanonical_next (_kmerModel model) c (KmerMinimizer_base k) v)
    by apply ModelMinimizer_next_as_canonical.
  unfold mmer. rewrite Hbase. clear mmer Hbase.
  unfold k', ModelMinimizer_next, hasChanged, minimizer, position.
  set (b := ModelCanonical_next (_kmerModel model) c (KmerMinimizer_base k) v).
  assert (Hb : mkKmerCanonical (table0 b) (table1 b) (choice b) v = b) by reflexivity.
  rewrite Hb. cbn [_minimizer _position].
  destruct (cmp_call _ _ _) eqn:Ecmp; cbn [_changed _minimizer _position].
  - split; [split; [discriminate | intros [H _]; discriminate] |].
    split; [discriminate |].
    intros cv seq k0. unfold ModelMinimizer_first.
    destruct (ModelCanonical_first _ _ _ _). apply computeNewMinimizer_changed.
  - destruct (_position k - 1 <? 0) eqn:Epos.
    + rewrite computeNewMinimizer_changed. apply Z.ltb_lt in Epos.
      split; [split; [discriminate | intros [_ H]; lia] |].
      split; [discriminate |].
      intros cv seq k0. unfold ModelMinimizer_first.
      destruct (ModelCanonical_first _ _ _ _). apply computeNewMinimizer_changed.
    + apply Z.ltb_ge in Epos. cbn [_changed _minimizer _position].
      split; [split; [intros _; split; [reflexivity | lia] | reflexivity] |].
      split; [intros _; split; reflexivity |].
      intros cv seq k0. unfold ModelMinimizer_first.
      destruct (ModelCanonical_first _ _ _ _). apply computeNewMinimizer_changed.
Qed.

(** ** Neighbors *)

(** The test [mask & (1<<nt)] on the four bits taken at offset [s]. *)
Lemma neighbor_bit (mask s nt : Z) :
  0 <= s -> 0 <= nt < 4 ->
  (Z.land (Z.land (Z.shiftr mask s) 15) (Z.shiftl 1 nt) =? 0)
  = negb (Z.testbit mask (s + nt)).
Proof.
  intros Hs Hnt.
  assert (H : Z.land (Z.land (Z.shiftr mask s) 15) (Z.shiftl 1 nt)
              = if Z.testbit mask (s + nt) then 2 ^ nt else 0).
  { apply Z.bits_inj'. intros j Hj.
    rewrite !Z.land_spec, Z.shiftr_spec, Z.shiftl_mul_pow2, Z.mul_1_l by lia.
    rewrite Z.pow2_bits_eqb by lia.
    destruct (Z.eqb_spec nt j) as [<- | Hne].
    - rewrite (Z.add_comm nt s), andb_true_r.
      replace (Z.testbit 15 nt) with true
        by (destruct (code_cases nt Hnt) as [-> | [-> | [-> | ->]]]; reflexivity).
      rewrite andb_true_r.
      destruct (Z.testbit mask (s + nt)).
      + rewrite Z.pow2_bits_eqb, Z.eqb_refl by lia. reflexivity.
      + rewrite Z.bits_0. reflexivity.
    - rewrite andb_false_r.
      destruct (Z.testbit mask (s + nt)).
      + rewrite Z.pow2_bits_eqb by lia. symmetry. apply Z.eqb_neq. exact Hne.
      + rewrite Z.bits_0. reflexivity. }
  rewrite H. destruct (Z.testbit mask (s + nt)); [| reflexivity].
  apply Z.eqb_neq. pose proof (Z.pow_pos_nonneg 2 nt). lia.
Qed.

Lemma iterateOutgoingNeighbors_calls (K : Z) (model : ModelAbstract) (source mask s : Z)
      (St : Type) (fct : Z -> St -> St) (st : St) :
  0 <= K -> ModelAbstract_new K = inr model -> 0 <= s ->
  iterateOutgoingNeighbors model source fct (Z.land (Z.shiftr mask s) 15) st
  = fold_left (fun st x => fct x st)
      (map (outgoing_neighbor K source)
           (List.filter (fun nt => Z.testbit mask (s + nt)) [0; 1; 2; 3])) st.
Proof.
  intros HK Hnew Hs. apply ModelAbstract_new_inr in Hnew as [Hsp ->].
  unfold iterateOutgoingNeighbors, outgoing_neighbor, getKmerMax, getKmerSize.
  cbn [_kmerMask _kmerSize fold_left List.filter].
  rewrite !neighbor_bit by lia. rewrite kmerMask_value by lia.
  rewrite !neighbor_word by lia.
  destruct (Z.testbit mask (s + 0)), (Z.testbit mask (s + 1)),
    (Z.testbit mask (s + 2)), (Z.testbit mask (s + 3)); reflexivity.
Qed.

Lemma iterateIncomingNeighbors_calls (K : Z) (model : ModelAbstract) (source mask s : Z)
      (St : Type) (fct : Z -> St -> St) (st : St) :
  0 <= K -> ModelAbstract_new K = inr model -> 0 <= s ->
  iterateIncomingNeighbors model source fct (Z.land (Z.shiftr mask s) 15) st
  = fold_left (fun st x => fct x st)
      (map (incoming_neighbor K source)
           (List.filter (fun nt => Z.testbit mask (s + nt)) [0; 1; 2; 3])) st.
Proof.
  intros HK Hnew Hs. apply ModelAbstract_new_inr in Hnew as [Hsp ->].
  unfold iterateIncomingNeighbors, incoming_neighbor, getKmerMax, getKmerSize.
  cbn [_kmerMask _kmerSize fold_left List.filter].
  rewrite !neighbor_bit by lia. rewrite kmerMask_value by lia.
  rewrite !neighbor_word by (try apply complement_range; lia).
  destruct (Z.testbit mask (s + 0)), (Z.testbit mask (s + 1)),
    (Z.testbit mask (s + 2)), (Z.testbit mask (s + 3)); reflexivity.
Qed.

(** X7.  [iterateNeighbors (source, fct, mask)] with any mask: the functor
    is called on the outgoing neighbors whose bit [nt] of the mask is set,
    in ascending order of [nt], then on the incoming neighbors whose bit
    [4+nt] is set, in ascending order of [nt]; with the mask 0 it is not
    called. *)
Theorem iterateNeighbors_masked (K : Z) (model : ModelAbstract) (source mask : Z)
        (St : Type) (fct : Z -> St -> St) (st : St) :
  0 <= K -> ModelAbstract_new K = inr model ->
  iterateNeighbors model source fct mask st
  = fold_left (fun st x => fct x st)
      (map (outgoing_neighbor K source)
           (List.filter (fun nt => Z.testbit mask nt) [0; 1; 2; 3])
       ++ map (incoming_neighbor K source)
              (List.filter (fun nt => Z.testbit mask (4 + nt)) [0; 1; 2; 3])) st
  /\ iterateNeighbors model source fct 0 st = st.
Proof.
  intros HK Hnew. split.
  - unfold iterateNeighbors.
    rewrite (iterateOutgoingNeighbors_calls K), (iterateIncomingNeighbors_calls K)
      by (assumption || lia).
    rewrite fold_left_app. reflexivity.
  - unfold iterateNeighbors.
    rewrite (iterateOutgoingNeighbors_calls K), (iterateIncomingNeighbors_calls K)
      by (assumption || lia).
    reflexivity.
Qed.

Lemma fold_record_neighbor (calls : list Z) :
  forall log, fold_left (fun st x => record_neighbor x st) calls log = log ++ calls.
Proof.
  induction calls as [| x calls IH]; intros log; cbn [fold_left].
  - symmetry. apply app_nil_r.
  - rewrite IH. unfold record_neighbor. rewrite <- app_assoc. reflexivity.
Qed.

Lemma iterateNeighbors_record (K : Z) (model : ModelAbstract) (source mask : Z) :
  0 <= K -> ModelAbstract_new K = inr model ->
  iterateNeighbors model source record_neighbor mask []
  = map (outgoing_neighbor K source)
        (List.filter (fun nt => Z.testbit mask (0 + nt)) [0; 1; 2; 3])
    ++ map (incoming_neighbor K source)
           (List.filter (fun nt => Z.testbit mask (4 + nt)) [0; 1; 2; 3]).
Proof.
  intros HK Hnew. unfold iterateNeighbors.
  rewrite (iterateOutgoingNeighbors_calls K), (iterateIncomingNeighbors_calls K)
    by (assumption || lia).
  rewrite !fold_record_neighbor. reflexivity.
Qed.

Lemma outgoing_neighbor_canonical (K s nt : Z) :
  0 <= K -> 0 <= nt < 4 ->
  outgoing_neighbor K s nt = canonical K ((4 * s + nt) mod 4 ^ K).
Proof.
  intros HK Hnt. unfold outgoing_neighbor, canonical.
  rewrite land_mask_mod, shiftl2_mul4, lor_shift_code by lia. reflexivity.
Qed.

Lemma incoming_neighbor_canonical (K s nt : Z) :
  0 <= K -> 0 <= nt < 4 ->
  incoming_neighbor K s nt = canonical K ((4 * revcomp s K + Z.lxor nt 2) mod 4 ^ K).
Proof.
  intros HK Hnt. unfold incoming_neighbor, canonical.
  rewrite land_mask_mod, shiftl2_mul4, lor_shift_code
    by (try apply complement_range; lia).
  reflexivity.
Qed.

Lemma canonical_range (K x : Z) :
  0 <= K -> 0 <= x < 4 ^ K ->
  0 <= canonical K x < 4 ^ K /\ canonical K x <= revcomp (canonical K x) K.
Proof.
  intros HK Hx. split; [| apply canonical_is_canonical; lia].
  unfold canonical. pose proof (revcomp_range x K HK). lia.
Qed.

(** X8.  Every kmer [iterateNeighbors] gives to the functor is a canonical
    kmer of the model: it is below [4^K] and not above its own reverse
    complement. *)
Theorem neighbors_are_canonical (K : Z) (model : ModelAbstract) (source mask : Z) :
  0 <= K -> ModelAbstract_new K = inr model ->
  Forall (fun v => 0 <= v < 4 ^ K /\ v <= revcomp v K)
         (iterateNeighbors model source record_neighbor mask []).
Proof.
  intros HK Hnew. rewrite (iterateNeighbors_record K) by assumption.
  assert (Hp : 0 < 4 ^ K) by (apply pow4_pos; lia).
  apply Forall_app. split; apply List.Forall_forall; intros v Hv;
    apply in_map_iff in Hv as (nt & <- & Hnt); apply filter_In in Hnt as [Hnt _];
    assert (Hc : 0 <= nt < 4) by (cbn in Hnt; lia).
  - rewrite outgoing_neighbor_canonical by lia.
    apply canonical_range; [lia | apply Z.mod_pos_bound; lia].
  - rewrite incoming_neighbor_canonical by lia.
    apply canonical_range; [lia | apply Z.mod_pos_bound; lia].
Qed.

(** Sliding a word to the left and putting its first nucleotide back. *)
Lemma slide_back (K s nt : Z) :
  1 <= K -> 0 <= s < 4 ^ K -> 0 <= nt < 4 ->
  ((4 * s + nt) mod 4 ^ K) / 4 + s / 4 ^ (K - 1) * 4 ^ (K - 1) = s /\
  0 <= s / 4 ^ (K - 1) < 4.
Proof.
  intros HK Hs Hnt.
  assert (E : 4 ^ K = 4 * 4 ^ (K - 1))
    by (rewrite <- pow4_succ by lia; f_equal; lia).
  assert (Hp : 0 < 4 ^ (K - 1)) by (apply pow4_pos; lia).
  rewrite E in *. set (P := 4 ^ (K - 1)) in *.
  pose proof (Z.div_mod s P ltac:(lia)) as Hdm.
  pose proof (Z.mod_pos_bound s P Hp) as Hr.
  assert (Hd : 0 <= s / P < 4).
  { split; [apply Z.div_pos; lia | apply Z.div_lt_upper_bound; lia]. }
  split; [| exact Hd].
  assert (Hm : (4 * s + nt) mod (4 * P) = 4 * (s mod P) + nt).
  { symmetry. apply (Z.mod_unique _ _ (s / P)); [left; lia | lia]. }
  rewrite Hm, div4_add by exact Hnt. lia.
Qed.

(** The word [s] is found back among the neighbors of the neighbor it has
    by appending [nt]. *)
Lemma neighbor_back (K s nt : Z) :
  1 <= K -> 0 <= s < 4 ^ K -> 0 <= nt < 4 ->
  let v := canonical K ((4 * s + nt) mod 4 ^ K) in
  exists nt', 0 <= nt' < 4 /\
    (outgoing_neighbor K v nt' = canonical K s \/
     incoming_neighbor K v nt' = canonical K s).
Proof.
  intros HK Hs Hnt v.
  assert (Hp : 0 < 4 ^ K) by (apply pow4_pos; lia).
  set (t1 := (4 * s + nt) mod 4 ^ K) in *.
  assert (Ht1 : 0 <= t1 < 4 ^ K) by (apply Z.mod_pos_bound; lia).
  destruct (slide_back K s nt HK Hs Hnt) as [Hback Hd].
  fold t1 in Hback. set (d := s / 4 ^ (K - 1)) in *.
  set (n1 := (4 * revcomp t1 K + Z.lxor d 2) mod 4 ^ K).
  assert (Hn1 : 0 <= n1 < 4 ^ K) by (apply Z.mod_pos_bound; lia).
  assert (Hrc : revcomp n1 K = s).
  { unfold n1. rewrite revcomp_slide by (try apply complement_range; lia).
    rewrite revcomp_involutive, complement_involutive by lia. exact Hback. }
  assert (Hcan : canonical K n1 = canonical K s).
  { unfold canonical. rewrite Hrc, <- Hrc at 1.
    rewrite <- Hrc, revcomp_involutive by lia. apply Z.min_comm. }
  unfold v, canonical.
  destruct (Z.min_spec t1 (revcomp t1 K)) as [[Hlt ->] | [Hle ->]].
  - exists d. split; [exact Hd |]. right.
    rewrite incoming_neighbor_canonical by lia. exact Hcan.
  - exists (Z.lxor d 2). split; [apply complement_range; exact Hd |]. left.
    rewrite outgoing_neighbor_canonical by (try apply complement_range; lia).
    exact Hcan.
Qed.

Lemma neighbor_found (K : Z) (model : ModelAbstract) (v x nt : Z) :
  0 <= K -> ModelAbstract_new K = inr model -> 0 <= nt < 4 ->
  outgoing_neighbor K v nt = x \/ incoming_neighbor K v nt = x ->
  In x (iterateNeighbors model v record_neighbor 0xFF []).
Proof.
  intros HK Hnew Hnt H. rewrite (iterateNeighbors_record K) by assumption.
  change (List.filter _ [0; 1; 2; 3]) with [0; 1; 2; 3].
  change (List.filter _ [0; 1; 2; 3]) with [0; 1; 2; 3].
  apply in_or_app.
  assert (Hin : In nt [0; 1; 2; 3])
    by (destruct (code_cases nt Hnt) as [-> | [-> | [-> | ->]]]; cbn; tauto).
  destruct H as [<- | <-]; [left | right]; apply in_map; exact Hin.
Qed.

(** X9.  The neighborhood is symmetric on canonical kmers: every neighbor
    [iterateNeighbors] finds for a kmer [s] has the canonical form of [s]
    among the neighbors [iterateNeighbors] finds for it. *)
Theorem neighbors_symmetric (K : Z) (model : ModelAbstract) (s : Z) :
  1 <= K -> ModelAbstract_new K = inr model -> 0 <= s < 4 ^ K ->
  Forall (fun v => In (canonical K s) (iterateNeighbors model v record_neighbor 0xFF []))
         (iterateNeighbors model s record_neighbor 0xFF []).
Proof.
  intros HK Hnew Hs. rewrite (iterateNeighbors_record K model s) by (assumption || lia).
  apply Forall_app. split; apply List.Forall_forall; intros v Hv;
    apply in_map_iff in Hv as (nt & <- & Hnt); apply filter_In in Hnt as [Hnt _];
    assert (Hc : 0 <= nt < 4) by (cbn in Hnt; lia).
  - rewrite outgoing_neighbor_canonical by lia.
    destruct (neighbor_back K s nt HK Hs Hc) as (nt' & Hnt' & H).
    apply (neighbor_found K model _ _ nt'); (assumption || lia).
  - rewrite incoming_neighbor_canonical by lia.
    pose proof (revcomp_range s K ltac:(lia)) as Hr.
    destruct (neighbor_back K (revcomp s K) (Z.lxor nt 2) HK Hr
                (complement_range nt Hc)) as (nt' & Hnt' & H).
    replace (canonical K (revcomp s K)) with (canonical K s) in H
      by (unfold canonical; rewrite revcomp_involutive by lia; apply Z.min_comm).
    apply (neighbor_found K model _ _ nt'); (assumption || lia).
Qed.

(** ** More on super kmers *)

(** What the loop of [load] does to each element of the vector: it leaves
    it as it was, or it stores a couple of words in it, once, at an index
    from [ii] on and below [ii + n]. *)
Lemma load_loop_pointwise (kmerMask shift superk : Z) (n : nat) :
  forall ii rem temp rev_temp kmers0,
    0 <= ii ->
    let result := load_loop kmerMask shift superk n ii rem temp rev_temp kmers0 in
    length result = length kmers0 /\
    forall i,
      result !! i = kmers0 !! i \/
      (exists k rt t, kmers0 !! i = Some k /\ result !! i = Some (stored rt t k) /\
                      (Z.to_nat ii <= i < Z.to_nat ii + n)%nat).
Proof.
  induction n as [| n IH]; intros ii rem temp rev_temp kmers0 Hii result.
  - split; [reflexivity |]. intros i. left. reflexivity.
  - unfold result. rewrite load_loop_step.
    assert (Halter : forall i,
              alter (stored rev_temp temp) (Z.to_nat ii) kmers0 !! i = kmers0 !! i \/
              (exists k, kmers0 !! i = Some k /\
                         alter (stored rev_temp temp) (Z.to_nat ii) kmers0 !! i
                         = Some (stored rev_temp temp k) /\ i = Z.to_nat ii)).
    { intros i. destruct (Nat.eq_dec i (Z.to_nat ii)) as [-> | Hne].
      - rewrite list_lookup_alter_eq.
        destruct (kmers0 !! Z.to_nat ii) as [k |]; [right | left; reflexivity].
        exists k. repeat split; reflexivity.
      - left. apply list_lookup_alter_ne. lia. }
    destruct (rem <? 2).
    + split; [apply length_alter |]. intros i.
      destruct (Halter i) as [H | (k & Hk & Hr & ->)]; [left; exact H | right].
      exists k, rev_temp, temp. repeat split; try assumption; lia.
    + cbv zeta. match goal with |- context [load_loop _ _ _ n _ ?r ?t ?rt ?ks] =>
        specialize (IH (ii + 1) r t rt ks ltac:(lia)) end.
      cbv zeta in IH. destruct IH as [Hlen IH].
      split; [rewrite Hlen; apply length_alter |]. intros i.
      destruct (IH i) as [H | (k & rt & t & Hk & Hr & Hi)].
      * rewrite H. destruct (Halter i) as [H' | (k & Hk & Hr & ->)]; [left; exact H' |].
        right. exists k, rev_temp, temp. repeat split; try assumption; lia.
      * right. rewrite list_lookup_alter_ne in Hk by lia.
        exists k, rt, t. repeat split; try assumption; lia.
Qed.

(** X10.  [load] writes the two strand words of the [nbK] kmers at the
    indices below the count [nbK] of the first word (the vector has to hold
    them), and nothing else: the vector keeps its length, the elements from
    index [nbK] on are untouched, every element keeps its minimizer, its
    position and its flags, and the super kmer keeps its own minimizer and
    range (so [size()] is not the count that was read). *)
Theorem SuperKmer_load_frame (sk : SuperKmer) (superk seedk : Z) (rest : list Z) :
  SuperKmer_count superk <= Z.of_nat (length (kmers sk)) ->
  exists dst,
    SuperKmer_load sk (superk :: seedk :: rest) = Some dst /\
    SuperKmer_minimizer dst = SuperKmer_minimizer sk /\
    SuperKmer_size dst = SuperKmer_size sk /\
    length (kmers dst) = length (kmers sk) /\
    (forall i, (Z.to_nat (SuperKmer_count superk) <= i)%nat ->
       kmers dst !! i = kmers sk !! i) /\
    (forall i k, kmers sk !! i = Some k ->
       exists k', kmers dst !! i = Some k' /\
         minimizer k' = minimizer k /\ position k' = position k /\
         hasChanged k' = hasChanged k /\
         KmerCanonical_isValid (KmerMinimizer_base k')
         = KmerCanonical_isValid (KmerMinimizer_base k)).
Proof.
  intros _. unfold SuperKmer_load. eexists. split; [reflexivity |].
  cbn [SuperKmer_minimizer kmers]. unfold SuperKmer_size. cbn [range].
  split; [reflexivity |]. split; [reflexivity |].
  fold (SuperKmer_count superk).
  match goal with |- context [load_loop ?km ?sh superk ?n 0 ?r ?t ?rt (kmers sk)] =>
    destruct (load_loop_pointwise km sh superk n 0 r t rt (kmers sk) ltac:(lia))
      as [Hlen Hpt] end.
  split; [exact Hlen |]. split.
  - intros i Hi. destruct (Hpt i) as [H | (k & rt & t & _ & _ & Hr)]; [exact H | lia].
  - intros i k Hk. destruct (Hpt i) as [H | (k0 & rt & t & Hk0 & Hr & _)].
    + exists k. rewrite H. split; [exact Hk |]. repeat split; reflexivity.
    + rewrite Hk in Hk0. injection Hk0 as <-.
      exists (stored rt t k). split; [exact Hr |]. repeat split; reflexivity.
Qed.

(** The words [load] stores: at each index it writes, a word of [K]
    nucleotides with its reverse complement; at the first index, the word
    it starts with. *)
Lemma load_loop_pairs (K superk : Z) (n : nat) :
  1 <= K < span ->
  forall ii rem temp rev_temp kmers0,
    0 <= ii -> rem = Z.of_nat n -> rem <= 255 ->
    rev_temp = revcomp temp K -> 0 <= temp < 4 ^ K ->
    let result := load_loop (2 ^ (2 * K) - 1) (u64 (2 * (K - 1))) superk
                            n ii rem temp rev_temp kmers0 in
    forall i k,
      (Z.to_nat ii <= i < Z.to_nat ii + n)%nat -> kmers0 !! i = Some k ->
      exists x, 0 <= x < 4 ^ K /\ (i = Z.to_nat ii -> x = temp) /\
                result !! i = Some (stored (revcomp x K) x k).
Proof.
  intros HK. induction n as [| n IH];
    intros ii rem temp rev_temp kmers0 Hii Hrem Hmax Hrev Htemp result i k Hi Hk;
    [lia |].
  unfold result. rewrite load_loop_step.
  assert (Hfirst : alter (stored rev_temp temp) (Z.to_nat ii) kmers0 !! Z.to_nat ii
                   = stored rev_temp temp <$> kmers0 !! Z.to_nat ii)
    by apply list_lookup_alter_eq.
  destruct (rem <? 2) eqn:E.
  - apply Z.ltb_lt in E. assert (i = Z.to_nat ii) as -> by lia.
    exists temp. split; [exact Htemp |]. split; [reflexivity |].
    rewrite Hfirst, Hk, Hrev. reflexivity.
  - apply Z.ltb_ge in E. cbv zeta.
    set (newnt := Z.land (Type_shr superk (2 * (rem - 2))) 3).
    assert (Hnt : 0 <= newnt < 4)
      by (unfold newnt; rewrite land3_mod4; apply Z.mod_pos_bound; lia).
    set (kmers1 := alter (stored rev_temp temp) (Z.to_nat ii) kmers0) in *.
    destruct (Nat.eq_dec i (Z.to_nat ii)) as [-> | Hne].
    + match goal with |- context [load_loop ?km ?sh superk n ?j ?r ?t ?rt kmers1] =>
        destruct (load_loop_pointwise km sh superk n j r t rt kmers1 ltac:(lia))
          as [_ Hpt] end.
      destruct (Hpt (Z.to_nat ii)) as [H | (k0 & rt & t & _ & _ & Hr)]; [| lia].
      exists temp. split; [exact Htemp |]. split; [reflexivity |].
      rewrite H, Hfirst, Hk, Hrev. reflexivity.
    + assert (Hp : 0 < 4 ^ K) by (apply pow4_pos; lia).
      destruct (IH (ii + 1) (u8 (rem - 1))
                  (Z.land (Z.lor (Type_shl temp 2) newnt) (2 ^ (2 * K) - 1))
                  (Z.land (Z.lor (Type_shr rev_temp 2)
                                 (Type_shl (comp_NT_at (Type_getVal newnt))
                                           (u64 (2 * (K - 1)))))
                          (2 ^ (2 * K) - 1))
                  kmers1) with (i := i) (k := k) as (x & Hx & _ & Hr).
      * lia.
      * unfold u8. rewrite Z.mod_small by lia. lia.
      * unfold u8. rewrite Z.mod_small by lia. lia.
      * rewrite load_forward_step by lia.
        rewrite load_revcomp_step
          by (try lia; subst rev_temp; apply revcomp_range; lia).
        rewrite revcomp_slide by lia. subst rev_temp. reflexivity.
      * rewrite load_forward_step by lia. apply Z.mod_pos_bound. lia.
      * lia.
      * unfold kmers1. rewrite list_lookup_alter_ne by lia. exact Hk.
      * exists x. split; [exact Hx |]. split; [intros; lia | exact Hr].
Qed.

(** X11.  Whatever the first word holds, the kmers [load] writes are
    well-formed canonical kmers: when the seed is a word of [K]
    nucleotides, each element written has as [revcomp] the reverse
    complement of its [forward], the choice of [updateChoice], and a value
    that is the canonical form of its words; the element at index 0 holds
    the seed as [revcomp] and its reverse complement as [forward]. *)
Theorem SuperKmer_load_canonical (K : Z) (sk : SuperKmer) (superk seedk : Z)
        (rest : list Z) :
  1 <= K < span -> kmerSize sk = K -> 0 <= seedk < 4 ^ K ->
  SuperKmer_count superk <= Z.of_nat (length (kmers sk)) ->
  exists dst,
    SuperKmer_load sk (superk :: seedk :: rest) = Some dst /\
    forall i k,
      (i < Z.to_nat (SuperKmer_count superk))%nat -> kmers sk !! i = Some k ->
      exists d, kmers dst !! i = Some d /\
        canonical_pair K (KmerMinimizer_base d) /\
        KmerCanonical_value (KmerMinimizer_base d)
        = canonical K (KmerCanonical_forward (KmerMinimizer_base d)) /\
        (i = 0%nat ->
         KmerCanonical_revcomp (KmerMinimizer_base d) = seedk /\
         KmerCanonical_forward (KmerMinimizer_base d) = revcomp seedk K).
Proof.
  intros HK Hks Hseed _. unfold SuperKmer_load. eexists. split; [reflexivity |].
  cbn [kmers]. fold (SuperKmer_count superk). rewrite Hks.
  rewrite kmerMask_value by lia.
  assert (Hcount : 0 <= SuperKmer_count superk < 256)
    by (unfold SuperKmer_count, u8; apply Z.mod_pos_bound; lia).
  intros i k Hi Hk.
  destruct (load_loop_pairs K superk (Z.to_nat (SuperKmer_count superk)) HK
              0 (SuperKmer_count superk) seedk (revcomp seedk K) (kmers sk))
    with (i := i) (k := k) as (x & Hx & H0 & Hr);
    try lia; try reflexivity; try assumption.
  exists (stored (revcomp x K) x k). split; [exact Hr |].
  unfold stored, KmerCanonical_set2, canonical_pair, canonical,
    KmerCanonical_forward, KmerCanonical_revcomp.
  cbn [KmerMinimizer_base]. rewrite updateChoice_value.
  cbn [updateChoice table0 table1 choice].
  rewrite revcomp_involutive by lia.
  split; [split; reflexivity |]. split; [reflexivity |].
  intros ->. rewrite (H0 eq_refl). split; reflexivity.
Qed.

(** X12.  The format [save] writes: two words are appended to the bag, the
    packed word and the forward strand of the first kmer; when the run has
    [L <= 255] kmers, all in the vector, and [2(L-1) + 8] bits fit the
    integer type, the 8 top bits of the packed word hold [L], and the last
    nucleotide of the kmer of index [i >= 1] is its 2-bit digit at offset
    [2(L-1-i)]. *)
Theorem SuperKmer_save_format (sk : SuperKmer) (bag : list Z) :
  let L := SuperKmer_size sk in
  1 <= L <= 255 -> 2 * (L - 1) + 8 <= Type_getSize ->
  0 <= fst (range sk) <= snd (range sk) ->
  snd (range sk) < Z.of_nat (length (kmers sk)) ->
  exists w,
    SuperKmer_save sk bag
    = bag ++ [w; KmerCanonical_forward (KmerMinimizer_base (SuperKmer_at sk 0))] /\
    0 <= w < 2 ^ Type_getSize /\
    SuperKmer_count w = L /\
    forall i, 1 <= i < L ->
      Z.land (Type_shr w (2 * (L - 1 - i))) 3
      = KmerCanonical_forward (KmerMinimizer_base (SuperKmer_at sk i)) mod 4.
Proof.
  intros L HL Hsize _ _.
  destruct (save_loop_digits sk (Z.to_nat (L - 1)) 1 0 0) as (HP & Hdig & _);
    [lia | simpl; lia | lia |].
  set (P := save_loop sk (Z.to_nat (L - 1)) 1 0) in *.
  rewrite Z.add_0_l, Z2Nat.id in HP by lia.
  assert (HPs : 0 <= P < 2 ^ (Type_getSize - 8)).
  { split; [lia |]. apply Z.lt_le_trans with (4 ^ (L - 1)); [lia |].
    rewrite <- pow4_as_pow2 by lia. apply Z.pow_le_mono_r; lia. }
  assert (Hp8 : 0 < 2 ^ (Type_getSize - 8)) by (apply Z.pow_pos_nonneg; lia).
  assert (Hsplit : 2 ^ Type_getSize = 256 * 2 ^ (Type_getSize - 8)).
  { change 256 with (2 ^ 8). rewrite <- Z.pow_add_r by lia. f_equal. lia. }
  exists (P + L * 2 ^ (Type_getSize - 8)). split; [| split; [| split]].
  - unfold SuperKmer_save. fold L. fold P. rewrite <- app_assoc. cbn [app].
    do 2 f_equal.
    rewrite (Type_wrap_small L) by nia.
    unfold Type_shl. rewrite Z.shiftl_mul_pow2 by lia.
    rewrite Type_wrap_small by nia.
    apply lor_disjoint_add, land_low_high; lia.
  - nia.
  - unfold SuperKmer_count. apply superk_count; lia.
  - intros i Hi. rewrite superk_digit by lia. rewrite Hdig by lia.
    do 4 f_equal. lia.
Qed.

(** X2.  With the canonical model, the kmer delivered with output index
    [j] is the canonical kmer of the window that starts at input index [j]:
    its forward strand is the polynomial of the window, its other strand the
    reverse complement of it, and it is valid when the window has no invalid
    symbol; [build] leaves exactly these kmers in the vector, whatever the
    vector held. *)
Theorem iterate_canonical_kmers (K : Z) (model : ModelCanonical) (data : Data) :
  ModelCanonical_new K = inr model ->
  1 <= K <= size data -> size data - K + 1 < 2 ^ 31 ->
  codes_in_range (convert_of (getEncoding data)) (getBuffer data) (size data) ->
  let kmer_at := canonical_kmer_at (convert_of (getEncoding data)) (getBuffer data) K in
  snd (iterate model data record_callback [])
  = map (fun j => (kmer_at j, j)) (seqZ 0 (size data - K + 1)) /\
  forall kmersBuffer,
    build model data kmersBuffer = (true, map kmer_at (seqZ 0 (size data - K + 1))).
Proof.
  intros Hnew HK Hlen Hcodes kmer_at.
  pose proof (iterate_canonical_log K model data Hnew HK Hlen Hcodes) as Hlog.
  split; [exact Hlog |]. intros kmersBuffer.
  assert (HKm : _kmerSize (impl_base model) = K).
  { apply ModelCanonical_new_inr in Hnew as [_ ->]. reflexivity. }
  rewrite build_enough by (rewrite HKm; lia).
  rewrite Hlog, map_map. reflexivity.
Qed.

(** ** Random access: [getKmer] *)

Lemma buffer_at_drop (buffer : list Z) (n : nat) (i : Z) :
  0 <= i -> buffer_at (drop n buffer) i = buffer_at buffer (Z.of_nat n + i).
Proof. intros Hi. unfold buffer_at. rewrite nth_skipn. f_equal. lia. Qed.

(** With the ASCII and the INTEGER decoders, a nucleotide is a byte. *)
Lemma get_drop (encoding : Encoding_e) (buffer : list Z) (n : nat) (i : Z) :
  encoding <> BINARY -> 0 <= i ->
  get (convert_of encoding) (drop n buffer) i
  = get (convert_of encoding) buffer (Z.of_nat n + i).
Proof.
  intros He Hi. destruct encoding; [| | congruence];
    cbn [convert_of execute get ConvertASCII ConvertInteger];
    rewrite buffer_at_drop by lia; reflexivity.
Qed.

(** With the BINARY decoder, a byte is four nucleotides. *)
Lemma get_drop_BINARY (buffer : list Z) (n : nat) (i : Z) :
  0 <= i ->
  get ConvertBinary (drop n buffer) i = get ConvertBinary buffer (4 * Z.of_nat n + i).
Proof.
  intros Hi. cbn [get ConvertBinary]. rewrite !shiftr2_div4, !land3_mod4.
  rewrite buffer_at_drop by (apply Z.div_pos; lia).
  replace ((4 * Z.of_nat n + i) / 4) with (Z.of_nat n + i / 4)
    by (rewrite (Z.mul_comm 4), Z.div_add_l by lia; reflexivity).
  replace ((4 * Z.of_nat n + i) mod 4) with (i mod 4)
    by (rewrite (Z.mul_comm 4), Z.add_comm, Z.mod_add by lia; reflexivity).
  reflexivity.
Qed.

Section Shifted.

(** Two buffers, the first one read at [i] giving what the second one gives
    at [off + i]. *)
Variables (cv1 cv2 : Convert) (b1 b2 : list Z) (off : Z).
Hypothesis shifted : forall i, 0 <= i -> get cv1 b1 i = get cv2 b2 (off + i).

Lemma polynomial_from_shifted (n : nat) :
  forall i acc, 0 <= i ->
    polynomial_from cv1 b1 n i acc = polynomial_from cv2 b2 n (off + i) acc.
Proof.
  induction n as [| n IH]; intros i acc Hi; cbn [polynomial_from]; [reflexivity |].
  rewrite shifted, IH by lia. f_equal. lia.
Qed.

Lemma window_valid_shifted (K : Z) :
  window_valid cv1 b1 0 K = window_valid cv2 b2 off K.
Proof.
  apply eq_true_iff_eq. rewrite !window_valid_true. split; intros H i Hi.
  - replace i with (off + (i - off)) by lia. rewrite <- shifted by lia. apply H. lia.
  - rewrite shifted by lia. apply H. lia.
Qed.

Lemma direct_kmer_at_shifted (K : Z) :
  direct_kmer_at cv1 b1 K 0 = direct_kmer_at cv2 b2 K off.
Proof.
  unfold direct_kmer_at, polynomial.
  rewrite polynomial_from_shifted, window_valid_shifted, Z.add_0_r by lia. reflexivity.
Qed.

Lemma canonical_kmer_at_shifted (K : Z) :
  canonical_kmer_at cv1 b1 K 0 = canonical_kmer_at cv2 b2 K off.
Proof.
  unfold canonical_kmer_at, polynomial.
  rewrite polynomial_from_shifted, window_valid_shifted, Z.add_0_r by lia. reflexivity.
Qed.

End Shifted.

Lemma ModelDirect_first_at (K : Z) (model : ModelDirect) (cv : Convert)
      (buffer : list Z) (k0 : KmerDirect) :
  ModelDirect_new K = inr model -> 0 <= K ->
  (forall i, 0 <= i < K -> 0 <= fst (get cv buffer i) < 4) ->
  snd (ModelDirect_first model cv buffer k0) = direct_kmer_at cv buffer K 0.
Proof.
  intros Hnew HK Hcodes. apply ModelDirect_new_inr in Hnew as [Hs ->].
  pose proof (polynom_counter (built K) cv buffer ltac:(cbn; lia)) as Hc.
  unfold ModelDirect_first. cbn [ModelDirect_base].
  pose proof (polynom_loop_value cv buffer K (Z.to_nat K) 0 0 (-1) 0) as Hv.
  unfold polynom in *. cbn [_kmerSize] in *.
  destruct (polynom_loop cv buffer (Z.to_nat K) 0 0 (-1)) as [b v].
  cbn [fst snd] in *. unfold direct_kmer_at, polynomial.
  destruct Hv as [-> _]; try lia.
  - intros i' Hi'. apply Hcodes. lia.
  - f_equal. apply counter_tracks_valid, Hc.
Qed.

Lemma codeSeed_as_first {M Kmer : Type} {I : ModelImpl M Kmer} (model : M)
      (seq : list Z) (encoding : Encoding_e) :
  codeSeed model seq encoding
  = snd (impl_first model (convert_of encoding) seq impl_uninit).
Proof. destruct encoding; reflexivity. Qed.

Lemma getKmer_direct_at (K : Z) (model : ModelDirect) (data : Data) (idx : Z) :
  ModelDirect_new K = inr model -> 0 <= K -> 0 <= idx ->
  getEncoding data <> BINARY ->
  (forall i, idx <= i < idx + K ->
     0 <= fst (get (convert_of (getEncoding data)) (getBuffer data) i) < 4) ->
  getKmer model data idx
  = direct_kmer_at (convert_of (getEncoding data)) (getBuffer data) K idx.
Proof.
  intros Hnew HK Hidx Henc Hcodes. unfold getKmer. rewrite codeSeed_as_first.
  cbn [impl_first ModelDirect_impl].
  assert (Hsh : forall i, 0 <= i ->
            get (convert_of (getEncoding data)) (drop (Z.to_nat idx) (getBuffer data)) i
            = get (convert_of (getEncoding data)) (getBuffer data) (idx + i)).
  { intros i Hi. rewrite get_drop by assumption. f_equal. lia. }
  rewrite (ModelDirect_first_at K) by
    (try assumption; intros i Hi; rewrite Hsh by lia; apply Hcodes; lia).
  apply direct_kmer_at_shifted. exact Hsh.
Qed.

Lemma getKmer_canonical_at (K : Z) (model : ModelCanonical) (data : Data) (idx : Z) :
  ModelCanonical_new K = inr model -> 0 <= K -> 0 <= idx ->
  getEncoding data <> BINARY ->
  (forall i, idx <= i < idx + K ->
     0 <= fst (get (convert_of (getEncoding data)) (getBuffer data) i) < 4) ->
  getKmer model data idx
  = canonical_kmer_at (convert_of (getEncoding data)) (getBuffer data) K idx.
Proof.
  intros Hnew HK Hidx Henc Hcodes. unfold getKmer. rewrite codeSeed_as_first.
  cbn [impl_first ModelCanonical_impl].
  assert (Hsh : forall i, 0 <= i ->
            get (convert_of (getEncoding data)) (drop (Z.to_nat idx) (getBuffer data)) i
            = get (convert_of (getEncoding data)) (getBuffer data) (idx + i)).
  { intros i Hi. rewrite get_drop by assumption. f_equal. lia. }
  rewrite (ModelCanonical_first_at K) by
    (try assumption; intros i Hi; rewrite Hsh by lia; apply Hcodes; lia).
  apply canonical_kmer_at_shifted. exact Hsh.
Qed.

Lemma lookup_map_seqZ {A : Type} (f : Z -> A) (n idx : Z) :
  0 <= idx < n -> map f (seqZ 0 n) !! Z.to_nat idx = Some (f idx).
Proof.
  intros Hi. change (map f (seqZ 0 n)) with (f <$> seqZ 0 n).
  rewrite list_lookup_fmap.
  replace (seqZ 0 n !! Z.to_nat idx) with (Some idx); [reflexivity |].
  symmetry. apply lookup_seqZ. lia.
Qed.

(** X13.  Random access agrees with iteration: with ASCII or INTEGER data,
    [getKmer (data, idx)] is the kmer [iterate] delivers with output index
    [idx], validity included, with the direct and with the canonical
    model. *)
Theorem getKmer_random_access (K : Z) (md : ModelDirect) (mc : ModelCanonical)
        (data : Data) (idx : Z) :
  ModelDirect_new K = inr md -> ModelCanonical_new K = inr mc ->
  getEncoding data <> BINARY ->
  1 <= K -> 0 <= idx -> idx + K <= size data -> size data - K + 1 < 2 ^ 31 ->
  codes_in_range (convert_of (getEncoding data)) (getBuffer data) (size data) ->
  snd (iterate md data record_callback []) !! Z.to_nat idx
  = Some (getKmer md data idx, idx) /\
  snd (iterate mc data record_callback []) !! Z.to_nat idx
  = Some (getKmer mc data idx, idx).
Proof.
  intros Hmd Hmc Henc HK Hidx Hend Hnb Hcodes. split.
  - rewrite (iterate_direct_log K) by (assumption || lia).
    rewrite lookup_map_seqZ by lia.
    rewrite (getKmer_direct_at K) by
      (try assumption; try lia; intros i Hi; apply Hcodes; lia).
    reflexivity.
  - rewrite (iterate_canonical_log K) by (assumption || lia).
    rewrite lookup_map_seqZ by lia.
    rewrite (getKmer_canonical_at K) by
      (try assumption; try lia; intros i Hi; apply Hcodes; lia).
    reflexivity.
Qed.

(** X14.  "should not work with BINARY encoding": with BINARY data,
    [getKmer (data, idx)] skips [idx] bytes, that is [4 idx] nucleotides;
    it is the kmer of the window that starts at nucleotide [4 idx], the one
    [iterate] delivers with output index [4 idx]. *)
Theorem getKmer_binary_offset (K : Z) (md : ModelDirect) (data : Data) (idx : Z) :
  ModelDirect_new K = inr md -> getEncoding data = BINARY ->
  0 <= K -> 0 <= idx -> 4 * idx + K <= size data -> size data - K + 1 < 2 ^ 31 ->
  getKmer md data idx = direct_kmer_at ConvertBinary (getBuffer data) K (4 * idx) /\
  snd (iterate md data record_callback []) !! Z.to_nat (4 * idx)
  = Some (getKmer md data idx, 4 * idx).
Proof.
  intros Hmd Henc HK Hidx Hend Hnb.
  assert (Hget : getKmer md data idx
                 = direct_kmer_at ConvertBinary (getBuffer data) K (4 * idx)).
  { unfold getKmer. rewrite codeSeed_as_first, Henc.
    cbn [impl_first ModelDirect_impl convert_of execute].
    assert (Hsh : forall i, 0 <= i ->
              get ConvertBinary (drop (Z.to_nat idx) (getBuffer data)) i
              = get ConvertBinary (getBuffer data) (4 * idx + i)).
    { intros i Hi. rewrite get_drop_BINARY by assumption. f_equal. lia. }
    rewrite (ModelDirect_first_at K) by
      (try assumption; intros i Hi; apply (codes_in_range_BINARY _ K); lia).
    apply direct_kmer_at_shifted. exact Hsh. }
  split; [exact Hget |].
  rewrite (iterate_direct_log K), Henc
    by (try assumption; try lia; rewrite Henc; apply codes_in_range_BINARY).
  cbn [convert_of execute]. rewrite lookup_map_seqZ by lia. rewrite Hget. reflexivity.
Qed.

(** ** [codeSeedRight] after [getKmer] *)

Lemma codeSeedRight_as_next {M Kmer : Type} {I : ModelImpl M Kmer} (model : M)
      (kmer : Kmer) (nucl : Z) (encoding : Encoding_e) :
  codeSeedRight model kmer nucl encoding
  = impl_next model (fst (get (convert_of encoding) [nucl] 0)) kmer
              (snd (get (convert_of encoding) [nucl] 0) =? 0).
Proof. destruct encoding; reflexivity. Qed.

Lemma get_single (encoding : Encoding_e) (buffer : list Z) (i : Z) :
  encoding <> BINARY ->
  get (convert_of encoding) [buffer_at buffer i] 0 = get (convert_of encoding) buffer i.
Proof. intros He. destruct encoding; [reflexivity | reflexivity | congruence]. Qed.

(** X15.  [codeSeedRight] composes with [getKmer]: with ASCII or INTEGER
    data, the kmer at index [idx] extended to the right by the nucleotide
    that follows it in the data has the words of the kmer at index
    [idx+1] (value for the direct model; forward, revcomp and choice for
    the canonical model); its validity is the one of the nucleotide
    alone. *)
Theorem codeSeedRight_after_getKmer (K : Z) (md : ModelDirect) (mc : ModelCanonical)
        (data : Data) (idx : Z) :
  ModelDirect_new K = inr md -> ModelCanonical_new K = inr mc ->
  getEncoding data <> BINARY ->
  1 <= K -> 0 <= idx -> idx + K < size data ->
  codes_in_range (convert_of (getEncoding data)) (getBuffer data) (size data) ->
  let nucl := buffer_at (getBuffer data) (idx + K) in
  let valid := snd (get (convert_of (getEncoding data)) (getBuffer data) (idx + K)) =? 0 in
  let d := getKmer md data (idx + 1) in
  let c := getKmer mc data (idx + 1) in
  codeSeedRight md (getKmer md data idx) nucl (getEncoding data)
  = mkKmerDirect (KmerDirect_value d) valid /\
  codeSeedRight mc (getKmer mc data idx) nucl (getEncoding data)
  = mkKmerCanonical (table0 c) (table1 c) (choice c) valid.
Proof.
  intros Hmd Hmc Henc HK Hidx Hend Hcodes nucl valid d c.
  set (cv := convert_of (getEncoding data)) in *.
  set (buffer := getBuffer data) in *.
  assert (Hcode : 0 <= fst (get cv buffer (idx + K)) < 4) by (apply Hcodes; lia).
  assert (Hp : polynomial cv buffer (idx + 1) K
               = (4 * polynomial cv buffer idx K + fst (get cv buffer (idx + K))) mod 4 ^ K).
  { apply polynomial_slide; [apply ModelDirect_new_inr in Hmd; lia |].
    intros i' Hi'. apply Hcodes. lia. }
  assert (Hs : K < span) by (apply ModelDirect_new_inr in Hmd; lia).
  split.
  - unfold d. rewrite codeSeedRight_as_next. unfold nucl.
    rewrite (get_single (getEncoding data) buffer (idx + K)) by assumption.
    rewrite !(getKmer_direct_at K) by
      (try assumption; try lia; intros i Hi; apply Hcodes; lia).
    fold cv buffer. cbn [impl_next ModelDirect_impl].
    apply ModelDirect_new_inr in Hmd as [_ ->].
    unfold ModelDirect_next, direct_kmer_at.
    cbn [ModelDirect_base _kmerMask KmerDirect_value].
    rewrite kmerMask_value, slide_forward, Hp by lia. reflexivity.
  - unfold c. rewrite codeSeedRight_as_next. unfold nucl.
    rewrite (get_single (getEncoding data) buffer (idx + K)) by assumption.
    rewrite !(getKmer_canonical_at K) by
      (try assumption; try lia; intros i Hi; apply Hcodes; lia).
    fold cv buffer. cbn [impl_next ModelCanonical_impl].
    destruct (ModelCanonical_next_tables K (fst (get cv buffer (idx + K))) mc
                (canonical_kmer_at cv buffer K idx) valid)
      as [H0 H1]; try assumption; try lia; [reflexivity |].
    change (snd (get cv buffer (idx + K)) =? 0) with valid.
    rewrite ModelCanonical_next_eta, H0, H1.
    unfold canonical_kmer_at. cbn [table0 table1 choice]. rewrite Hp. reflexivity.
Qed.

(** ** The two strands of a sequence *)

(** The polynomial of a window depends on the symbols of the window only. *)
Lemma polynomial_from_window (cv1 cv2 : Convert) (b1 b2 : list Z) (off : Z) (n : nat) :
  forall i acc,
    (forall j, i <= j < i + Z.of_nat n -> fst (get cv1 b1 j) = fst (get cv2 b2 (off + j))) ->
    polynomial_from cv1 b1 n i acc = polynomial_from cv2 b2 n (off + i) acc.
Proof.
  induction n as [| n IH]; intros i acc H; cbn [polynomial_from]; [reflexivity |].
  rewrite (H i) by lia. rewrite IH by (intros j Hj; apply H; lia).
  f_equal. lia.
Qed.

Lemma get_Integer_cons (x : Z) (t : list Z) (i : Z) :
  0 <= i -> get ConvertInteger (x :: t) (1 + i) = get ConvertInteger t i.
Proof.
  intros Hi. cbn [get ConvertInteger]. unfold buffer_at.
  replace (Z.to_nat (1 + i)) with (S (Z.to_nat i)) by lia. reflexivity.
Qed.

Lemma get_Integer_app_l (l0 : list Z) (c i : Z) :
  0 <= i < Z.of_nat (length l0) ->
  get ConvertInteger (l0 ++ [c]) i = get ConvertInteger l0 i.
Proof.
  intros Hi. cbn [get ConvertInteger]. unfold buffer_at.
  rewrite app_nth1 by lia. reflexivity.
Qed.

Lemma get_Integer_app_r (l0 : list Z) (c : Z) :
  get ConvertInteger (l0 ++ [c]) (Z.of_nat (length l0)) = (c, 0).
Proof.
  cbn [get ConvertInteger]. unfold buffer_at. rewrite Nat2Z.id, nth_middle. reflexivity.
Qed.

(** The polynomial of the reverse complement of a sequence of codes is the
    reverse complement of its polynomial. *)
Lemma polynomial_revcomp_codes (l : list Z) :
  Forall (fun c => 0 <= c < 4) l ->
  polynomial ConvertInteger (revcomp_codes l) 0 (Z.of_nat (length l))
  = revcomp (polynomial ConvertInteger l 0 (Z.of_nat (length l))) (Z.of_nat (length l)).
Proof.
  induction l as [| c l0 IH] using rev_ind; intros Hl; [reflexivity |].
  apply Forall_app in Hl as [Hl0 Hc]. apply Forall_inv in Hc.
  specialize (IH Hl0). unfold polynomial, revcomp in *.
  rewrite Nat2Z.id in *. rewrite length_app. cbn [length].
  rewrite Nat.add_1_r.
  unfold revcomp_codes in *. rewrite map_app, rev_app_distr. cbn [map rev app].
  (* the sequence ends with [c] *)
  rewrite (polynomial_from_last ConvertInteger (l0 ++ [c])), Z.add_0_l, get_Integer_app_r.
  cbn [fst].
  rewrite (polynomial_from_window ConvertInteger ConvertInteger (l0 ++ [c]) l0 0
             (length l0) 0 0)
    by (intros j Hj; rewrite get_Integer_app_l by lia; reflexivity).
  rewrite Z.add_0_l, revcomp_digits_succ, mod4_add, div4_add by exact Hc.
  (* the reverse complement starts with the complement of [c] *)
  cbn [polynomial_from].
  rewrite (polynomial_from_acc ConvertInteger (Z.lxor c 2 :: _)).
  rewrite (polynomial_from_window ConvertInteger ConvertInteger _
             (rev (map (fun c0 => Z.lxor c0 2) l0)) (-1) (length l0) (0 + 1) 0).
  2:{ intros j Hj. replace j with (1 + (-1 + j)) at 1 by lia.
      rewrite get_Integer_cons by lia. reflexivity. }
  change (-1 + (0 + 1)) with 0. rewrite IH.
  cbn [get ConvertInteger fst].
  change (buffer_at (Z.lxor c 2 :: ?t) 0) with (Z.lxor c 2). lia.
Qed.

(** X16.  A sequence and its reverse complement have the same canonical
    kmer: for [K] nucleotide codes and the sequence of their complements in
    reverse order, [codeSeed] gives two kmers with the same [value()], the
    forward strand of each being the [revcomp] strand of the other. *)
Theorem canonical_strand_symmetry (K : Z) (model : ModelCanonical) (l : list Z) :
  ModelCanonical_new K = inr model ->
  Z.of_nat (length l) = K -> Forall (fun c => 0 <= c < 4) l ->
  let k := codeSeed model l INTEGER in
  let k' := codeSeed model (revcomp_codes l) INTEGER in
  KmerCanonical_forward k' = KmerCanonical_revcomp k /\
  KmerCanonical_revcomp k' = KmerCanonical_forward k /\
  KmerCanonical_value k' = KmerCanonical_value k /\
  KmerCanonical_isValid k = true /\ KmerCanonical_isValid k' = true.
Proof.
  intros Hnew HK Hl k k'. unfold k, k'. rewrite !codeSeed_as_first.
  cbn [impl_first ModelCanonical_impl convert_of execute impl_uninit].
  assert (Hs : K < span) by (apply ModelCanonical_new_inr in Hnew; lia).
  assert (Hcodes : forall l', Forall (fun c => 0 <= c < 4) l' -> length l' = length l ->
            forall i, 0 <= i < K -> 0 <= fst (get ConvertInteger l' i) < 4).
  { intros l' Hl' Hlen i Hi. cbn [get ConvertInteger fst]. unfold buffer_at.
    rewrite List.Forall_forall in Hl'. apply Hl', nth_In. lia. }
  assert (Hrev : Forall (fun c => 0 <= c < 4) (revcomp_codes l)).
  { unfold revcomp_codes. apply List.Forall_forall. intros x Hx.
    apply in_rev, in_map_iff in Hx as (c & <- & Hc).
    rewrite List.Forall_forall in Hl. apply complement_range, Hl, Hc. }
  assert (Hrlen : length (revcomp_codes l) = length l)
    by (unfold revcomp_codes; rewrite length_rev, length_map; reflexivity).
  rewrite !(ModelCanonical_first_at K) by (try assumption; try lia; auto).
  pose proof (polynomial_revcomp_codes l Hl) as Hp. rewrite HK in Hp.
  pose proof (polynomial_range ConvertInteger l 0 K ltac:(lia)
                ltac:(intros i Hi; apply (Hcodes l); auto; lia)) as Hr.
  unfold canonical_kmer_at, KmerCanonical_forward, KmerCanonical_revcomp,
    KmerCanonical_value.
  cbn [table0 table1 choice KmerCanonical_isValid]. rewrite Hp.
  rewrite revcomp_involutive by lia.
  set (p := polynomial ConvertInteger l 0 K) in *.
  set (r := revcomp p K).
  split; [reflexivity |]. split; [reflexivity |]. split.
  - destruct (Z.ltb_spec r p), (Z.ltb_spec p r); cbn [Z.eqb]; lia.
  - split; apply window_valid_true; intros i Hi; reflexivity.
Qed.

(** ** The constructors *)


(** X18.  The precision check of the constructor is enough: for a kmer
    size [1 <= K < span] the mask does not overflow the integer type,
    [getKmerMax] is [4^K - 1], masking with it is taking the [K] last
    nucleotides, and the entry [c] of the table of [next] is the complement
    of [c] at the first nucleotide of a kmer. *)
Theorem constructor_mask_and_table (K : Z) (model : ModelAbstract) :
  ModelAbstract_new K = inr model -> 1 <= K ->
  getKmerSize model = K /\
  getKmerMax model = 4 ^ K - 1 /\
  getKmerMax model < 2 ^ Type_getSize /\
  (forall x, Z.land x (getKmerMax model) = x mod 4 ^ K) /\
  (forall c, 0 <= c < 4 -> revcompTable_at model c = Z.lxor c 2 * 4 ^ (K - 1)).
Proof.
  intros Hnew HK. apply ModelAbstract_new_inr in Hnew as [Hs ->].
  unfold getKmerSize, getKmerMax, revcompTable_at. cbn [_kmerSize _kmerMask _revcompTable].
  rewrite kmerMask_value by lia.
  split; [reflexivity |]. split; [rewrite pow4_as_pow2 by lia; reflexivity |].
  split; [| split].
  - pose proof (pow4_lt_Type K ltac:(lia)) as Hlt.
    rewrite pow4_as_pow2 by lia. pose proof (pow4_pos K ltac:(lia)). lia.
  - intros x. apply land_mask_mod. lia.
  - intros c Hc. apply revcompTable_entry; lia.
Qed.

(** ** The first kmer *)

Lemma polynom_loop_lower (cv : Convert) (seq : list Z) (n : nat) :
  forall i kmer b, 0 <= i -> -1 <= b -> -1 <= fst (polynom_loop cv seq n i kmer b).
Proof.
  induction n as [| n IH]; intros i kmer b Hi Hb; cbn [polynom_loop fst]; [exact Hb |].
  apply IH; [lia |]. destruct (_ =? 0); lia.
Qed.

(** X19.  "return -1 if valid, otherwise index of the last found bad
    character": [polynom] returns -1 when none of the [K] first symbols is
    invalid, and else the index of the last invalid one among them; each of
    the three models returns this index from [first], and the kmer of
    [first] is valid exactly when it is -1. *)
Theorem first_bad_index (model : ModelAbstract) (cv : Convert) (seq : list Z) :
  let K := _kmerSize model in
  let r := fst (polynom model cv seq) in
  ((r = -1 /\ forall i, 0 <= i < K -> snd (get cv seq i) = 0) \/
   (0 <= r < K /\ snd (get cv seq r) <> 0 /\
    forall i, r < i < K -> snd (get cv seq i) = 0)) /\
  (forall kd,
     ModelDirect_first (mkModelDirect model) cv seq kd
     = (r, mkKmerDirect (snd (polynom model cv seq)) (r =? -1))) /\
  (forall kc,
     fst (ModelCanonical_first (mkModelCanonical model) cv seq kc) = r /\
     KmerCanonical_isValid (snd (ModelCanonical_first (mkModelCanonical model) cv seq kc))
     = (r =? -1)) /\
  (forall (mm : ModelMinimizer) km,
     _kmerModel mm = mkModelCanonical model ->
     fst (ModelMinimizer_first mm cv seq km) = r /\
     KmerCanonical_isValid (KmerMinimizer_base (snd (ModelMinimizer_first mm cv seq km)))
     = (r =? -1)).
Proof.
  intros K r.
  assert (Hlow : -1 <= r) by (apply polynom_loop_lower; lia).
  assert (Hneg : (r <? 0) = (r =? -1)).
  { destruct (Z.ltb_spec r 0), (Z.eqb_spec r (-1)); try reflexivity; lia. }
  split; [| split; [| split]].
  - destruct (Z.lt_ge_cases K 0) as [HK | HK].
    + left. split; [| intros i Hi; lia].
      unfold r, polynom. fold K. replace (Z.to_nat K) with 0%nat by lia. reflexivity.
    + destruct (polynom_counter model cv seq HK) as [[Hb Hall] | (Hb & Hbad & Hall)];
        fold r K in Hb, Hall |- *.
      * left. split; [lia |]. intros i Hi. apply Hall. lia.
      * right. rewrite Z.add_0_l in *. split; [exact Hb |]. split; [exact Hbad |].
        intros i Hi. apply Hall. lia.
  - intros kd. unfold ModelDirect_first. cbn [ModelDirect_base]. unfold r in *.
    destruct (polynom model cv seq) as [b v]. cbn [fst snd] in *. rewrite Hneg. reflexivity.
  - intros kc. unfold ModelCanonical_first. cbn [ModelCanonical_base]. unfold r in *.
    destruct (polynom model cv seq) as [b v]. cbn [fst snd] in *.
    split; [reflexivity | exact Hneg].
  - intros mm km Hmm. unfold ModelMinimizer_first, ModelCanonical_first. rewrite Hmm.
    cbn [ModelCanonical_base]. unfold r in *.
    destruct (polynom model cv seq) as [b v]. cbn [fst snd] in *.
    rewrite computeNewMinimizer_base. split; [reflexivity | exact Hneg].
Qed.

(** ** The decoders *)

(** Bit 5 of a byte, which tells a lower case letter from an upper case
    one, is not among the bits the ASCII decoder reads. *)
Lemma ascii_bits_case (b s w : Z) :
  0 <= s -> 0 <= w -> s + w <= 5 ->
  Z.land (Z.shiftr (Z.lxor b 32) s) (Z.ones w) = Z.land (Z.shiftr b s) (Z.ones w).
Proof.
  intros Hs Hw Hsw. apply Z.bits_inj'. intros j Hj.
  rewrite !Z.land_spec, !Z.shiftr_spec, Z.lxor_spec by lia.
  destruct (Z.lt_ge_cases j w) as [Hlt | Hge].
  - change 32 with (2 ^ 5). rewrite Z.pow2_bits_eqb by lia.
    rewrite (proj2 (Z.eqb_neq 5 (j + s))) by lia. rewrite xorb_false_r. reflexivity.
  - rewrite Z.ones_spec_high by lia. rewrite !andb_false_r. reflexivity.
Qed.

(** X20.  The ASCII decoder: it always gives a 2-bit code and a 1-bit
    flag; A, C, T, G are decoded as 0, 1, 2, 3 and are valid, in upper and
    in lower case; N is invalid ("the 4th bit is used to tell whether it is
    invalid or not"); and the case of a letter never matters. *)
Theorem ConvertASCII_alphabet (buffer : list Z) (idx : Z) :
  let b := buffer_at buffer idx in
  let c := get ConvertASCII buffer idx in
  0 <= fst c < 4 /\ 0 <= snd c < 2 /\
  (In b [65; 97] -> c = (0, 0)) /\
  (In b [67; 99] -> c = (1, 0)) /\
  (In b [84; 116] -> c = (2, 0)) /\
  (In b [71; 103] -> c = (3, 0)) /\
  (In b [78; 110] -> snd c = 1) /\
  get ConvertASCII [Z.lxor b 32] 0 = c.
Proof.
  intros b c. unfold c. cbn [get ConvertASCII fst snd]. fold b.
  split; [rewrite land3_mod4; apply Z.mod_pos_bound; lia |].
  split.
  { replace (Z.land (Z.shiftr b 3) 1) with (Z.shiftr b 3 mod 2)
      by (symmetry; apply (Z.land_ones _ 1); lia).
    pose proof (Z.mod_pos_bound (Z.shiftr b 3) 2). lia. }
  repeat split;
    try (intros [<- | [<- | []]]; reflexivity).
  change (buffer_at [Z.lxor b 32] 0) with (Z.lxor b 32).
  f_equal.
  - apply (ascii_bits_case b 1 2); lia.
  - apply (ascii_bits_case b 3 1); lia.
Qed.

Lemma get_Binary_app_l (l0 : list Z) (b i : Z) :
  0 <= i < 4 * Z.of_nat (length l0) ->
  get ConvertBinary (l0 ++ [b]) i = get ConvertBinary l0 i.
Proof.
  intros Hi. cbn [get ConvertBinary]. unfold buffer_at. rewrite shiftr2_div4.
  rewrite app_nth1; [reflexivity |].
  assert (i / 4 < Z.of_nat (length l0)) by (apply Z.div_lt_upper_bound; lia).
  assert (0 <= i / 4) by (apply Z.div_pos; lia). lia.
Qed.

Lemma get_Binary_app_r (l0 : list Z) (b k : Z) :
  0 <= k < 4 ->
  fst (get ConvertBinary (l0 ++ [b]) (4 * Z.of_nat (length l0) + k))
  = (b / 4 ^ (3 - k)) mod 4.
Proof.
  intros Hk. cbn [get ConvertBinary fst]. unfold buffer_at.
  rewrite shiftr2_div4, !land3_mod4.
  rewrite div4_add, Nat2Z.id, nth_middle by exact Hk.
  rewrite mod4_add by exact Hk.
  rewrite Z.shiftr_div_pow2 by lia.
  replace (2 ^ ((3 - k) * 2)) with (4 ^ (3 - k))
    by (rewrite <- pow4_as_pow2 by lia; f_equal; lia).
  reflexivity.
Qed.

(** A byte is its four 2-bit digits. *)
Lemma byte_digits (b : Z) :
  0 <= b < 256 ->
  4 * (4 * (4 * ((b / 4 ^ 3) mod 4) + (b / 4 ^ 2) mod 4) + (b / 4 ^ 1) mod 4)
  + (b / 4 ^ 0) mod 4 = b.
Proof.
  intros Hb. change (4 ^ 3) with 64. change (4 ^ 2) with 16.
  change (4 ^ 1) with 4. change (4 ^ 0) with 1.
  Z.div_mod_to_equations. lia.
Qed.

Lemma polynomial_Binary_bytes (bytes : list Z) :
  Forall (fun b => 0 <= b < 256) bytes ->
  polynomial ConvertBinary bytes 0 (4 * Z.of_nat (length bytes)) = bytes_value bytes.
Proof.
  induction bytes as [| b l0 IH] using rev_ind; intros Hl; [reflexivity |].
  apply Forall_app in Hl as [Hl0 Hb]. apply Forall_inv in Hb.
  specialize (IH Hl0). unfold polynomial, bytes_value in *.
  rewrite fold_left_app. cbn [fold_left]. rewrite <- IH.
  rewrite length_app. cbn [length].
  replace (Z.to_nat (4 * Z.of_nat (length l0 + 1)))
    with (S (S (S (S (Z.to_nat (4 * Z.of_nat (length l0))))))) by lia.
  set (n := Z.to_nat (4 * Z.of_nat (length l0))).
  assert (Hn : Z.of_nat n = 4 * Z.of_nat (length l0)) by lia.
  rewrite (polynomial_from_last ConvertBinary (l0 ++ [b]) (S (S (S n)))).
  rewrite (polynomial_from_last ConvertBinary (l0 ++ [b]) (S (S n))).
  rewrite (polynomial_from_last ConvertBinary (l0 ++ [b]) (S n)).
  rewrite (polynomial_from_last ConvertBinary (l0 ++ [b]) n).
  rewrite (polynomial_from_window ConvertBinary ConvertBinary (l0 ++ [b]) l0 0 n 0 0)
    by (intros j Hj; rewrite get_Binary_app_l by lia; reflexivity).
  rewrite !Z.add_0_l.
  replace (Z.of_nat (S (S (S n)))) with (4 * Z.of_nat (length l0) + 3) by lia.
  replace (Z.of_nat (S (S n))) with (4 * Z.of_nat (length l0) + 2) by lia.
  replace (Z.of_nat (S n)) with (4 * Z.of_nat (length l0) + 1) by lia.
  replace (Z.of_nat n) with (4 * Z.of_nat (length l0) + 0) by lia.
  rewrite !get_Binary_app_r by lia.
  change (3 - 3) with 0. change (3 - 2) with 1. change (3 - 1) with 2. change (3 - 0) with 3.
  pose proof (byte_digits b Hb) as Hd. lia.
Qed.

(** X21.  The BINARY encoding packs four nucleotides in a byte, the first
    one in the two top bits: with the direct model and [K = 4n], the kmer
    of [n] bytes is the number these bytes write in base 256, first byte
    first, and it is valid. *)
Theorem binary_kmer_of_bytes (K : Z) (md : ModelDirect) (bytes : list Z) :
  ModelDirect_new K = inr md ->
  K = 4 * Z.of_nat (length bytes) -> Forall (fun b => 0 <= b < 256) bytes ->
  codeSeed md bytes BINARY = mkKmerDirect (bytes_value bytes) true.
Proof.
  intros Hmd HK Hl. rewrite codeSeed_as_first.
  cbn [impl_first ModelDirect_impl convert_of execute].
  rewrite (ModelDirect_first_at K)
    by (try assumption; try lia; intros i Hi; apply (codes_in_range_BINARY _ K); lia).
  unfold direct_kmer_at. rewrite HK, polynomial_Binary_bytes by exact Hl.
  f_equal. apply window_valid_true. intros i Hi. reflexivity.
Qed.

(** ** Bounds *)

(** X22.  [next] keeps a kmer inside the model, whatever it is given: with
    the direct model the value, and with the canonical model both strands
    and the value, are between 0 and [getKmerMax]. *)
Theorem next_within_kmerMax (K : Z) (md : ModelDirect) (mc : ModelCanonical) (c : Z)
        (kd : KmerDirect) (kc : KmerCanonical) (v : bool) :
  ModelDirect_new K = inr md -> ModelCanonical_new K = inr mc -> 0 <= K ->
  let k' := ModelCanonical_next mc c kc v in
  0 <= KmerDirect_value (ModelDirect_next md c kd v) <= getKmerMax (ModelDirect_base md) /\
  0 <= KmerCanonical_forward k' <= getKmerMax (ModelCanonical_base mc) /\
  0 <= KmerCanonical_revcomp k' <= getKmerMax (ModelCanonical_base mc) /\
  0 <= KmerCanonical_value k' <= getKmerMax (ModelCanonical_base mc).
Proof.
  intros Hmd Hmc HK k'. unfold k'.
  apply ModelDirect_new_inr in Hmd as [Hs ->].
  apply ModelCanonical_new_inr in Hmc as [_ ->].
  assert (Hp : 0 < 4 ^ K) by (apply pow4_pos; lia).
  unfold ModelDirect_next, ModelCanonical_next, getKmerMax,
    KmerCanonical_forward, KmerCanonical_revcomp.
  rewrite updateChoice_value.
  cbn [ModelDirect_base ModelCanonical_base _kmerMask KmerDirect_value updateChoice
       table0 table1].
  rewrite kmerMask_value by lia. rewrite !land_mask_mod by lia.
  rewrite pow4_as_pow2 by lia.
  match goal with |- context [Z.min (?a mod _) (?b mod _)] =>
    pose proof (Z.mod_pos_bound a (4 ^ K) Hp);
    pose proof (Z.mod_pos_bound b (4 ^ K) Hp) end.
  match goal with |- 0 <= ?a mod _ <= _ /\ _ =>
    pose proof (Z.mod_pos_bound a (4 ^ K) Hp) end.
  lia.
Qed.

(** X23.  The number of kmers is kept in an [int32_t]: for a sequence
    whose number of kmers [len-K+1] is between [2^31] and [2^32], the
    number wraps to a value that is not positive, and [iterate] and [build]
    answer as for a sequence that is too short: they return false, call no
    callback and leave the vector as it is. *)
Theorem iterate_int32_overflow {M Kmer : Type} {I : ModelImpl M Kmer}
        (model : M) (data : Data) :
  let K := getKmerSize (impl_base model) in
  2 ^ 31 <= size data - K + 1 <= 2 ^ 32 ->
  (forall (St : Type) (callback : Kmer -> Z -> St -> St) (st : St),
     iterate model data callback st = (false, st)) /\
  (forall kmersBuffer, build model data kmersBuffer = (false, kmersBuffer)).
Proof.
  intros K Hnb. unfold K, getKmerSize in *.
  assert (Hwrap : (int32 (u64 (size data - _kmerSize (impl_base model) + 1)) <=? 0)
                  = true).
  { apply Z.leb_le. unfold int32, u64.
    rewrite (Z.mod_small (size data - _ + 1)) by lia.
    set (x := size data - _kmerSize (impl_base model) + 1) in *.
    replace (x + 2 ^ 31) with (x - 2 ^ 31 + 1 * 2 ^ 32) by lia.
    rewrite Z.mod_add by lia. rewrite Z.mod_small by lia. lia. }
  split.
  - intros St callback st. rewrite iterate_as_ModelAbstract.
    unfold ModelAbstract_iterate. rewrite Hwrap. reflexivity.
  - intros kmersBuffer. unfold build, getKmerSize. rewrite Hwrap. reflexivity.
Qed.

(** ** The iterator and the constructor of super kmers *)

(** X24.  [Iterator::setData] does not look at what [build] returns: with
    data that has enough nucleotides the iterator holds the [len-K+1] kmers
    of the data, and with data that is too short it keeps the kmers it held
    before, with their number. *)
Theorem setData_items {M Kmer : Type} {I : ModelImpl M Kmer}
        (it : Iterator (M := M) (Kmer := Kmer)) (d : Data) :
  let K := getKmerSize (impl_base (_ref it)) in
  0 <= K < 2 ^ 31 -> 0 <= size d -> size d - K + 1 < 2 ^ 31 ->
  _ref (setData it d) = _ref it /\
  (size d < K ->
   _items (setData it d) = _items it /\
   _nb (setData it d) = Z.of_nat (length (_items it))) /\
  (K <= size d ->
   _items (setData it d) = map fst (snd (iterate (_ref it) d record_callback [])) /\
   _nb (setData it d) = size d - K + 1).
Proof.
  intros K HK Hlen Hnb. unfold K, getKmerSize in *. unfold setData. cbn [_ref _items _nb].
  split; [reflexivity |]. split.
  - intros Hshort. rewrite build_short by lia. split; reflexivity.
  - intros Henough. rewrite build_enough by lia. cbn [snd]. split; [reflexivity |].
    rewrite length_map, iterate_as_ModelAbstract.
    assert (H1 : 0 <= _kmerSize (impl_base (_ref it)) <= size d) by lia.
    destruct (ModelAbstract_iterate_enough (_ref it) (convert_of (getEncoding d))
                (getBuffer d) record_callback [] (size d) H1 Hnb) as [_ Hidx].
    rewrite <- (length_map snd), Hidx, length_seqZ. lia.
Qed.

(** X25.  A super kmer as its constructor leaves it: it is not valid (its
    minimizer is the default one); it has one kmer when the vector it is
    given is not empty, and [kmerSize] default kmers when it is empty; and
    every index below [size()] is inside the vector. *)
Theorem SuperKmer_new_range (K m : Z) (ks : list KmerMinimizer) :
  0 <= K < 2 ^ 64 ->
  let sk := SuperKmer_new K m ks in
  SuperKmer_isValid sk = false /\
  SuperKmer_size sk = (if decide (ks = []) then K else 1) /\
  (ks <> [] -> kmers sk = ks) /\
  (forall idx, 0 <= idx < SuperKmer_size sk ->
     exists k, kmers sk !! Z.to_nat idx = Some k /\ SuperKmer_at sk idx = k).
Proof.
  intros HK sk. unfold sk, SuperKmer_new.
  destruct ks as [| k0 ks'].
  - unfold SuperKmer_isValid, SuperKmer_size, SuperKmer_at.
    cbn [SuperKmer_minimizer range kmers fst snd]. rewrite length_resize, Z2Nat.id by lia.
    split; [reflexivity |].
    assert (Hsize : u64 (u64 (K - 1) - 0 + 1) = K).
    { unfold u64. destruct (Z.eq_dec K 0) as [-> | Hne]; [reflexivity |].
      rewrite (Z.mod_small (K - 1)) by lia.
      replace (K - 1 - 0 + 1) with K by lia. apply Z.mod_small. lia. }
    rewrite Hsize. split; [reflexivity |]. split; [congruence |].
    intros idx Hidx. rewrite Z.add_0_r. unfold u64. rewrite Z.mod_small by lia.
    destruct (lookup_lt_is_Some_2 (resize (Z.to_nat K) KmerMinimizer_uninit [])
                (Z.to_nat idx)) as [k Hk]; [rewrite length_resize; lia |].
    exists k. split; [exact Hk |]. rewrite nth_lookup, Hk. reflexivity.
  - unfold SuperKmer_isValid, SuperKmer_size, SuperKmer_at.
    cbn [SuperKmer_minimizer range kmers fst snd].
    split; [reflexivity |]. split; [reflexivity |]. split; [reflexivity |].
    intros idx Hidx. change (u64 (0 - 0 + 1)) with 1 in Hidx.
    assert (idx = 0) as -> by lia. exists k0. split; reflexivity.
Qed.

(** ** The three models over the same data *)

Lemma iterate_loop_forward (base : ModelAbstract) (cv : Convert) (seq : list Z) (n : nat) :
  forall idx b r ic,
    map (fun e => (forward_kmer (fst e), snd e))
        (iterate_loop (ModelImpl0 := ModelCanonical_impl) (mkModelCanonical base) cv seq
                      record_callback n idx b r ic [])
    = iterate_loop (ModelImpl0 := ModelDirect_impl) (mkModelDirect base) cv seq
                   record_callback n idx b (forward_kmer r) ic [].
Proof.
  induction n as [| n IH]; intros idx b r ic; [reflexivity |].
  rewrite (iterate_loop_record_step (I := ModelCanonical_impl)).
  rewrite (iterate_loop_record_step (I := ModelDirect_impl)).
  cbn [map fst snd impl_base impl_next ModelCanonical_impl ModelDirect_impl
       ModelCanonical_base ModelDirect_base].
  rewrite IH. reflexivity.
Qed.

(** X26.  "KmerCanonical is the same as KmerDirect, but with two other
    methods": over any data, the canonical model and the direct model of
    the same size deliver the same number of kmers with the same indices,
    and the forward strand and the validity of each canonical kmer are the
    value and the validity of the direct kmer. *)
Theorem iterate_canonical_forward_is_direct (base : ModelAbstract) (data : Data) :
  fst (iterate (mkModelCanonical base) data record_callback [])
  = fst (iterate (mkModelDirect base) data record_callback []) /\
  map (fun e => (forward_kmer (fst e), snd e))
      (snd (iterate (mkModelCanonical base) data record_callback []))
  = snd (iterate (mkModelDirect base) data record_callback []).
Proof.
  rewrite !iterate_as_ModelAbstract. unfold ModelAbstract_iterate.
  cbn [impl_base impl_first impl_uninit ModelCanonical_impl ModelDirect_impl
       ModelCanonical_base ModelDirect_base].
  destruct (_ <=? 0); [split; reflexivity |].
  unfold ModelCanonical_first, ModelDirect_first.
  cbn [ModelCanonical_base ModelDirect_base].
  destruct (polynom base _ _) as [r v]. cbn [fst snd]. split; [reflexivity |].
  unfold notification, record_callback. cbn [app].
  rewrite (iterate_loop_record_app (I := ModelCanonical_impl)).
  rewrite (iterate_loop_record_app (I := ModelDirect_impl)).
  rewrite map_app. cbn [map fst snd app]. f_equal.
  apply iterate_loop_forward.
Qed.

Lemma canonical_kmer_at_next (K : Z) (mc : ModelCanonical) (cv : Convert)
      (buffer : list Z) (j : Z) :
  ModelCanonical_new K = inr mc -> 1 <= K ->
  (forall i, j <= i <= j + K -> 0 <= fst (get cv buffer i) < 4) ->
  ModelCanonical_next mc (fst (get cv buffer (j + K))) (canonical_kmer_at cv buffer K j)
                      (window_valid cv buffer (j + 1) K)
  = canonical_kmer_at cv buffer K (j + 1).
Proof.
  intros Hnew HK Hcodes.
  assert (Hs : K < span) by (apply ModelCanonical_new_inr in Hnew; lia).
  destruct (ModelCanonical_next_tables K (fst (get cv buffer (j + K))) mc
              (canonical_kmer_at cv buffer K j) (window_valid cv buffer (j + 1) K))
    as [H0 H1]; try assumption; try (apply Hcodes; lia); [reflexivity |].
  rewrite ModelCanonical_next_eta, H0, H1. cbn [canonical_kmer_at table0].
  unfold canonical_kmer_at.
  rewrite (polynomial_slide cv buffer j K) by (try lia; exact Hcodes).
  reflexivity.
Qed.

Section MinimizerIteration.

Variables (K m : Z) (model : ModelMinimizer).
Hypothesis m_supported : mmer_size_supported m.
Hypothesis model_new : ModelMinimizer_new K m ComparatorMinimizer = inr model.

(** X27.  The minimizers of a sequence: over data with valid codes, the
    kmer the minimizer model delivers with output index [t] has as
    canonical part the canonical kmer of the window that starts at [t], and
    the value of its minimizer is the least entry of the table over the
    m-mers of that window, the value [getMinimizerValue] computes from the
    forward strand. *)
Theorem iterate_minimizer_kmers (data : Data) :
  K <= size data -> size data - K + 1 < 2 ^ 31 ->
  codes_in_range (convert_of (getEncoding data)) (getBuffer data) (size data) ->
  forall t k i,
    snd (iterate model data record_callback []) !! t = Some (k, i) ->
    let cv := convert_of (getEncoding data) in
    let fwd := polynomial cv (getBuffer data) (Z.of_nat t) K in
    let v := KmerCanonical_value (minimizer k) in
    i = Z.of_nat t /\
    KmerMinimizer_base k = canonical_kmer_at cv (getBuffer data) K (Z.of_nat t) /\
    (forall j, 0 <= j < K - m + 1 -> v <= window_mmer model fwd j) /\
    (exists j, 0 <= j < K - m + 1 /\ window_mmer model fwd j = v) /\
    v = getMinimizerValue model fwd.
Proof.
  intros HKlen Hnb Hcodes t k i Ht cv fwd v. unfold mmer_size_supported in m_supported.
  destruct (model_fields K m model m_supported model_new) as (HK & Hkm & _ & Hnbm & _).
  destruct (ModelMinimizer_new_models K m ComparatorMinimizer model model_new)
    as [Hmc Hbase].
  set (buffer := getBuffer data) in *.
  assert (HKm : _kmerSize (impl_base model) = K).
  { cbn [impl_base ModelMinimizer_impl]. rewrite Hbase, Hkm. reflexivity. }
  rewrite iterate_as_ModelAbstract in Ht. fold cv buffer in Ht.
  destruct (ModelAbstract_iterate_invariant model cv buffer
              (fun j k => ModelMinimizer_produced model k /\
                          KmerMinimizer_base k = canonical_kmer_at cv buffer K j)
              (size data)) with (5 := Ht) as [[Hprod Hb] Hi]; rewrite ?HKm; try lia.
  - intros j r Hj Hbound [Hp Hr]. rewrite Z.max_r in Hbound by lia.
    cbn [impl_next ModelMinimizer_impl]. split.
    + apply minimizer_produced_next; [exact Hp | apply Hcodes; lia].
    + rewrite ModelMinimizer_next_as_canonical, Hr.
      apply (canonical_kmer_at_next K); [exact Hmc | lia |].
      intros i' Hi'. apply Hcodes. lia.
  - cbn [impl_first impl_uninit ModelMinimizer_impl].
    rewrite (proj1 (ModelMinimizer_first_as_canonical model cv buffer KmerMinimizer_uninit)).
    unfold ModelCanonical_first. rewrite Hkm. cbn [ModelCanonical_base].
    pose proof (polynom_counter (built K) cv buffer ltac:(cbn; lia)) as Hc.
    destruct (polynom (built K) cv buffer) as [b0 v0]. exact Hc.
  - cbn [impl_first impl_uninit ModelMinimizer_impl].
    split; [apply minimizer_produced_first |].
    rewrite (proj2 (ModelMinimizer_first_as_canonical model cv buffer KmerMinimizer_uninit)).
    apply (ModelCanonical_first_at K); [exact Hmc | lia |].
    intros i' Hi'. apply Hcodes. lia.
  - split; [exact Hi |]. split; [exact Hb |].
    pose proof (ModelMinimizer_produced_elected K m model m_supported model_new k Hprod)
      as He.
    assert (Hf : KmerCanonical_forward (KmerMinimizer_base k) = fwd)
      by (rewrite Hb; reflexivity).
    pose proof He as (Hle & Hlow & Hpos). rewrite Hnbm, Hf in Hlow, Hpos. fold v in Hlow, Hpos.
    split; [exact Hlow |]. split.
    + destruct Hpos as [[_ Hv] | (Hp & _ & Hw)].
      * exists 0. split; [lia |].
        pose proof (window_mmer_le_mask K m model m_supported model_new fwd 0).
        specialize (Hlow 0 ltac:(lia)). lia.
      * exists (K - m + 1 - 1 - position k). split; [lia | exact Hw].
    + rewrite <- Hf. symmetry. unfold getMinimizerValue.
      set (km := mkKmerMinimizer _ KmerCanonical_uninit 0 false).
      pose proof (computeNewMinimizer_elected K m model m_supported model_new km) as Em.
      rewrite (minimizer_elected_unique model (computeNewMinimizer model km) k);
        try assumption.
      * pose proof (minimizer_elected_range K m model m_supported model_new k He) as Hr.
        destruct (model_fields K m model m_supported model_new)
          as (_ & _ & _ & _ & Hmask & _).
        destruct (pow4_m_bounds m m_supported) as [_ Hb64].
        unfold Type_getVal, u64. apply Z.mod_small. fold v. unfold v in Hr. lia.
      * rewrite computeNewMinimizer_base. reflexivity.
Qed.

End MinimizerIteration.

(** ** The table of m-mers *)

Section MinimizerTable.

Variables (K m : Z) (cmp : Comparator) (model : ModelMinimizer).
Hypothesis m_supported : mmer_size_supported m.
Hypothesis model_new : ModelMinimizer_new K m cmp = inr model.

(** X28.  The table [_mmer_lut] is never read outside its bounds: it has
    [4^m] entries, and the index [extract] computes from any kmer is below
    [4^m].  Every entry is between 0 and the sentinel [_mask], and an entry
    that is not the sentinel is an m-mer the table maps to itself. *)
Theorem mmer_lut_in_bounds :
  Z.of_nat (length (_mmer_lut model)) = 4 ^ m /\
  (forall b : KmerCanonical,
     0 <= Type_getVal (Z.land (table0 b) (_mask model))
       < Z.of_nat (length (_mmer_lut model))) /\
  (forall x, 0 <= x < 4 ^ m ->
     0 <= mmerLut model x <= _mask model /\
     (mmerLut model x <> _mask model ->
      mmerLut model (mmerLut model x) = mmerLut model x)).
Proof.
  unfold mmer_size_supported in m_supported.
  destruct (ModelMinimizer_new_inr K m cmp model ltac:(lia) model_new)
    as (_ & _ & _ & _ & Hmask & Hlut & _).
  destruct (pow4_m_bounds m m_supported) as [Hpos Hb64].
  assert (Hlen : Z.of_nat (length (_mmer_lut model)) = 4 ^ m).
  { rewrite Hlut, length_map, length_seq. lia. }
  split; [exact Hlen |]. split.
  - intros b. rewrite Hlen, Hmask.
    replace (4 ^ m - 1) with (2 ^ (2 * m) - 1) by (rewrite pow4_as_pow2 by lia; reflexivity).
    rewrite land_mask_mod by lia.
    pose proof (Z.mod_pos_bound (table0 b) (4 ^ m) Hpos) as Hx.
    unfold Type_getVal, u64. rewrite Z.mod_small by lia. exact Hx.
  - intros x Hx.
    assert (Hentry : forall y, 0 <= y < 4 ^ m ->
              mmerLut model y
              = if is_allowed (canonical m y) m then canonical m y else _mask model).
    { intros y Hy. rewrite (mmerLut_entry K m cmp model y) by (lia || assumption).
      rewrite mmer_lut_entry_canonical by lia. rewrite Hmask. reflexivity. }
    pose proof (canonical_below_sentinel m x ltac:(lia) Hx) as Hc.
    rewrite (Hentry x Hx). destruct (is_allowed (canonical m x) m) eqn:Ea.
    + split; [lia |]. intros _.
      assert (Hcc : canonical m (canonical m x) = canonical m x).
      { unfold canonical at 1. apply Z.min_l. apply canonical_is_canonical; lia. }
      rewrite (Hentry (canonical m x)) by lia. rewrite Hcc, Ea. reflexivity.
    + split; [lia |]. intros H. congruence.
Qed.

End MinimizerTable.

End Kmer.

(* ===================================================================== *)
(** * Properties that mix all spans with scenarios at [span = 32]         *)
(* ===================================================================== *)

(** C4.  A kmer is delivered with [valid = false] exactly when an invalid
    symbol occurs among the [K] symbols of its window, with each of the
    three models, for data whose number of kmers [len-K+1] is below [2^31]
    (the range in which the [int] counter of [iterate] does not overflow);
    and for [K = 4] and the ASCII input "ACGNACGT", iterate delivers exactly
    five kmers, the first four invalid and the fifth valid with value 30. *)
Theorem iterate_validity_propagation :
  (forall (span K m : Z) (cmp : Comparator) (md : ModelDirect) (mc : ModelCanonical)
          (mm : ModelMinimizer) (data : Data),
     span < 2 ^ 32 -> 0 <= K < 2 ^ 31 -> 0 <= m <= 31 ->
     size data - K + 1 < 2 ^ 31 ->
     let valid_at (t : nat) :=
       window_valid (convert_of (getEncoding data)) (getBuffer data) (Z.of_nat t) K in
     (ModelDirect_new span K = inr md ->
      forall t k i,
        snd (iterate (ModelImpl0 := ModelDirect_impl span) md data record_callback []) !! t
        = Some (k, i) ->
        KmerDirect_isValid k = valid_at t) /\
     (ModelCanonical_new span K = inr mc ->
      forall t k i,
        snd (iterate (ModelImpl0 := ModelCanonical_impl span) mc data record_callback []) !! t
        = Some (k, i) ->
        KmerCanonical_isValid k = valid_at t) /\
     (ModelMinimizer_new span K m cmp = inr mm ->
      forall t k i,
        snd (iterate (ModelImpl0 := ModelMinimizer_impl span) mm data record_callback []) !! t
        = Some (k, i) ->
        KmerCanonical_isValid (KmerMinimizer_base k) = valid_at t))
  /\
  (exists md : ModelDirect,
     ModelDirect_new 32 4 = inr md /\
     iterate (ModelImpl0 := ModelDirect_impl 32) md (Data_ascii "ACGNACGT")
             record_callback []
     = (true, [(mkKmerDirect 31 false, 0); (mkKmerDirect 124 false, 1);
               (mkKmerDirect 241 false, 2); (mkKmerDirect 199 false, 3);
               (mkKmerDirect 30 true, 4)])).
Proof.
  split.
  - intros span K m cmp md mc mm data Hspan [HK _] Hm _ valid_at. repeat split.
    + intros Hnew t k i. apply (iterate_valid_direct span K md data HK Hnew).
    + intros Hnew t k i. apply (iterate_valid_canonical span K mc data HK Hnew).
    + intros Hnew t k i.
      apply (iterate_valid_minimizer span Hspan K m cmp mm data HK Hm Hnew).
  - eexists. split; [reflexivity | vm_compute; reflexivity].
Qed.

Lemma iterate_validity_propagation_witness :
  exists md : ModelDirect,
    ModelDirect_new 32 4 = inr md /\
    forall t k i,
      snd (iterate (ModelImpl0 := ModelDirect_impl 32) md (Data_ascii "ACGNACGT")
                   record_callback []) !! t = Some (k, i) ->
      KmerDirect_isValid k
      = window_valid ConvertASCII (bytes_of_string "ACGNACGT") (Z.of_nat t) 4.
Proof.
  eexists. split; [reflexivity |].
  refine (proj1 (proj1 iterate_validity_propagation 32 4 2 ComparatorMinimizer _
                   (mkModelCanonical (mkModelAbstract 0 0 []))
                   (mkModelMinimizer (mkModelAbstract 0 0 [])
                      (mkModelCanonical (mkModelAbstract 0 0 []))
                      (mkModelCanonical (mkModelAbstract 0 0 []))
                      ComparatorMinimizer 0 0 [] 0 KmerCanonical_uninit)
                   (Data_ascii "ACGNACGT") _ _ _ _) _).
  - reflexivity.
  - lia.
  - lia.
  - cbn. lia.
  - reflexivity.
Defined.

(** C9.  [codeSeedRight] takes the validity of its result from the new
    nucleotide alone, whatever the previous kmer, with each of the three
    models: it does not carry the window counter of [iterate].  So for
    [K = 4], after "ACGN", the nucleotide A gives a valid kmer through
    [codeSeedRight] where [iterate] over "ACGNA" delivers the same value as
    invalid. *)
Theorem codeSeedRight_valid_from_nucleotide :
  (forall (span : Z) (md : ModelDirect) (mc : ModelCanonical) (mm : ModelMinimizer)
          (kd : KmerDirect) (kc : KmerCanonical) (km : KmerMinimizer)
          (nucl : Z) (encoding : Encoding_e),
     let valid := snd (get (convert_of encoding) [nucl] 0) =? 0 in
     KmerDirect_isValid
       (codeSeedRight (ModelImpl0 := ModelDirect_impl span) md kd nucl encoding) = valid /\
     KmerCanonical_isValid
       (codeSeedRight (ModelImpl0 := ModelCanonical_impl span) mc kc nucl encoding) = valid /\
     KmerCanonical_isValid
       (KmerMinimizer_base
          (codeSeedRight (ModelImpl0 := ModelMinimizer_impl span) mm km nucl encoding))
     = valid)
  /\
  (exists (md : ModelDirect) (k0 k1 : KmerDirect),
     ModelDirect_new 32 4 = inr md /\
     iterate (ModelImpl0 := ModelDirect_impl 32) md (Data_ascii "ACGNA") record_callback []
     = (true, [(k0, 0); (k1, 1)]) /\
     KmerDirect_isValid k0 = false /\
     KmerDirect_isValid k1 = false /\
     codeSeedRight (ModelImpl0 := ModelDirect_impl 32) md k0 65 ASCII
     = mkKmerDirect (KmerDirect_value k1) true).
Proof.
  split.
  - intros span md mc mm kd kc km nucl encoding.
    apply (codeSeedRight_isValid span md mc mm kd kc km nucl encoding).
  - do 3 eexists. split; [reflexivity |].
    split; [vm_compute; reflexivity |]. repeat split.
Qed.

(** ** Instances and counterexamples *)

Lemma canonical_choice_value_witness :
  exists model : ModelCanonical,
    ModelCanonical_new 32 2 = inr model /\
    forall k, ModelCanonical_produced 32 model k ->
      KmerCanonical_revcomp k = revcomp (KmerCanonical_forward k) 2 /\
      (choice k = 0 <-> KmerCanonical_forward k < KmerCanonical_revcomp k) /\
      KmerCanonical_value k = Z.min (KmerCanonical_forward k) (KmerCanonical_revcomp k).
Proof.
  eexists. split; [reflexivity |].
  refine (proj1 (canonical_choice_value 32 _ 2 _ _ _)).
  - reflexivity.
  - lia.
  - reflexivity.
Defined.

(** The statement C3 as it was written fails on a word equal to its
    reverse complement: for [K = 2], "AT" has [forward = revcomp = 2] and
    [choice = 1]; and a kmer written by [set (val)] has not the reverse
    complement of its forward value as [revcomp]. *)
Lemma canonical_choice_counterexample :
  exists (model : ModelCanonical) (k : KmerCanonical),
    ModelCanonical_new 32 2 = inr model /\
    k = snd (ModelCanonical_first 32 model ConvertASCII (bytes_of_string "AT")
                                  KmerCanonical_uninit) /\
    ModelCanonical_produced 32 model k /\
    ~ (choice k = 0 <-> KmerCanonical_forward k <= KmerCanonical_revcomp k) /\
    KmerCanonical_revcomp (KmerCanonical_set KmerCanonical_uninit 1)
    <> revcomp (KmerCanonical_forward (KmerCanonical_set KmerCanonical_uninit 1)) 2.
Proof.
  do 2 eexists. split; [reflexivity |]. split; [reflexivity |].
  split; [apply produced_first |]. split.
  - vm_compute. intros [_ H]. discriminate H. intros E; discriminate E.
  - vm_compute. intros E; discriminate E.
Qed.

Lemma iterateNeighbors_all_witness :
  exists model : ModelAbstract,
    ModelAbstract_new 32 11 = inr model /\
    iterateNeighbors 32 model 18 (fun x log => log ++ [x]) 0xFF []
    = fold_left (fun st x => st ++ [x])
        (map (outgoing_neighbor 11 18) [0; 1; 2; 3]
         ++ map (incoming_neighbor 11 18) [0; 1; 2; 3]) [].
Proof.
  eexists. split; [reflexivity |].
  refine (proj1 (iterateNeighbors_all 32 11 _ 18 (list Z) (fun x log => log ++ [x]) [] _ _)).
  - lia.
  - reflexivity.
Defined.

Lemma mmerLut_canonical_folding_witness :
  exists model : ModelMinimizer,
    ModelMinimizer_new 32 5 3 ComparatorMinimizer = inr model /\
    _mask model = 2 ^ (2 * 3) - 1 /\
    mmerLut model 6
    = (if is_allowed (Z.min 6 (revcomp 6 3)) 3 then Z.min 6 (revcomp 6 3) else _mask model) /\
    mmerLut model 6 = mmerLut model (revcomp 6 3).
Proof.
  eexists. split; [reflexivity |].
  refine (mmerLut_canonical_folding 32 _ 5 3 ComparatorMinimizer _ 6 _ _ _).
  - reflexivity.
  - unfold mmer_size_supported. lia.
  - reflexivity.
  - lia.
Defined.

Lemma is_allowed_no_AA_witness :
  is_allowed 0x104 5 = no_AA_below_top 0x104 5 /\
  is_allowed 0x104 5 = (allowed_bit_test 0x104 5 =? 0).
Proof. apply (is_allowed_no_AA 5 0x104); lia. Defined.

Lemma iterate_build_enough_input_witness :
  exists md : ModelDirect,
    ModelDirect_new 32 3 = inr md /\
    iterate (ModelImpl0 := ModelDirect_impl 32) md (Data_ascii "CATTGATAGTGG")
            record_callback []
    = (true,
       map (fun j => (direct_kmer_at ConvertASCII (bytes_of_string "CATTGATAGTGG") 3 j, j))
           (seqZ 0 10)) /\
    build (ModelImpl0 := ModelDirect_impl 32) md (Data_ascii "CATTGATAGTGG") []
    = (true,
       map (fun j => direct_kmer_at ConvertASCII (bytes_of_string "CATTGATAGTGG") 3 j)
           (seqZ 0 10)).
Proof.
  exists (mkModelDirect (mkModelAbstract 3 63 [32; 48; 0; 16])).
  split; [reflexivity |].
  pose proof (iterate_build_enough_input 32 (I := ModelDirect_impl 32)
                (mkModelDirect (mkModelAbstract 3 63 [32; 48; 0; 16]))
                (Data_ascii "CATTGATAGTGG")) as H.
  cbv zeta in H.
  destruct H as (_ & Henough & Hdirect).
  - vm_compute. split; [discriminate | reflexivity].
  - vm_compute. discriminate.
  - vm_compute. reflexivity.
  - specialize (Henough ltac:(vm_compute; discriminate)).
    destruct Henough as (Hit & _ & _ & Hbuild).
    specialize (Hdirect (mkModelDirect (mkModelAbstract 3 63 [32; 48; 0; 16]))
                        eq_refl ltac:(vm_compute; discriminate)
                        (codes_in_range_ASCII _ _)).
    split.
    + rewrite (Hit _ record_callback []). rewrite Hdirect. vm_compute. reflexivity.
    + rewrite (Hbuild []). rewrite Hdirect. vm_compute. reflexivity.
Defined.

(** The statement C5 as it was written gives the kmer that starts at input
    index [i] the output index [i-K+1]: for [K = 3] and "CATTGATAGTGG", the
    kmer that starts at input index 2 (TTG, value 43) is not delivered with
    output index 0 but with output index 2; output index 0 goes to the kmer
    that starts at input index 0 (CAT, value 18). *)
Lemma iterate_output_index_counterexample :
  exists (md : ModelDirect) (log : list (KmerDirect * Z)),
    ModelDirect_new 32 3 = inr md /\
    log = snd (iterate (ModelImpl0 := ModelDirect_impl 32) md (Data_ascii "CATTGATAGTGG")
                       record_callback []) /\
    let kmer_starting_at i :=
      direct_kmer_at ConvertASCII (bytes_of_string "CATTGATAGTGG") 3 i in
    ~ In (kmer_starting_at 2, 2 - 3 + 1) log /\
    In (kmer_starting_at 2, 2) log /\
    In (kmer_starting_at 0, 0) log.
Proof.
  do 2 eexists. split; [reflexivity |]. split; [reflexivity |].
  vm_compute. split; [| split].
  - intros H. repeat (destruct H as [H | H]; [discriminate H |]). exact H.
  - right. right. left. reflexivity.
  - left. reflexivity.
Qed.

Lemma minimizer_of_window_witness :
  exists model : ModelMinimizer,
    ModelMinimizer_new 32 3 2 ComparatorMinimizer = inr model /\
    forall k, ModelMinimizer_produced 32 model k ->
      let fwd := KmerCanonical_forward (KmerMinimizer_base k) in
      let v := KmerCanonical_value (minimizer k) in
      (forall i, 0 <= i < 3 - 2 + 1 -> v <= window_mmer model fwd i) /\
      (exists i, 0 <= i < 3 - 2 + 1 /\ window_mmer model fwd i = v) /\
      ((position k = -1 /\ v = _mask model) \/
       (0 <= position k < 3 - 2 + 1 /\ v < _mask model /\
        window_mmer model fwd (3 - 2 + 1 - 1 - position k) = v)).
Proof.
  eexists. split; [reflexivity |].
  refine (proj1 (minimizer_of_window 32 _ 3 2 _ _ _)).
  - reflexivity.
  - unfold mmer_size_supported. lia.
  - reflexivity.
Defined.

(** The statement C1 as it was written takes the position for the shift
    index: for [K = 3], [m = 2] and "ACG", the m-mers are AC (canonical
    value 1) at shift index 1 and CG (value 7) at shift index 0; the
    minimizer is 1, the largest shift index that achieves it is 1, and the
    position is 0. *)
Lemma minimizer_position_counterexample :
  let model :=
    mkModelMinimizer (mkModelAbstract 3 63 [32; 48; 0; 16])
      (mkModelCanonical (mkModelAbstract 3 63 [32; 48; 0; 16]))
      (mkModelCanonical (mkModelAbstract 2 15 [8; 12; 0; 4]))
      ComparatorMinimizer 2 15 [0; 1; 2; 3; 4; 5; 3; 7; 8; 9; 0; 4; 9; 13; 1; 5] 2
      (mkKmerCanonical 15 15 1 false) in
  let k := snd (ModelMinimizer_first 32 model ConvertASCII (bytes_of_string "ACG")
                                     KmerMinimizer_uninit) in
  let fwd := KmerCanonical_forward (KmerMinimizer_base k) in
  let v := KmerCanonical_value (minimizer k) in
  ModelMinimizer_new 32 3 2 ComparatorMinimizer = inr model /\
  ModelMinimizer_produced 32 model k /\
  v = 1 /\ window_mmer model fwd 1 = v /\ window_mmer model fwd 0 = 7 /\
  position k = 0 /\
  ~ (window_mmer model fwd (position k) = v /\
     forall i, 0 <= i < 2 -> window_mmer model fwd i = v -> i <= position k).
Proof.
  intros model k fwd v. split; [reflexivity |].
  split; [apply minimizer_produced_first |].
  split; [reflexivity |]. split; [reflexivity |]. split; [reflexivity |].
  split; [reflexivity |].
  intros [H _]. vm_compute in H. discriminate H.
Qed.

Lemma superkmer_load_after_save_witness :
  let model :=
    mkModelMinimizer (mkModelAbstract 3 63 [32; 48; 0; 16])
      (mkModelCanonical (mkModelAbstract 3 63 [32; 48; 0; 16]))
      (mkModelCanonical (mkModelAbstract 2 15 [8; 12; 0; 4]))
      ComparatorMinimizer 2 15 [0; 1; 2; 3; 4; 5; 3; 7; 8; 9; 0; 4; 9; 13; 1; 5] 2
      (mkKmerCanonical 15 15 1 false) in
  let kmers_of_ACGTTA :=
    snd (build (ModelImpl0 := ModelMinimizer_impl 32) model (Data_ascii "ACGTTA") []) in
  let sk := mkSuperKmer 1 (0, 1) 3 2 kmers_of_ACGTTA in
  ModelMinimizer_new 32 3 2 ComparatorMinimizer = inr model /\
  consecutive_run 32 model (SuperKmer_run sk) /\
  exists dst',
    SuperKmer_load 32 sk (SuperKmer_save 32 sk []) = Some dst' /\
    length (kmers dst') = length (kmers sk) /\
    forall i s, SuperKmer_run sk !! i = Some s ->
      exists d, kmers dst' !! i = Some d /\
        KmerCanonical_value (KmerMinimizer_base d)
        = KmerCanonical_value (KmerMinimizer_base s) /\
        KmerCanonical_forward (KmerMinimizer_base d)
        = KmerCanonical_revcomp (KmerMinimizer_base s) /\
        KmerCanonical_revcomp (KmerMinimizer_base d)
        = KmerCanonical_forward (KmerMinimizer_base s).
Proof.
  intros model kmers_of_ACGTTA sk.
  assert (Hrun : consecutive_run 32 model (SuperKmer_run sk)).
  { split.
    - exact (minimizer_produced_first 32 model ConvertASCII (bytes_of_string "ACGTTA")
               KmerMinimizer_uninit).
    - split; [| exact I]. exists 2, true. split; [lia | vm_compute; reflexivity]. }
  split; [reflexivity |]. split; [exact Hrun |].
  refine (superkmer_load_after_save 32 _ 3 2 model _ _ sk sk Hrun _ _ _ _).
  - reflexivity.
  - unfold mmer_size_supported. lia.
  - reflexivity.
  - vm_compute. split; discriminate.
  - vm_compute. discriminate.
  - reflexivity.
  - vm_compute. discriminate.
Defined.

(** The payload holds the count in its top 8 bits and 2 bits per
    nucleotide: with words of 64 bits ([span = 32]), the run of the 30
    kmers of 32 A's, all with the minimizer AA, overflows it: the count
    overwrites the first nucleotide, and the second kmer is decoded as
    AAT. *)
Lemma superkmer_capacity_counterexample :
  let model :=
    mkModelMinimizer (mkModelAbstract 3 63 [32; 48; 0; 16])
      (mkModelCanonical (mkModelAbstract 3 63 [32; 48; 0; 16]))
      (mkModelCanonical (mkModelAbstract 2 15 [8; 12; 0; 4]))
      ComparatorMinimizer 2 15 [0; 1; 2; 3; 4; 5; 3; 7; 8; 9; 0; 4; 9; 13; 1; 5] 2
      (mkKmerCanonical 15 15 1 false) in
  let data := mkData (repeat 65 32) 32 ASCII in
  let sk := mkSuperKmer 0 (0, 29) 3 2
              (snd (build (ModelImpl0 := ModelMinimizer_impl 32) model data [])) in
  let ks := SuperKmer_run sk in
  ModelMinimizer_new 32 3 2 ComparatorMinimizer = inr model /\
  consecutive_run 32 model ks /\
  SuperKmer_size sk = 30 /\
  Forall (fun k => KmerCanonical_value (minimizer k) = 0) ks /\
  exists dst' s d,
    SuperKmer_load 32 sk (SuperKmer_save 32 sk []) = Some dst' /\
    ks !! 1%nat = Some s /\ kmers dst' !! 1%nat = Some d /\
    KmerCanonical_forward (KmerMinimizer_base s) = 0 /\
    KmerCanonical_revcomp (KmerMinimizer_base s) = 42 /\
    KmerCanonical_forward (KmerMinimizer_base d) = 10 /\
    KmerCanonical_revcomp (KmerMinimizer_base d) = 2 /\
    KmerCanonical_value (KmerMinimizer_base d)
    <> KmerCanonical_value (KmerMinimizer_base s).
Proof.
  intros model data sk ks. split; [reflexivity |]. split.
  - split.
    + exact (minimizer_produced_first 32 model ConvertASCII (repeat 65 32)
               KmerMinimizer_uninit).
    + let l := eval vm_compute in (tl ks) in
      assert (Hks : tl ks = l) by (vm_compute; reflexivity);
      change (kmers_chain 32 model (SuperKmer_at sk 0) (tl ks)); rewrite Hks.
      repeat (split; [exists 0, true; split; [lia | vm_compute; reflexivity] |]).
      exact I.
  - split; [reflexivity |]. split.
    + let l := eval vm_compute in ks in
      assert (Hks : ks = l) by (vm_compute; reflexivity); rewrite Hks.
      repeat (constructor; [reflexivity |]). constructor.
    + do 3 eexists. split; [vm_compute; reflexivity |].
      split; [vm_compute; reflexivity |]. split; [reflexivity |].
      repeat (split; [reflexivity |]). vm_compute. discriminate.
Qed.

(** C2.  The round trip of a super kmer does not reproduce the run on
    (forward, revcomp): [load] calls [kmers[ii].set (rev_temp, temp)],
    where [set] takes the forward value first.  For [K = 11], [m = 2] and
    the sequence "CGTACGCAACGTCAGCA", the seven kmers are consecutive kmers
    of the sequence, share the minimizer AA and fit the payload
    ([2*6 + 8 <= 64]); [load] applied to the two words of [save] returns
    seven kmers, each holding the two strand words of the kmer of the run
    in swapped slots: the first kmer of the run has [forward = 1973511]
    and [revcomp = 2013063], the first decoded kmer has
    [forward = 2013063] and [revcomp = 1973511]. *)
Theorem superkmer_load_swaps_strands :
  let model :=
    mkModelMinimizer (mkModelAbstract 11 4194303 [2097152; 3145728; 0; 1048576])
      (mkModelCanonical (mkModelAbstract 11 4194303 [2097152; 3145728; 0; 1048576]))
      (mkModelCanonical (mkModelAbstract 2 15 [8; 12; 0; 4]))
      ComparatorMinimizer 10 15 [0; 1; 2; 3; 4; 5; 3; 7; 8; 9; 0; 4; 9; 13; 1; 5] 18
      (mkKmerCanonical 15 15 1 false) in
  let sk := mkSuperKmer 0 (0, 6) 11 2
              (snd (build (ModelImpl0 := ModelMinimizer_impl 32) model
                          (Data_ascii "CGTACGCAACGTCAGCA") [])) in
  let ks := SuperKmer_run sk in
  let strands (k : KmerMinimizer) :=
    (KmerCanonical_forward (KmerMinimizer_base k),
     KmerCanonical_revcomp (KmerMinimizer_base k)) in
  ModelMinimizer_new 32 11 2 ComparatorMinimizer = inr model /\
  consecutive_run 32 model ks /\
  SuperKmer_size sk = 7 /\
  2 * (SuperKmer_size sk - 1) + 8 <= Type_getSize 32 /\
  Forall (fun k => KmerCanonical_value (minimizer k) = 0) ks /\
  map strands ks
  = [(1973511, 2013063); (3699742, 503265); (2216057, 3271544);
     (475620, 2915038); (1902483, 1777335); (3415629, 3590061);
     (1079604, 2994667)] /\
  exists dst',
    SuperKmer_load 32 sk (SuperKmer_save 32 sk []) = Some dst' /\
    map strands (kmers dst')
    = [(2013063, 1973511); (503265, 3699742); (3271544, 2216057);
       (2915038, 475620); (1777335, 1902483); (3590061, 3415629);
       (2994667, 1079604)] /\
    map strands (kmers dst') <> map strands ks.
Proof.
  intros model sk ks strands.
  assert (Hks : map strands ks
                = [(1973511, 2013063); (3699742, 503265); (2216057, 3271544);
                   (475620, 2915038); (1902483, 1777335); (3415629, 3590061);
                   (1079604, 2994667)]) by (vm_compute; reflexivity).
  split; [reflexivity |]. split.
  - split.
    + exact (minimizer_produced_first 32 model ConvertASCII
               (bytes_of_string "CGTACGCAACGTCAGCA") KmerMinimizer_uninit).
    + let l := eval vm_compute in (tl ks) in
      assert (Htl : tl ks = l) by (vm_compute; reflexivity);
      change (kmers_chain 32 model (SuperKmer_at sk 0) (tl ks)); rewrite Htl.
      split; [exists 2, true; split; [lia | vm_compute; reflexivity] |].
      split; [exists 1, true; split; [lia | vm_compute; reflexivity] |].
      split; [exists 0, true; split; [lia | vm_compute; reflexivity] |].
      split; [exists 3, true; split; [lia | vm_compute; reflexivity] |].
      split; [exists 1, true; split; [lia | vm_compute; reflexivity] |].
      split; [exists 0, true; split; [lia | vm_compute; reflexivity] |].
      exact I.
  - split; [reflexivity |]. split; [vm_compute; discriminate |]. split.
    + let l := eval vm_compute in ks in
      assert (Hl : ks = l) by (vm_compute; reflexivity); rewrite Hl.
      repeat (constructor; [reflexivity |]). constructor.
    + split; [exact Hks |]. eexists. split; [vm_compute; reflexivity |].
      split; [vm_compute; reflexivity |].
      rewrite Hks. vm_compute. discriminate.
Qed.


(* ===================================================================== *)
(** * Instances of the further properties at [span = 32]                  *)
(* ===================================================================== *)

Lemma iterate_minimizer_as_canonical_witness :
  exists model : ModelMinimizer,
    ModelMinimizer_new 32 3 2 ComparatorMinimizer = inr model /\
    map (fun e => (KmerMinimizer_base (fst e), snd e))
        (snd (iterate (ModelImpl0 := ModelMinimizer_impl 32) model (Data_ascii "ACGTTA")
                      record_callback []))
    = snd (iterate (ModelImpl0 := ModelCanonical_impl 32) (_kmerModel model)
                   (Data_ascii "ACGTTA") record_callback []).
Proof.
  eexists. split; [reflexivity |].
  refine (proj2 (proj2 (iterate_minimizer_as_canonical 32 3 2 ComparatorMinimizer _
                          (Data_ascii "ACGTTA") _))).
  reflexivity.
Defined.

Lemma iterate_canonical_kmers_witness :
  exists model : ModelCanonical,
    ModelCanonical_new 32 3 = inr model /\
    snd (iterate (ModelImpl0 := ModelCanonical_impl 32) model (Data_ascii "CATTGATAGTGG")
                 record_callback [])
    = map (fun j => (canonical_kmer_at ConvertASCII (bytes_of_string "CATTGATAGTGG") 3 j, j))
          (seqZ 0 (12 - 3 + 1)).
Proof.
  eexists. split; [reflexivity |].
  refine (proj1 (iterate_canonical_kmers 32 _ 3 _ (Data_ascii "CATTGATAGTGG") _ _ _ _)).
  - reflexivity.
  - reflexivity.
  - cbn. lia.
  - cbn. lia.
  - apply codes_in_range_ASCII.
Defined.

Lemma position_negative_iff_forbidden_witness :
  let model :=
    mkModelMinimizer (mkModelAbstract 3 63 [32; 48; 0; 16])
      (mkModelCanonical (mkModelAbstract 3 63 [32; 48; 0; 16]))
      (mkModelCanonical (mkModelAbstract 2 15 [8; 12; 0; 4]))
      ComparatorMinimizer 2 15 [0; 1; 2; 3; 4; 5; 3; 7; 8; 9; 0; 4; 9; 13; 1; 5] 2
      (mkKmerCanonical 15 15 1 false) in
  let k := snd (ModelMinimizer_first 32 model ConvertASCII (bytes_of_string "ACG")
                                     KmerMinimizer_uninit) in
  ModelMinimizer_new 32 3 2 ComparatorMinimizer = inr model /\
  ModelMinimizer_produced 32 model k /\
  -1 <= position k < 3 - 2 + 1 /\
  (position k = -1 <-> KmerCanonical_value (minimizer k) = _mask model).
Proof.
  intros model k. split; [reflexivity |].
  split; [apply minimizer_produced_first |].
  assert (Hm : mmer_size_supported 2) by (unfold mmer_size_supported; lia).
  pose proof (position_negative_iff_forbidden 32 eq_refl 3 2 model Hm eq_refl k
                (minimizer_produced_first 32 model ConvertASCII (bytes_of_string "ACG")
                                          KmerMinimizer_uninit)) as H.
  exact (conj (proj1 H) (proj1 (proj2 H))).
Defined.

Lemma minimizer_allowed_canonical_witness :
  let model :=
    mkModelMinimizer (mkModelAbstract 3 63 [32; 48; 0; 16])
      (mkModelCanonical (mkModelAbstract 3 63 [32; 48; 0; 16]))
      (mkModelCanonical (mkModelAbstract 2 15 [8; 12; 0; 4]))
      ComparatorMinimizer 2 15 [0; 1; 2; 3; 4; 5; 3; 7; 8; 9; 0; 4; 9; 13; 1; 5] 2
      (mkKmerCanonical 15 15 1 false) in
  let k := snd (ModelMinimizer_first 32 model ConvertASCII (bytes_of_string "ACG")
                                     KmerMinimizer_uninit) in
  let v := KmerCanonical_value (minimizer k) in
  ModelMinimizer_new 32 3 2 ComparatorMinimizer = inr model /\
  ModelMinimizer_produced 32 model k /\ 0 <= position k /\
  v = canonical 2 (mmer_at model (KmerCanonical_forward (KmerMinimizer_base k))
                           (3 - 2 + 1 - 1 - position k)) /\
  is_allowed v 2 = true /\ v <= revcomp v 2.
Proof.
  intros model k v. split; [reflexivity |].
  split; [apply minimizer_produced_first |].
  assert (Hm : mmer_size_supported 2) by (unfold mmer_size_supported; lia).
  assert (Hp : 0 <= position k) by (vm_compute; discriminate).
  split; [exact Hp |].
  pose proof (minimizer_allowed_canonical 32 eq_refl 3 2 model Hm eq_refl k
                (minimizer_produced_first 32 model ConvertASCII (bytes_of_string "ACG")
                                          KmerMinimizer_uninit) Hp) as H.
  exact (conj (proj1 H) (conj (proj1 (proj2 H)) (proj1 (proj2 (proj2 H))))).
Defined.

Lemma getMinimizerValue_of_kmer_witness :
  let model :=
    mkModelMinimizer (mkModelAbstract 3 63 [32; 48; 0; 16])
      (mkModelCanonical (mkModelAbstract 3 63 [32; 48; 0; 16]))
      (mkModelCanonical (mkModelAbstract 2 15 [8; 12; 0; 4]))
      ComparatorMinimizer 2 15 [0; 1; 2; 3; 4; 5; 3; 7; 8; 9; 0; 4; 9; 13; 1; 5] 2
      (mkKmerCanonical 15 15 1 false) in
  let k := snd (ModelMinimizer_first 32 model ConvertASCII (bytes_of_string "ACG")
                                     KmerMinimizer_uninit) in
  ModelMinimizer_new 32 3 2 ComparatorMinimizer = inr model /\
  ModelMinimizer_produced 32 model k /\
  getMinimizerValue 32 model (KmerCanonical_forward (KmerMinimizer_base k))
  = KmerCanonical_value (minimizer k).
Proof.
  intros model k. split; [reflexivity |].
  split; [apply minimizer_produced_first |].
  assert (Hm : mmer_size_supported 2) by (unfold mmer_size_supported; lia).
  exact (getMinimizerValue_of_kmer 32 eq_refl 3 2 model Hm eq_refl k
           (minimizer_produced_first 32 model ConvertASCII (bytes_of_string "ACG")
                                     KmerMinimizer_uninit)).
Defined.

Lemma next_hasChanged_witness :
  let model :=
    mkModelMinimizer (mkModelAbstract 3 63 [32; 48; 0; 16])
      (mkModelCanonical (mkModelAbstract 3 63 [32; 48; 0; 16]))
      (mkModelCanonical (mkModelAbstract 2 15 [8; 12; 0; 4]))
      ComparatorMinimizer 2 15 [0; 1; 2; 3; 4; 5; 3; 7; 8; 9; 0; 4; 9; 13; 1; 5] 2
      (mkKmerCanonical 15 15 1 false) in
  let k := snd (ModelMinimizer_first 32 model ConvertASCII (bytes_of_string "CAT")
                                     KmerMinimizer_uninit) in
  let k' := ModelMinimizer_next 32 model 2 k true in
  - 2 ^ 15 < position k < 2 ^ 15 /\
  (hasChanged k' = false -> minimizer k' = minimizer k /\ position k' = position k - 1).
Proof.
  intros model k k'.
  assert (Hr : - 2 ^ 15 < position k < 2 ^ 15) by (vm_compute; split; reflexivity).
  split; [exact Hr |].
  exact (proj1 (proj2 (next_hasChanged 32 model 2 k true Hr))).
Defined.

Lemma iterateNeighbors_masked_witness :
  exists model : ModelAbstract,
    ModelAbstract_new 32 3 = inr model /\
    iterateNeighbors 32 model 7 record_neighbor 33 []
    = fold_left (fun st x => record_neighbor x st)
        (map (outgoing_neighbor 3 7) (List.filter (fun nt => Z.testbit 33 nt) [0; 1; 2; 3])
         ++ map (incoming_neighbor 3 7)
                (List.filter (fun nt => Z.testbit 33 (4 + nt)) [0; 1; 2; 3])) [].
Proof.
  eexists. split; [reflexivity |].
  refine (proj1 (iterateNeighbors_masked 32 3 _ 7 33 (list Z) record_neighbor [] _ _)).
  - lia.
  - reflexivity.
Defined.

Lemma neighbors_are_canonical_witness :
  exists model : ModelAbstract,
    ModelAbstract_new 32 3 = inr model /\
    Forall (fun v => 0 <= v < 4 ^ 3 /\ v <= revcomp v 3)
           (iterateNeighbors 32 model 7 record_neighbor 255 []).
Proof.
  eexists. split; [reflexivity |].
  refine (neighbors_are_canonical 32 3 _ 7 255 _ _).
  - lia.
  - reflexivity.
Defined.

Lemma neighbors_symmetric_witness :
  exists model : ModelAbstract,
    ModelAbstract_new 32 3 = inr model /\
    Forall (fun v => In (canonical 3 7) (iterateNeighbors 32 model v record_neighbor 255 []))
           (iterateNeighbors 32 model 7 record_neighbor 255 []).
Proof.
  eexists. split; [reflexivity |].
  refine (neighbors_symmetric 32 3 _ 7 _ _ _).
  - lia.
  - reflexivity.
  - cbn. lia.
Defined.

Lemma SuperKmer_load_canonical_witness :
  let sk := mkSuperKmer 0 (0, 1) 3 2 [KmerMinimizer_uninit; KmerMinimizer_uninit] in
  exists dst,
    SuperKmer_load 32 sk [2 * 2 ^ 56 + 1; 7] = Some dst /\
    forall i k,
      (i < Z.to_nat (SuperKmer_count 32 (2 * 2 ^ 56 + 1)))%nat -> kmers sk !! i = Some k ->
      exists d, kmers dst !! i = Some d /\
        canonical_pair 3 (KmerMinimizer_base d) /\
        KmerCanonical_value (KmerMinimizer_base d)
        = canonical 3 (KmerCanonical_forward (KmerMinimizer_base d)) /\
        (i = 0%nat ->
         KmerCanonical_revcomp (KmerMinimizer_base d) = 7 /\
         KmerCanonical_forward (KmerMinimizer_base d) = revcomp 7 3).
Proof.
  intros sk.
  refine (SuperKmer_load_canonical 32 eq_refl 3 sk (2 * 2 ^ 56 + 1) 7 [] _ _ _ _).
  - lia.
  - reflexivity.
  - cbn. lia.
  - vm_compute. discriminate.
Defined.

Lemma SuperKmer_load_frame_witness :
  let sk := mkSuperKmer 0 (0, 1) 3 2 [KmerMinimizer_uninit; KmerMinimizer_uninit] in
  exists dst,
    SuperKmer_load 32 sk [2 * 2 ^ 56 + 1; 7] = Some dst /\
    SuperKmer_minimizer dst = SuperKmer_minimizer sk /\
    SuperKmer_size dst = SuperKmer_size sk /\
    length (kmers dst) = length (kmers sk).
Proof.
  intros sk.
  destruct (SuperKmer_load_frame 32 sk (2 * 2 ^ 56 + 1) 7 [])
    as (dst & Hload & Hmin & Hsize & Hlen & _).
  - vm_compute. discriminate.
  - exists dst. repeat split; assumption.
Defined.

Lemma SuperKmer_save_format_witness :
  let model :=
    mkModelMinimizer (mkModelAbstract 3 63 [32; 48; 0; 16])
      (mkModelCanonical (mkModelAbstract 3 63 [32; 48; 0; 16]))
      (mkModelCanonical (mkModelAbstract 2 15 [8; 12; 0; 4]))
      ComparatorMinimizer 2 15 [0; 1; 2; 3; 4; 5; 3; 7; 8; 9; 0; 4; 9; 13; 1; 5] 2
      (mkKmerCanonical 15 15 1 false) in
  let sk := mkSuperKmer 1 (0, 1) 3 2
              (snd (build (ModelImpl0 := ModelMinimizer_impl 32) model
                          (Data_ascii "ACGTTA") [])) in
  exists w,
    SuperKmer_save 32 sk []
    = [] ++ [w; KmerCanonical_forward (KmerMinimizer_base (SuperKmer_at sk 0))] /\
    0 <= w < 2 ^ Type_getSize 32 /\
    SuperKmer_count 32 w = SuperKmer_size sk /\
    forall i, 1 <= i < SuperKmer_size sk ->
      Z.land (Type_shr w (2 * (SuperKmer_size sk - 1 - i))) 3
      = KmerCanonical_forward (KmerMinimizer_base (SuperKmer_at sk i)) mod 4.
Proof.
  intros model sk.
  refine (SuperKmer_save_format 32 sk [] _ _ _ _).
  - vm_compute. split; discriminate.
  - vm_compute. discriminate.
  - vm_compute. split; discriminate.
  - vm_compute. reflexivity.
Defined.

Lemma getKmer_random_access_witness :
  let data := Data_ascii "CATTGATAGTGG" in
  exists (md : ModelDirect) (mc : ModelCanonical),
    ModelDirect_new 32 3 = inr md /\ ModelCanonical_new 32 3 = inr mc /\
    snd (iterate (ModelImpl0 := ModelDirect_impl 32) md data record_callback [])
      !! Z.to_nat 2
    = Some (getKmer (ModelImpl0 := ModelDirect_impl 32) md data 2, 2) /\
    snd (iterate (ModelImpl0 := ModelCanonical_impl 32) mc data record_callback [])
      !! Z.to_nat 2
    = Some (getKmer (ModelImpl0 := ModelCanonical_impl 32) mc data 2, 2).
Proof.
  intros data. eexists. eexists. split; [reflexivity |]. split; [reflexivity |].
  refine (getKmer_random_access 32 eq_refl 3 _ _ data 2 _ _ _ _ _ _ _ _).
  - reflexivity.
  - reflexivity.
  - discriminate.
  - lia.
  - lia.
  - cbn. lia.
  - cbn. lia.
  - apply codes_in_range_ASCII.
Defined.

Lemma getKmer_binary_offset_witness :
  let data := mkData [27; 228] 8 BINARY in
  exists md : ModelDirect,
    ModelDirect_new 32 3 = inr md /\
    getKmer (ModelImpl0 := ModelDirect_impl 32) md data 1
    = direct_kmer_at ConvertBinary (getBuffer data) 3 (4 * 1).
Proof.
  intros data. eexists. split; [reflexivity |].
  refine (proj1 (getKmer_binary_offset 32 3 _ data 1 _ _ _ _ _ _)).
  - reflexivity.
  - reflexivity.
  - lia.
  - lia.
  - cbn. lia.
  - cbn. lia.
Defined.

Lemma codeSeedRight_after_getKmer_witness :
  let data := Data_ascii "CATTGATAGTGG" in
  exists (md : ModelDirect) (mc : ModelCanonical),
    ModelDirect_new 32 3 = inr md /\ ModelCanonical_new 32 3 = inr mc /\
    codeSeedRight (ModelImpl0 := ModelDirect_impl 32) md
                  (getKmer (ModelImpl0 := ModelDirect_impl 32) md data 2)
                  (buffer_at (getBuffer data) (2 + 3)) (getEncoding data)
    = mkKmerDirect
        (KmerDirect_value (getKmer (ModelImpl0 := ModelDirect_impl 32) md data (2 + 1)))
        (snd (get (convert_of (getEncoding data)) (getBuffer data) (2 + 3)) =? 0).
Proof.
  intros data. eexists. exists (mkModelCanonical (mkModelAbstract 3 63 [32; 48; 0; 16])).
  split; [reflexivity |]. split; [reflexivity |].
  refine (proj1 (codeSeedRight_after_getKmer 32 eq_refl 3 _
                   (mkModelCanonical (mkModelAbstract 3 63 [32; 48; 0; 16]))
                   data 2 _ _ _ _ _ _ _)).
  - reflexivity.
  - reflexivity.
  - discriminate.
  - lia.
  - lia.
  - cbn. lia.
  - apply codes_in_range_ASCII.
Defined.

Lemma canonical_strand_symmetry_witness :
  exists model : ModelCanonical,
    ModelCanonical_new 32 3 = inr model /\
    let k := codeSeed (ModelImpl0 := ModelCanonical_impl 32) model [1; 0; 2] INTEGER in
    let k' := codeSeed (ModelImpl0 := ModelCanonical_impl 32) model
                       (revcomp_codes [1; 0; 2]) INTEGER in
    KmerCanonical_forward k' = KmerCanonical_revcomp k /\
    KmerCanonical_revcomp k' = KmerCanonical_forward k /\
    KmerCanonical_value k' = KmerCanonical_value k /\
    KmerCanonical_isValid k = true /\ KmerCanonical_isValid k' = true.
Proof.
  eexists. split; [reflexivity |].
  refine (canonical_strand_symmetry 32 3 _ [1; 0; 2] _ _ _).
  - reflexivity.
  - reflexivity.
  - repeat constructor; lia.
Defined.

Lemma constructor_mask_and_table_witness :
  exists model : ModelAbstract,
    ModelAbstract_new 32 3 = inr model /\
    getKmerSize model = 3 /\
    getKmerMax model = 4 ^ 3 - 1 /\
    getKmerMax model < 2 ^ Type_getSize 32 /\
    (forall x, Z.land x (getKmerMax model) = x mod 4 ^ 3) /\
    (forall c, 0 <= c < 4 -> revcompTable_at model c = Z.lxor c 2 * 4 ^ (3 - 1)).
Proof.
  eexists. split; [reflexivity |].
  refine (constructor_mask_and_table 32 eq_refl 3 _ _ _).
  - reflexivity.
  - lia.
Defined.

Lemma binary_kmer_of_bytes_witness :
  exists md : ModelDirect,
    ModelDirect_new 32 4 = inr md /\
    codeSeed (ModelImpl0 := ModelDirect_impl 32) md [27] BINARY
    = mkKmerDirect (bytes_value [27]) true.
Proof.
  eexists. split; [reflexivity |].
  refine (binary_kmer_of_bytes 32 4 _ [27] _ _ _).
  - reflexivity.
  - reflexivity.
  - repeat constructor; lia.
Defined.

Lemma next_within_kmerMax_witness :
  exists (md : ModelDirect) (mc : ModelCanonical),
    ModelDirect_new 32 3 = inr md /\ ModelCanonical_new 32 3 = inr mc /\
    let k' := ModelCanonical_next 32 mc 2 (mkKmerCanonical 18 10 1 true) true in
    0 <= KmerDirect_value (ModelDirect_next 32 md 2 (mkKmerDirect 18 true) true)
      <= getKmerMax (ModelDirect_base md) /\
    0 <= KmerCanonical_forward k' <= getKmerMax (ModelCanonical_base mc) /\
    0 <= KmerCanonical_revcomp k' <= getKmerMax (ModelCanonical_base mc) /\
    0 <= KmerCanonical_value k' <= getKmerMax (ModelCanonical_base mc).
Proof.
  eexists. eexists. split; [reflexivity |]. split; [reflexivity |].
  refine (next_within_kmerMax 32 3 _ _ 2 (mkKmerDirect 18 true)
            (mkKmerCanonical 18 10 1 true) true _ _ _).
  - reflexivity.
  - reflexivity.
  - lia.
Defined.

Lemma iterate_int32_overflow_witness :
  let md := mkModelDirect (mkModelAbstract 3 63 [32; 48; 0; 16]) in
  let data := mkData [] (2 ^ 31 + 2) ASCII in
  ModelDirect_new 32 3 = inr md /\
  (forall (St : Type) (callback : KmerDirect -> Z -> St -> St) (st : St),
     iterate (ModelImpl0 := ModelDirect_impl 32) md data callback st = (false, st)) /\
  (forall kmersBuffer,
     build (ModelImpl0 := ModelDirect_impl 32) md data kmersBuffer = (false, kmersBuffer)).
Proof.
  intros md data. split; [reflexivity |].
  refine (iterate_int32_overflow (I := ModelDirect_impl 32) md data _).
  vm_compute. split; discriminate.
Defined.

Lemma setData_items_witness :
  let md := mkModelDirect (mkModelAbstract 3 63 [32; 48; 0; 16]) in
  let it := mkIterator md [mkKmerDirect 7 true] 1 in
  ModelDirect_new 32 3 = inr md /\
  _items (setData (ModelImpl0 := ModelDirect_impl 32) it (Data_ascii "AC"))
  = [mkKmerDirect 7 true] /\
  _nb (setData (ModelImpl0 := ModelDirect_impl 32) it (Data_ascii "ACGT")) = 4 - 3 + 1.
Proof.
  intros md it. split; [reflexivity |].
  pose proof (setData_items (I := ModelDirect_impl 32) it (Data_ascii "AC")) as Hshort.
  pose proof (setData_items (I := ModelDirect_impl 32) it (Data_ascii "ACGT")) as Hlong.
  cbv zeta in Hshort, Hlong.
  destruct Hshort as (_ & Hshort & _);
    [vm_compute; split; [discriminate | reflexivity] | vm_compute; discriminate
     | vm_compute; reflexivity |].
  destruct Hlong as (_ & _ & Hlong);
    [vm_compute; split; [discriminate | reflexivity] | vm_compute; discriminate
     | vm_compute; reflexivity |].
  split.
  - exact (proj1 (Hshort ltac:(vm_compute; reflexivity))).
  - exact (proj2 (Hlong ltac:(vm_compute; discriminate))).
Defined.

Lemma SuperKmer_new_range_witness :
  let sk := SuperKmer_new 3 2 [] in
  SuperKmer_isValid sk = false /\
  SuperKmer_size sk = 3 /\
  (forall idx, 0 <= idx < SuperKmer_size sk ->
     exists k, kmers sk !! Z.to_nat idx = Some k /\ SuperKmer_at sk idx = k).
Proof.
  intros sk.
  pose proof (SuperKmer_new_range 3 2 [] ltac:(lia)) as H. cbv zeta in H.
  exact (conj (proj1 H) (conj (proj1 (proj2 H)) (proj2 (proj2 (proj2 H))))).
Defined.

Lemma iterate_minimizer_kmers_witness :
  let model :=
    mkModelMinimizer (mkModelAbstract 3 63 [32; 48; 0; 16])
      (mkModelCanonical (mkModelAbstract 3 63 [32; 48; 0; 16]))
      (mkModelCanonical (mkModelAbstract 2 15 [8; 12; 0; 4]))
      ComparatorMinimizer 2 15 [0; 1; 2; 3; 4; 5; 3; 7; 8; 9; 0; 4; 9; 13; 1; 5] 2
      (mkKmerCanonical 15 15 1 false) in
  let data := Data_ascii "ACGTTA" in
  let cv := convert_of (getEncoding data) in
  ModelMinimizer_new 32 3 2 ComparatorMinimizer = inr model /\
  exists k i,
    snd (iterate (ModelImpl0 := ModelMinimizer_impl 32) model data record_callback [])
      !! 1%nat = Some (k, i) /\
    i = Z.of_nat 1 /\
    KmerMinimizer_base k = canonical_kmer_at cv (getBuffer data) 3 (Z.of_nat 1) /\
    KmerCanonical_value (minimizer k)
    = getMinimizerValue 32 model (polynomial cv (getBuffer data) (Z.of_nat 1) 3).
Proof.
  intros model data cv. split; [reflexivity |].
  assert (Hm : mmer_size_supported 2) by (unfold mmer_size_supported; lia).
  assert (H1 : 3 <= size data) by (vm_compute; discriminate).
  assert (H2 : size data - 3 + 1 < 2 ^ 31) by (vm_compute; reflexivity).
  destruct (snd (iterate (ModelImpl0 := ModelMinimizer_impl 32) model data
                         record_callback []) !! 1%nat) as [[k i] |] eqn:Ht;
    [| vm_compute in Ht; discriminate Ht].
  exists k, i. split; [reflexivity |].
  pose proof (iterate_minimizer_kmers 32 eq_refl 3 2 model Hm eq_refl data H1 H2
                (codes_in_range_ASCII _ _) 1%nat k i Ht) as H.
  cbv zeta in H.
  exact (conj (proj1 H) (conj (proj1 (proj2 H)) (proj2 (proj2 (proj2 (proj2 H)))))).
Defined.

Lemma mmer_lut_in_bounds_witness :
  exists model : ModelMinimizer,
    ModelMinimizer_new 32 3 2 ComparatorMinimizer = inr model /\
    Z.of_nat (length (_mmer_lut model)) = 4 ^ 2 /\
    (forall b : KmerCanonical,
       0 <= Type_getVal (Z.land (table0 b) (_mask model))
         < Z.of_nat (length (_mmer_lut model))).
Proof.
  eexists. split; [reflexivity |].
  assert (Hm : mmer_size_supported 2) by (unfold mmer_size_supported; lia).
  pose proof (mmer_lut_in_bounds 32 eq_refl 3 2 ComparatorMinimizer _ Hm eq_refl) as H.
  exact (conj (proj1 H) (proj1 (proj2 H))).
Defined.
